(** * Custom-Classes: ingestion pipelines, table normalisation, schema generator

    A shallow embedding of [data_wrangler_local.py], [data_wrangler_s3.py]
    and [schema_generator.py], and the properties of the specification
    settled against it.

    Conventions of the embedding.
    - A Python [str] is the list of its Unicode code points.  What Python
      reads in the Unicode Character Database (which code points are white
      space, the upper-case and lower-case mappings) is a parameter, the
      class [Unicode]; the facts of the database that the proofs use are
      stated one by one in [TextLaws] and [LowerLaws].
    - A [DataFrame] is an object: the interpreter state holds the tables at
      their addresses, [df.copy()] creates one and the in-place methods
      write to the address they are called on.  Column labels are [str] or
      [int] objects; entries are texts, numbers, booleans, [NaN] or [None].
    - Python exceptions are values of [exn]; a computation that reads and
      writes the state, prints and may raise lives in the monad [Py].
    - The table decoders of pandas, the check of its [.str] accessor, the
      object store client, the directory listing, [open] and the JSON writer
      are outside the repository: they are section variables.  pandas is
      the one of versions 1.5 and later ([DataFrame.duplicated] reads a
      frame of one column as a series). *)

From Stdlib Require Import List Bool Arith Lia ZArith NArith FunctionalExtensionality.
From Stdlib.Strings Require Import Byte.
From Equations Require Import Equations.
From Equations.Prop Require Import Logic.
From stdpp Require Import base option list sorting gmap.
Import ListNotations.

Local Open Scope list_scope.

(** * Part I: the embedding *)

(** ** Python [str] *)

(** A code point, and a [str]: the sequence of its code points. *)
Definition code : Type := N.
Definition str : Type := list code.

#[global] Typeclasses Transparent code str.

(** The literal ["abc"] is the [str] of the code points of its characters,
    which are ASCII. *)
Inductive literal : Set :=
| lit_nil
| lit_cons (c : N) (s : literal).

Fixpoint literal_of_bytes (bs : list Byte.byte) : option literal :=
  match bs with
  | [] => Some lit_nil
  | b :: bs' =>
      let n := Byte.to_N b in
      if (n <? 128)%N then
        match literal_of_bytes bs' with
        | Some l => Some (lit_cons n l)
        | None => None
        end
      else None
  end.

Fixpoint bytes_of_literal (l : literal) : option (list Byte.byte) :=
  match l with
  | lit_nil => Some []
  | lit_cons n l' =>
      match Byte.of_N n, bytes_of_literal l' with
      | Some b, Some bs => if (n <? 128)%N then Some (b :: bs) else None
      | _, _ => None
      end
  end.

Declare Scope str_scope.
Delimit Scope str_scope with str.
Bind Scope str_scope with str.
#[warnings="-via-type-remapping,-via-type-mismatch"]
String Notation str literal_of_bytes bytes_of_literal
  (via literal mapping [[nil] => lit_nil, [cons] => lit_cons]) : str_scope.
Open Scope str_scope.

(** The code points the code names. *)
Definition SPACE : code := 32%N.
Definition LPAR : code := 40%N.
Definition RPAR : code := 41%N.
Definition DOT : code := 46%N.
Definition SLASH : code := 47%N.
Definition UNDERSCORE : code := 95%N.
(** GREEK CAPITAL LETTER SIGMA, SMALL LETTER SIGMA, SMALL LETTER FINAL SIGMA *)
Definition SIGMA : code := 0x3A3%N.
Definition SMALL_SIGMA : code := 0x3C3%N.
Definition FINAL_SIGMA : code := 0x3C2%N.

(** [s1 <= s2] on [str]: by code points, the first difference decides. *)
Fixpoint str_le (s t : str) : bool :=
  match s, t with
  | [], _ => true
  | _ :: _, [] => false
  | a :: s', b :: t' =>
      if (a <? b)%N then true else if (b <? a)%N then false else str_le s' t'
  end.

(** ** The Unicode Character Database, as Python reads it *)

(** - [isspace c]: [c] is white space ([str.isspace], [str.strip],
      [str.split] and [\s] of [re] all ask this one question);
    - [upper_of c], [lower_of c]: the full upper-case and lower-case mappings
      of [c], one code point or several;
    - [final_sigma s i]: the capital sigma at position [i] of [s] stands at
      the end of a word (the one rule of [str.lower] that looks around);
    - [isupper c]: [c] is an upper-case letter. *)
Class Unicode : Type := {
  isspace : code -> bool;
  upper_of : code -> str;
  lower_of : code -> str;
  final_sigma : str -> nat -> bool;
  isupper : code -> bool
}.

(** The same on the ASCII characters, where they are these. *)
Definition ascii_isspace (c : code) : bool :=
  ((9 <=? c) && (c <=? 13) || (28 <=? c) && (c <=? 32))%N.

Definition ascii_upper (c : code) : code :=
  if ((97 <=? c) && (c <=? 122))%N then (c - 32)%N else c.

Definition ascii_lower (c : code) : code :=
  if ((65 <=? c) && (c <=? 90))%N then (c + 32)%N else c.

Definition ascii_isupper (c : code) : bool := ((65 <=? c) && (c <=? 90))%N.

(** What the proofs use of white space and of the upper-case mapping.  Each
    line is a fact of the database, true of every code point:
    - on the ASCII characters the two are the familiar ones;
    - white space has no case;
    - the upper case of what is not white space is not empty and holds no
      white space;
    - a parenthesis comes from nothing but itself;
    - what the mapping gives, it leaves as it is. *)
Class TextLaws (U : Unicode) : Prop := {
  isspace_ascii : forall c, (c < 128)%N -> isspace c = ascii_isspace c;
  upper_ascii : forall c, (c < 128)%N -> upper_of c = [ascii_upper c];
  upper_space : forall c, isspace c = true -> upper_of c = [c];
  upper_nonspace : forall c, isspace c = false ->
    upper_of c <> [] /\ Forall (fun d => isspace d = false) (upper_of c);
  upper_paren : forall c d, d ∈ upper_of c -> d = LPAR \/ d = RPAR -> c = d;
  upper_fixed : forall c d, d ∈ upper_of c -> upper_of d = [d]
}.

(** What the proofs use of the lower-case mapping, in the same way:
    - on the ASCII characters it is the familiar one;
    - the lower case of what is not white space is not empty and holds no
      white space;
    - what the mapping gives, it leaves as it is;
    - the capital sigma becomes the small one, the final sigma stays, and
      neither is white space. *)
Class LowerLaws (U : Unicode) : Prop := {
  lower_ascii : forall c, (c < 128)%N -> lower_of c = [ascii_lower c];
  lower_nonspace : forall c, isspace c = false ->
    lower_of c <> [] /\ Forall (fun d => isspace d = false) (lower_of c);
  lower_fixed : forall c d, d ∈ lower_of c -> lower_of d = [d];
  lower_sigma : lower_of SIGMA = [SMALL_SIGMA];
  lower_final_sigma : lower_of FINAL_SIGMA = [FINAL_SIGMA];
  sigma_nonspace : isspace SIGMA = false;
  final_sigma_nonspace : isspace FINAL_SIGMA = false
}.

(** A small database: Unicode on the ASCII characters and on the few others
    listed here; every other code point has no case and is not white space,
    and no capital sigma stands at the end of a word.
    - white space: the 29 code points of Unicode;
    - U+00E9 and U+00C9, the letter e with acute, small and capital;
    - U+00DF, the sharp s, whose upper case is [SS];
    - U+03A3, U+03C3, U+03C2, the sigmas;
    - U+2102, the double-struck capital C: an upper-case letter with no
      lower case;
    - U+0138, the small letter kra: a lower-case letter with no upper
      case. *)
Definition basic_isspace (c : code) : bool :=
  (ascii_isspace c
   || (c =? 0x85) || (c =? 0xA0) || (c =? 0x1680)
   || (0x2000 <=? c) && (c <=? 0x200A)
   || (c =? 0x2028) || (c =? 0x2029) || (c =? 0x202F) || (c =? 0x205F) || (c =? 0x3000))%N.

Definition basic_upper_of (c : code) : str :=
  if (c <? 128)%N then [ascii_upper c]
  else if (c =? 0xE9)%N then [0xC9%N]
  else if (c =? 0xDF)%N then "SS"
  else if (c =? 0x3C3)%N || (c =? 0x3C2)%N then [SIGMA]
  else [c].

Definition basic_lower_of (c : code) : str :=
  if (c <? 128)%N then [ascii_lower c]
  else if (c =? 0xC9)%N then [0xE9%N]
  else if (c =? 0x3A3)%N then [SMALL_SIGMA]
  else [c].

Definition basic_isupper (c : code) : bool :=
  (ascii_isupper c || (c =? 0xC9) || (c =? 0x3A3) || (c =? 0x2102))%N.

Definition basic : Unicode :=
  {| isspace := basic_isspace;
     upper_of := basic_upper_of;
     lower_of := basic_lower_of;
     final_sigma := fun _ _ => false;
     isupper := basic_isupper |}.

(** A database with its ASCII part written out (white space and upper
    case, and the lower case too in the second): by the laws it is the
    database itself, and on ASCII texts it computes. *)
Definition on_ascii_text (U : Unicode) : Unicode :=
  {| isspace := fun c => if (c <? 128)%N then ascii_isspace c else isspace c;
     upper_of := fun c => if (c <? 128)%N then [ascii_upper c] else upper_of c;
     lower_of := lower_of;
     final_sigma := final_sigma;
     isupper := isupper |}.

Definition on_ascii (U : Unicode) : Unicode :=
  {| isspace := fun c => if (c <? 128)%N then ascii_isspace c else isspace c;
     upper_of := fun c => if (c <? 128)%N then [ascii_upper c] else upper_of c;
     lower_of := fun c => if (c <? 128)%N then [ascii_lower c] else lower_of c;
     final_sigma := final_sigma;
     isupper := isupper |}.

(** ** The [str] methods and the regular expression the code uses *)

Section Text.

Context {U : Unicode}.

(** [s.upper()]: code point by code point. *)
Definition str_upper (s : str) : str := flat_map upper_of s.

(** [s.lower()]: code point by code point, but for the capital sigma, which
    becomes the final sigma at the end of a word. *)
Definition lower_at (s : str) (i : nat) (c : code) : str :=
  if (c =? SIGMA)%N then [if final_sigma s i then FINAL_SIGMA else SMALL_SIGMA]
  else lower_of c.

Definition str_lower (s : str) : str := concat (imap (lower_at s) s).

(** [s.lstrip()], [s.rstrip()], [s.strip()] *)
Fixpoint str_lstrip (s : str) : str :=
  match s with
  | c :: s' => if isspace c then str_lstrip s' else s
  | [] => []
  end.

Definition str_rstrip (s : str) : str := rev (str_lstrip (rev s)).

Definition str_strip (s : str) : str := str_rstrip (str_lstrip s).

(** [s.split()]: the maximal runs of code points that are not white space.
    [cur] is the run being read, most recent first. *)
Fixpoint split_ws (cur : str) (s : str) : list str :=
  match s with
  | [] => match cur with [] => [] | _ => [rev cur] end
  | c :: s' =>
      if isspace c
      then match cur with
           | [] => split_ws [] s'
           | _ => rev cur :: split_ws [] s'
           end
      else split_ws (c :: cur) s'
  end.

Definition str_split (s : str) : list str := split_ws [] s.

(** The text after the first [")"], when there is one: what is left once
    [[^)]*\)] has matched. *)
Fixpoint after_close (s : str) : option str :=
  match s with
  | [] => None
  | c :: s' => if (c =? RPAR)%N then Some s' else after_close s'
  end.

(** A match of [\s*\([^)]*\)] at the start of [s], as what follows it.
    [\s*] is greedy and what follows it must be ["("], so it takes the whole
    run of white space; [[^)]*] stops at the first [")"]. *)
Definition match_paren (s : str) : option str :=
  match str_lstrip s with
  | c :: r => if (c =? LPAR)%N then after_close r else None
  | [] => None
  end.

(** The scan of [re.sub] goes on with a shorter text after a match. *)
Lemma str_lstrip_length s : length (str_lstrip s) <= length s.
Proof.
  induction s as [|c s IH]; simpl; [lia|].
  destruct (isspace c); simpl; lia.
Qed.

Lemma after_close_length s r : after_close s = Some r -> length r < length s.
Proof.
  revert r; induction s as [|c s IH]; simpl; intros r H; [discriminate|].
  destruct (c =? RPAR)%N.
  - injection H as <-. lia.
  - specialize (IH _ H). lia.
Qed.

Lemma match_paren_length s r : match_paren s = Some r -> length r < length s.
Proof.
  unfold match_paren. intros H.
  pose proof (str_lstrip_length s) as Hl.
  destruct (str_lstrip s) as [|c t]; [discriminate|].
  destruct (c =? LPAR)%N; [|discriminate].
  apply after_close_length in H. simpl in Hl. lia.
Qed.

(** [re.sub(r'\s*\([^)]*\)', '', s)]: the leftmost match is deleted and the
    scan goes on after it; where nothing matches one code point is kept. *)
Equations? re_sub_paren (s : str) : str by wf (length s) lt :=
  re_sub_paren s with inspect (match_paren s) := {
    | exist _ (Some r) Hm => re_sub_paren r
    | exist _ None _ with s := {
        | [] => []
        | c :: s' => c :: re_sub_paren s' } }.
Proof.
  - now apply match_paren_length.
  - simpl. lia.
Qed.

(** [sep.join(words)] *)
Fixpoint str_join (sep : str) (words : list str) : str :=
  match words with
  | [] => []
  | [w] => w
  | w :: ws => w ++ sep ++ str_join sep ws
  end.

(** [s.replace(old, new)] for one-character [old] and [new] *)
Definition str_replace (old new : code) (s : str) : str :=
  map (fun c => if (c =? old)%N then new else c) s.

(** [s.endswith(suffix)] *)
Definition str_endswith (s suffix : str) : bool := bool_decide (suffix `suffix_of` s).

(** ['.' in s] *)
Definition str_contains (c : code) (s : str) : bool := bool_decide (c ∈ s).

(** What the three comprehensions of [_clean_column_names] do to one name:
    the NameTransformer. *)
Definition transform (name : str) : str :=
  let col := str_join " " (str_split (str_strip name)) in
  let col := re_sub_paren col in
  str_replace SPACE UNDERSCORE (str_strip (str_upper col)).

(** The first and the last comprehension of [_clean_column_names], on one
    name. *)
Definition collapse (s : str) : str := str_join " " (str_split (str_strip s)).

Definition snake (s : str) : str := str_replace SPACE UNDERSCORE (str_strip (str_upper s)).

(** *** Shapes of texts *)

(** [noblank s]: no code point of [s] is white space. *)
Definition noblank (s : str) : Prop := Forall (fun c => isspace c = false) s.

(** [blank s]: [s] is white space throughout. *)
Definition blank (s : str) : Prop := Forall (fun c => isspace c = true) s.

(** The only white space of [s] is the space character. *)
Definition blank_is_space (s : str) : Prop :=
  Forall (fun c => isspace c = true -> c = SPACE) s.

(** [closes s]: a [")"] occurs in [s]. *)
Definition closes (s : str) : bool := existsb (fun c => (c =? RPAR)%N) s.

(** [has_span s]: some ["("] of [s] has a [")"] after it. *)
Fixpoint has_span (s : str) : bool :=
  match s with
  | [] => false
  | c :: s' => ((c =? LPAR)%N && closes s') || has_span s'
  end.

(** [dangling s]: some ["("] of [s] has no [")"] after it. *)
Fixpoint dangling (s : str) : bool :=
  match s with
  | [] => false
  | c :: s' => ((c =? LPAR)%N && negb (closes s')) || dangling s'
  end.

(** [a] does not end, [s] does not start, with white space. *)
Definition no_trailing_blank (a : str) : Prop :=
  forall p c, a = p ++ [c] -> isspace c = false.

Definition no_leading_blank (s : str) : Prop :=
  forall c r, s = c :: r -> isspace c = false.

(** [trimmed s]: [s] neither starts nor ends with white space. *)
Definition trimmed (s : str) : Prop := no_leading_blank s /\ no_trailing_blank s.

(** A word of a name: not empty, no white space. *)
Definition word (w : str) : Prop := w <> [] /\ noblank w.

(** [' '.join(s.split())] read from left to right, after a word: a run of
    white space ([gap]: one has been read) becomes one space when a word
    follows, and nothing at the end. *)
Fixpoint squeeze (gap : bool) (s : str) : str :=
  match s with
  | [] => []
  | c :: s' =>
      if isspace c then squeeze true s'
      else (if gap then [SPACE] else []) ++ c :: squeeze false s'
  end.

(** Whether the reading of [s] ends in a run of white space. *)
Definition gap_after (gap : bool) (s : str) : bool :=
  fold_left (fun _ c => isspace c) s gap.

End Text.

(** ** Python values and computations *)

(** The exceptions that occur; every one is a subclass of [Exception].
    [LibraryError] stands for whatever pandas, boto3 or the file system
    raise ([ParserError], [ClientError], [KeyError], [OSError], ...). *)
Inductive exn : Type :=
| AttributeError (msg : str)
| ValueError (msg : str)
| IndexError (msg : str)
| LibraryError (msg : str).

(** [str(e)] *)
Definition exn_str (e : exn) : str :=
  match e with
  | AttributeError msg | ValueError msg | IndexError msg | LibraryError msg => msg
  end.

Inductive result (A : Type) : Type :=
| Ok (a : A)
| Raise (e : exn).
Arguments Ok {A} a.
Arguments Raise {A} e.

(** ** Tables *)

(** Column types as pandas infers them; [D_object] is the type of text and
    of mixed columns. *)
Inductive dtype : Type := D_object | D_int64 | D_float64 | D_bool | D_datetime64.

(** The entries of a table.  [VNaN] and [None] are the two missing values
    an object column can hold.  Numbers are only copied and compared by
    this code, so integers stand for them. *)
Inductive value : Type :=
| VStr (s : str)
| VInt (z : Z)
| VBool (b : bool)
| VNaN
| VNone.

(** A column label: a [str], or an [int] (a table decoded without a header
    has the labels 0, 1, ...). *)
Inductive label : Type :=
| LStr (s : str)
| LInt (z : Z).

Global Instance dtype_eq_dec : EqDecision dtype.
Proof. solve_decision. Defined.

Global Instance value_eq_dec : EqDecision value.
Proof. solve_decision. Defined.

Global Instance label_eq_dec : EqDecision label.
Proof. solve_decision. Defined.

(** A [DataFrame]: the labelled, typed columns in order and the rows, each
    with its index label and its cells in column order. *)
Record DataFrame : Type := mkDataFrame {
  columns : list (label * dtype);
  rows : list (Z * list value)
}.

Definition labels (d : DataFrame) : list label := map fst (columns d).
Definition index (d : DataFrame) : list Z := map fst (rows d).
Definition cells (d : DataFrame) : list (list value) := map snd (rows d).

(** [len(df)] *)
Definition row_count (d : DataFrame) : nat := length (rows d).

(** [df.empty]: one of the two axes has length zero. *)
Definition df_empty (d : DataFrame) : bool :=
  match columns d, rows d with
  | [], _ | _, [] => true
  | _, _ => false
  end.

(** [df.select_dtypes(include=['object']).columns] *)
Definition object_labels (d : DataFrame) : list label :=
  map fst (filter (fun c => bool_decide (snd c = D_object)) (columns d)).

(** The positions of the columns labelled [col]. *)
Definition positions (col : label) (d : DataFrame) : list nat :=
  filter (fun j => bool_decide (fst <$> columns d !! j = Some col))
         (seq 0 (length (columns d))).

(** What [df[col]] is: the column when one column has that label, a frame
    of the columns of that label when several have it. *)
Inductive selection : Type :=
| Series (vals : list value)
| Frame.

Definition column_values (j : nat) (d : DataFrame) : list value :=
  map (fun r => nth j (snd r) VNaN) (rows d).

Definition getitem (d : DataFrame) (col : label) : option selection :=
  match positions col d with
  | [] => None
  | [j] => Some (Series (column_values j d))
  | _ => Some Frame
  end.

(** [df[col] = vals], for a series on the index of [df]: the value of each
    row goes to every column labelled [col]. *)
Definition setitem (d : DataFrame) (col : label) (vals : list value) : DataFrame :=
  {| columns := columns d;
     rows := zip_with
               (fun r v => (fst r, foldr (fun j cs => <[j := v]> cs) (snd r) (positions col d)))
               (rows d) vals |}.

(** [df.duplicated()]: a row is marked when an earlier row has the same
    keys.  [seen] holds the keys of the rows read so far. *)
Fixpoint duplicated_from (seen rs : list (list value)) : list bool :=
  match rs with
  | [] => []
  | r :: rs' => bool_decide (r ∈ seen) :: duplicated_from (r :: seen) rs'
  end.

(** What [df.duplicated()] compares of an entry.  A frame of one column is
    read as a series, whose hash table keeps [None] and [NaN] apart; in a
    frame of several columns each column is factorized, and there every
    missing value has the same code. *)
Definition cell_key (one_column : bool) (v : value) : value :=
  if one_column then v
  else match v with VNone => VNaN | _ => v end.

Definition row_key (d : DataFrame) (cs : list value) : list value :=
  map (cell_key (bool_decide (length (columns d) = 1))) cs.

Definition duplicated (d : DataFrame) : list bool :=
  duplicated_from [] (map (row_key d) (cells d)).

(** [df[~mask]] on rows *)
Fixpoint unmarked {A} (mask : list bool) (rs : list A) : list A :=
  match mask, rs with
  | m :: mask', r :: rs' => if m then unmarked mask' rs' else r :: unmarked mask' rs'
  | _, _ => []
  end.

(** [df.drop_duplicates(ignore_index=True, inplace=True)].  pandas leaves an
    empty frame as it is; otherwise the unmarked rows are kept and labelled
    0, 1, ... *)
Definition drop_duplicates (d : DataFrame) : DataFrame :=
  if df_empty d then d
  else
    let kept := unmarked (duplicated d) (cells d) in
    {| columns := columns d;
       rows := zip (seqZ 0 (Z.of_nat (length kept))) kept |}.

(** [df.columns = names], for as many names as columns. *)
Definition set_labels (d : DataFrame) (names : list label) : DataFrame :=
  {| columns := zip names (map snd (columns d)); rows := rows d |}.

(** ** The interpreter state: the objects, the console, the files written *)

Record state : Type := mkState {
  heap : gmap positive DataFrame;
  stdout : list str;
  files : list (str * str)
}.

Definition set_heap (h : gmap positive DataFrame) (st : state) : state :=
  {| heap := h; stdout := stdout st; files := files st |}.

Definition Py (A : Type) : Type := state -> result A * state.

Definition ret {A} (a : A) : Py A := fun st => (Ok a, st).

Definition bind {A B} (m : Py A) (f : A -> Py B) : Py B := fun st =>
  match m st with
  | (Ok a, st') => f a st'
  | (Raise e, st') => (Raise e, st')
  end.

Declare Scope py_scope.
Delimit Scope py_scope with py.
Bind Scope py_scope with Py.
Notation "x ← y ; z" := (bind y (fun x => z))
  (at level 20, y at level 100, z at level 200, only parsing) : py_scope.
Notation "x ;; z" := (bind x (fun _ => z))
  (at level 100, z at level 200, only parsing, right associativity) : py_scope.
Local Open Scope py_scope.

Definition raise {A} (e : exn) : Py A := fun st => (Raise e, st).

(** [try: body  except Exception as e: handler e] *)
Definition try_except {A} (body : Py A) (handler : exn -> Py A) : Py A := fun st =>
  match body st with
  | (Ok a, st') => (Ok a, st')
  | (Raise e, st') => handler e st'
  end.

(** [print(line)] *)
Definition print (line : str) : Py unit := fun st =>
  (Ok tt, {| heap := heap st; stdout := stdout st ++ [line]; files := files st |}).

(** [for x in xs: body] for a body that updates the local [acc]. *)
Fixpoint for_in {A S} (xs : list A) (acc : S) (body : A -> S -> Py S) : Py S :=
  match xs with
  | [] => ret acc
  | x :: xs' => acc' ← body x acc; for_in xs' acc' body
  end.

(** [[f x for x in xs]] *)
Fixpoint comprehension {A B} (f : A -> Py B) (xs : list A) : Py (list B) :=
  match xs with
  | [] => ret []
  | x :: xs' => y ← f x; ys ← comprehension f xs'; ret (y :: ys)
  end.

(** [l[i]] on a list *)
Definition list_getitem {A} (l : list A) (i : nat) : Py A :=
  match l !! i with
  | Some x => ret x
  | None => raise (IndexError "list index out of range")
  end.

(** Objects: reading, writing in place, creating. *)
Definition load (df : positive) : Py DataFrame := fun st =>
  match heap st !! df with
  | Some d => (Ok d, st)
  | None => (Raise (LibraryError "no such object"), st)
  end.

Definition store (df : positive) (d : DataFrame) : Py unit := fun st =>
  (Ok tt, set_heap (<[df := d]> (heap st)) st).

Definition alloc (d : DataFrame) : Py positive := fun st =>
  let df := fresh (dom (heap st)) in
  (Ok df, set_heap (<[df := d]> (heap st)) st).

(** What a library call answers becomes the outcome of the computation. *)
Definition external {A} (r : result A) : Py A :=
  match r with
  | Ok a => ret a
  | Raise e => raise e
  end.

(** ** Dictionaries, in insertion order *)

(** [d[k] = v]: the entry of [k] is overwritten where it stands, a new key
    comes last. *)
Fixpoint dict_setitem {K V} `{EqDecision K} (k : K) (v : V) (d : list (K * V))
  : list (K * V) :=
  match d with
  | [] => [(k, v)]
  | (k', v') :: d' =>
      if decide (k' = k) then (k, v) :: d' else (k', v') :: dict_setitem k v d'
  end.

Fixpoint dict_get {K V} `{EqDecision K} (k : K) (d : list (K * V)) : option V :=
  match d with
  | [] => None
  | (k', v') :: d' => if decide (k' = k) then Some v' else dict_get k d'
  end.

(** ** Strings and paths as the wranglers use them *)

(** [s] cut at the first [sep]: what is before and what is after. *)
Fixpoint break_at (sep : code) (s : str) : option (str * str) :=
  match s with
  | [] => None
  | c :: s' =>
      if (c =? sep)%N then Some ([], s')
      else match break_at sep s' with
           | Some (a, b) => Some (c :: a, b)
           | None => None
           end
  end.

(** [s.rsplit('.', 1)] *)
Definition str_rsplit1 (sep : code) (s : str) : list str :=
  match break_at sep (rev s) with
  | Some (a, b) => [rev b; rev a]
  | None => [s]
  end.

(** [re.split(r"[./]+", s)]: the pieces between the runs of dots and
    slashes; a run at either end leaves an empty piece there. *)
Fixpoint re_split_runs (cur : str) (in_run : bool) (s : str) : list str :=
  match s with
  | [] => [rev cur]
  | c :: s' =>
      if (c =? DOT)%N || (c =? SLASH)%N
      then if in_run then re_split_runs [] true s'
           else rev cur :: re_split_runs [] true s'
      else re_split_runs (c :: cur) false s'
  end.

Definition re_split_dot_slash (s : str) : list str := re_split_runs [] false s.

(** [sorted(xs)] by the order [le] on keys (insertion keeps equal keys in
    their order). *)
Fixpoint insort {A} (le : A -> A -> bool) (x : A) (l : list A) : list A :=
  match l with
  | [] => [x]
  | y :: l' => if le x y then x :: y :: l' else y :: insort le x l'
  end.

Definition sorted {A} (le : A -> A -> bool) (l : list A) : list A :=
  foldr (insort le) [] l.

(** A [pathlib.PosixPath] below the directory of the wrangler. *)
Record PosixPath : Type := mkPath { path_parent : str; path_name : str }.

(** [path.stem]: the name without its last suffix. *)
Definition path_stem (p : PosixPath) : str :=
  match break_at DOT (rev (path_name p)) with
  | Some (a :: a', b :: b') => rev (b :: b')
  | _ => path_name p
  end.

(** Paths of one directory compare by name. *)
Definition path_le (p q : PosixPath) : bool := str_le (path_name p) (path_name q).

(** The two kinds of object the loops of the wranglers run over, and the
    attributes the code reads on them. *)
Inductive pyobj : Type :=
| PyStr (s : str)
| PyPath (p : PosixPath).

Definition type_name (o : pyobj) : str :=
  match o with PyStr _ => "str" | PyPath _ => "PosixPath" end.

Definition no_attribute (o : pyobj) (attr : str) : exn :=
  AttributeError ("'" ++ type_name o ++ "' object has no attribute '" ++ attr ++ "'").

(** [o.endswith(suffix)]: a method of [str], not of a path. *)
Definition meth_endswith (o : pyobj) (suffix : str) : Py bool :=
  match o with
  | PyStr s => ret (str_endswith s suffix)
  | PyPath _ => raise (no_attribute o "endswith")
  end.

(** [o.name] and [o.stem]: attributes of a path, not of [str]. *)
Definition attr_name (o : pyobj) : Py str :=
  match o with
  | PyPath p => ret (path_name p)
  | PyStr _ => raise (no_attribute o "name")
  end.

Definition attr_stem (o : pyobj) : Py str :=
  match o with
  | PyPath p => ret (path_stem p)
  | PyStr _ => raise (no_attribute o "stem")
  end.

(** The content of an object of the store: bytes. *)
Definition bytes : Type := list N.

(** Where a decoder reads from: a path, or [BytesIO(body)]. *)
Inductive source : Type :=
| FromPath (p : PosixPath)
| FromBytes (body : bytes).

(** A decoded table becomes a new object. *)
Definition decoded (r : result DataFrame) : Py positive :=
  match r with
  | Ok d => alloc d
  | Raise e => raise e
  end.

(** ** The two wranglers *)

Section Wranglers.

Context {U : Unicode}.

(** [Series.str.strip()] and [Series.str.lower()] on an object column: a
    text entry is rewritten, a missing one ([NaN], [None]) stays as it is,
    and any other entry gives [NaN]. *)
Definition strip_value (v : value) : value :=
  match v with
  | VStr s => VStr (str_strip s)
  | VNone => VNone
  | _ => VNaN
  end.

Definition lower_value (v : value) : value :=
  match v with
  | VStr s => VStr (str_lower s)
  | VNone => VNone
  | _ => VNaN
  end.

(** What lies outside the repository.
    - [str_accepts]: the check [Series.str] makes before it gives access to
      the text methods (pandas infers the kind of the entries and refuses a
      series that holds no text).
    - [read_csv], [read_json], [read_parquet]: the pandas decoders.
    - [listdir]: the names of the entries of a directory, as the system
      lists them.
    - [list_objects_v2]: the keys of the [Contents] the boto3 client lists
      for a bucket and a prefix (none when the answer has no [Contents]).
    - [s3_get_object]: [get_object(...)['Body'].read()] of the client. *)
Variable str_accepts : list value -> bool.
Variable read_csv : source -> option (list (str * dtype)) -> result DataFrame.
Variable read_json : source -> result DataFrame.
Variable read_parquet : source -> result DataFrame.
Variable listdir : str -> list str.
Variable list_objects_v2 : str -> str -> result (list str).
Variable s3_get_object : str -> str -> result bytes.

(** [df.copy()] *)
Definition df_copy (df : positive) : Py positive := d ← load df; alloc d.

(** [df[col]] *)
Definition df_getitem (df : positive) (col : label) : Py selection :=
  d ← load df;
  match getitem d col with
  | Some s => ret s
  | None => raise (LibraryError "KeyError")
  end.

(** [s.str]: the accessor of the text methods. *)
Definition str_accessor (s : selection) : Py (list value) :=
  match s with
  | Series vals =>
      if str_accepts vals then ret vals
      else raise (AttributeError "Can only use .str accessor with string values!")
  | Frame => raise (AttributeError "'DataFrame' object has no attribute 'str'")
  end.

(** [df[col] = vals] *)
Definition df_setitem (df : positive) (col : label) (vals : list value) : Py unit :=
  d ← load df; store df (setitem d col vals).

(** [col.strip()] on a label: a method of [str], not of [int]. *)
Definition label_strip (col : label) : Py str :=
  match col with
  | LStr s => ret (str_strip s)
  | LInt _ => raise (AttributeError "'int' object has no attribute 'strip'")
  end.

(** [_clean_column_names] (the same text in both wranglers). *)
Definition _clean_column_names (columns : list label) : Py (list str) :=
  columns ← comprehension
              (fun col => s ← label_strip col; ret (str_join " " (str_split s)))
              columns;
  let columns := map (fun col => re_sub_paren col) columns in
  let columns := map (fun col => str_replace SPACE UNDERSCORE (str_strip (str_upper col)))
                     columns in
  ret columns.

(** [_clean_dataframe] (the same text in both wranglers). *)
Definition _clean_dataframe (df : positive) : Py positive :=
  df ← df_copy df;
  object_columns ← (d ← load df; ret (object_labels d));
  for_in object_columns tt (fun col _ =>
    s ← df_getitem df col;
    s ← str_accessor s;
    s ← str_accessor (Series (map strip_value s));
    df_setitem df col (map lower_value s));;
  (d ← load df; store df (drop_duplicates d));;
  (d ← load df;
   names ← _clean_column_names (labels d);
   store df (set_labels d (map LStr names)));;
  ret df.

(** *** [LocalDataWrangler] *)

Record LocalDataWrangler : Type := mkLocal {
  directory : str;
  local_dtypes : option (list (str * dtype))
}.

(** [LocalDataWrangler.__init__] *)
Definition LocalDataWrangler_init (directory : str) (dtypes : option (list (str * dtype)))
  : LocalDataWrangler :=
  {| directory := directory; local_dtypes := dtypes |}.

(** [self.directory.glob('*.csv')] *)
Definition glob_csv (dir : str) : list PosixPath :=
  map (mkPath dir) (filter (fun n => str_endswith n ".csv") (listdir dir)).

(** [LocalDataWrangler.__call__] *)
Definition LocalDataWrangler_call (self : LocalDataWrangler) : Py (list (str * positive)) :=
  for_in (sorted path_le (glob_csv (directory self))) [] (fun file_path dfs =>
    try_except
      (df_raw ←
         (is_csv ← meth_endswith (PyPath file_path) ".csv";
          if is_csv then
            match local_dtypes self with
            | Some dt => decoded (read_csv (FromPath file_path) (Some dt))
            | None => decoded (read_csv (FromPath file_path) None)
            end
          else
            is_json ← meth_endswith (PyPath file_path) ".json";
            if is_json then decoded (read_json (FromPath file_path))
            else
              is_parquet ← meth_endswith (PyPath file_path) ".parquet";
              if is_parquet then decoded (read_parquet (FromPath file_path))
              else raise (ValueError "Unsupported file type"));
       df ← _clean_dataframe df_raw;
       stem ← attr_stem (PyPath file_path);
       ret (dict_setitem stem df dfs))
      (fun e =>
         name ← attr_name (PyPath file_path);
         print ("Error processing " ++ name ++ ": " ++ exn_str e);;
         ret dfs)).

(** [LocalDataWrangler.get_filenames] *)
Definition LocalDataWrangler_get_filenames (self : LocalDataWrangler)
  : Py (list (str * str)) :=
  filenames ← comprehension (fun file => attr_stem (PyPath file))
                 (sorted path_le (glob_csv (directory self)));
  df_names ← comprehension
                 (fun file => part ← list_getitem (str_rsplit1 DOT file) 1;
                              ret (str_lower part))
                 filenames;
  ret (zip df_names filenames).

(** *** [s3DataWrangler] *)

Record s3DataWrangler : Type := mkS3 {
  bucket_name : str;
  prefix : str;
  s3_dtypes : option (list (str * dtype));
  file_keys : list str
}.

(** [s3DataWrangler.__init__].  The client checks its arguments before it
    sends a request: with the default [prefix=None] it refuses [Prefix],
    which must be a [str], and the constructor raises. *)
Definition s3DataWrangler_init (bucket_name : str) (prefix : option str)
    (dtypes : option (list (str * dtype))) : result s3DataWrangler :=
  match prefix with
  | None => Raise (LibraryError "Parameter validation failed: Invalid type for parameter Prefix")
  | Some prefix =>
      match list_objects_v2 bucket_name prefix with
      | Raise e => Raise e
      | Ok object_contents =>
          let list_of_file_keys :=
            fold_left (fun keys key => keys ++ [key]) object_contents [] in
          Ok {| bucket_name := bucket_name; prefix := prefix; s3_dtypes := dtypes;
                file_keys := filter (fun e => str_contains DOT e) list_of_file_keys |}
      end
  end.

(** [s3DataWrangler.__call__].  ([self.obj] and [self.body] are scratch
    attributes that nothing reads afterwards; they are the local [body]
    here.) *)
Definition s3DataWrangler_call (self : s3DataWrangler) : Py (list (str * positive)) :=
  for_in (sorted str_le (file_keys self)) [] (fun file_key dfs =>
    try_except
      (body ← external (s3_get_object (bucket_name self) file_key);
       df_raw ←
         (is_csv ← meth_endswith (PyStr file_key) ".csv";
          if is_csv then
            match s3_dtypes self with
            | Some dt => decoded (read_csv (FromBytes body) (Some dt))
            | None => decoded (read_csv (FromBytes body) None)
            end
          else
            is_json ← meth_endswith (PyStr file_key) ".json";
            if is_json then decoded (read_json (FromBytes body))
            else
              is_parquet ← meth_endswith (PyStr file_key) ".parquet";
              if is_parquet then decoded (read_parquet (FromBytes body))
              else raise (ValueError "Unsupported file type"));
       df ← _clean_dataframe df_raw;
       let dfs := dict_setitem file_key df dfs in
       print file_key;;
       ret dfs)
      (fun e =>
         name ← attr_name (PyStr file_key);
         print ("Error processing " ++ name ++ ": " ++ exn_str e);;
         ret dfs)).

(** [s3DataWrangler.get_filenames] *)
Definition s3DataWrangler_get_filenames (self : s3DataWrangler)
  : Py (list (str * str)) :=
  let filenames := file_keys self in
  df_names ← comprehension
                 (fun file => list_getitem (re_split_dot_slash file) 2)
                 filenames;
  ret (zip df_names filenames).

End Wranglers.

(** ** The schema generator *)

(** The Python values [__call__] hands to [json.dumps]: texts, the labels
    that are numbers, lists, and dictionaries keyed by [str] or [int]. *)
Unset Elimination Schemes.
Inductive json : Type :=
| JString (s : str)
| JInt (z : Z)
| JArray (items : list json)
| JObject (fields : list (label * json)).
Set Elimination Schemes.

(** A label as an element of a list. *)
Definition json_of_label (l : label) : json :=
  match l with LStr s => JString s | LInt z => JInt z end.

Section Schema.

(** [json.dumps(schema, indent=4)], the writer of the standard library, and
    [open(path, 'w')]: whether the file system lets the file be opened for
    writing, and what it raises when not. *)
Variable json_dumps : json -> str.
Variable open_w : str -> result unit.

(** [with open(path, 'w') as file: file.write(content)] *)
Definition write_file (path content : str) : Py unit :=
  external (open_w path);;
  fun st =>
    (Ok tt, {| heap := heap st; stdout := stdout st;
               files := (path, content)
                        :: filter (fun f => negb (bool_decide (fst f = path))) (files st) |}).

Record SchemaGenerator : Type := mkSchemaGenerator {
  features : list label;
  filepath : str
}.

(** [SchemaGenerator.__init__]: the labels of the feature matrix. *)
Definition SchemaGenerator_init (X : DataFrame) (path : str) : SchemaGenerator :=
  {| features := labels X; filepath := path |}.

(** [schema["properties"][feature] = prop] *)
Definition set_property (schema : list (label * json)) (feature : label) (prop : json)
  : list (label * json) :=
  match dict_get (LStr "properties") schema with
  | Some (JObject props) =>
      dict_setitem (LStr "properties") (JObject (dict_setitem feature prop props)) schema
  | _ => schema
  end.

(** The dictionary [__call__] builds before it writes it. *)
Definition build_schema (self : SchemaGenerator) : list (label * json) :=
  let schema :=
    [ (LStr "$schema", JString "http://json-schema.org/draft-07/schema#");
      (LStr "title", JString "Generated schema for Root");
      (LStr "type", JString "object");
      (LStr "properties", JObject []);
      (LStr "required", JArray (map json_of_label (features self))) ] in
  fold_left
    (fun schema feature =>
       set_property schema feature (JObject [(LStr "type", JString "number")]))
    (features self) schema.

(** [SchemaGenerator.__call__] *)
Definition SchemaGenerator_call (self : SchemaGenerator) : Py unit :=
  let schema := build_schema self in
  let json_schema := json_dumps (JObject schema) in
  write_file (filepath self) json_schema;;
  print ("JSON schema has been saved to " ++ filepath self).

End Schema.

(** ** Descriptions the statements use *)

(** *** The schema *)

(** The dictionary of [__call__] with the properties [props] filled in. *)
Definition schema_with (required : list label) (props : list (label * json))
  : list (label * json) :=
  [ (LStr "$schema", JString "http://json-schema.org/draft-07/schema#");
    (LStr "title", JString "Generated schema for Root");
    (LStr "type", JString "object");
    (LStr "properties", JObject props);
    (LStr "required", JArray (map json_of_label required)) ].

Definition number_type : json := JObject [(LStr "type", JString "number")].

(** The keys of a dictionary after [d[k] = ...] for each [k] of [ks]. *)
Definition keys_after {K} `{EqDecision K} (ks acc : list K) : list K :=
  fold_left (fun (acc : list K) (k : K) =>
               if bool_decide (k ∈ acc) then acc else acc ++ [k]) ks acc.

(** The elements of a list at their first occurrence. *)
Definition first_seen {K} `{EqDecision K} (l : list K) : list K := keys_after l [].

(** *** Normalisation, on the table itself *)

Section Normalisation.

Context {U : Unicode}.

(** [text_value]: what the two text methods make of one entry. *)
Definition text_value (v : value) : value := lower_value (strip_value v).

(** One round of the loop of [_clean_dataframe] on the table, and the loop. *)
Definition text_step (accepts : list value -> bool) (d : DataFrame) (col : label)
  : result DataFrame :=
  match getitem d col with
  | None => Raise (LibraryError "KeyError")
  | Some Frame => Raise (AttributeError "'DataFrame' object has no attribute 'str'")
  | Some (Series s) =>
      if accepts s then
        if accepts (map strip_value s)
        then Ok (setitem d col (map lower_value (map strip_value s)))
        else Raise (AttributeError "Can only use .str accessor with string values!")
      else Raise (AttributeError "Can only use .str accessor with string values!")
  end.

Fixpoint text_loop (accepts : list value -> bool) (cols : list label) (d : DataFrame)
  : option exn * DataFrame :=
  match cols with
  | [] => (None, d)
  | col :: cols' =>
      match text_step accepts d col with
      | Ok d' => text_loop accepts cols' d'
      | Raise e => (Some e, d)
      end
  end.

(** The labels [_clean_column_names] returns on: those that are [str]. *)
Definition is_str (l : label) : bool :=
  match l with LStr _ => true | LInt _ => false end.

Definition str_labels (d : DataFrame) : Prop := Forall (fun l => is_str l = true) (labels d).

(** The new label of a column. *)
Definition rename (l : label) : label :=
  match l with LStr s => LStr (transform s) | LInt z => LInt z end.

(** What follows the loop. *)
Definition finish (d : DataFrame) : DataFrame :=
  let d := drop_duplicates d in
  set_labels d (map rename (labels d)).

(** The cells of a row after the text pass: [text_value] in the columns of
    type object, the entry itself elsewhere. *)
Fixpoint text_cells (cols : list (label * dtype)) (cs : list value) : list value :=
  match cols, cs with
  | (_, ty) :: cols', v :: cs' =>
      (if bool_decide (ty = D_object) then text_value v else v) :: text_cells cols' cs'
  | _, _ => cs
  end.

Definition text_pass (d : DataFrame) : DataFrame :=
  {| columns := columns d;
     rows := map (fun r => (fst r, text_cells (columns d) (snd r))) (rows d) |}.

(** The normalised table. *)
Definition normalized (d : DataFrame) : DataFrame := finish (text_pass d).

(** The same with the columns picked by label, as the loop has them. *)
Fixpoint label_cells (L : list label) (cols : list (label * dtype)) (cs : list value)
  : list value :=
  match cols, cs with
  | (lbl, _) :: cols', v :: cs' =>
      (if bool_decide (lbl ∈ L) then text_value v else v) :: label_cells L cols' cs'
  | _, _ => cs
  end.

(** [_clean_dataframe] returns on the table [d]: the loop over the object
    columns comes to its end, and every label is a [str]. *)
Definition cleans (accepts : list value -> bool) (d : DataFrame) : Prop :=
  fst (text_loop accepts (object_labels d) d) = None /\ str_labels d.

(** [key] can be processed: its table is decoded and normalisation returns
    on it. *)
Definition processes (accepts : list value -> bool) (table : str -> result DataFrame)
    (key : str) : Prop :=
  exists d, table key = Ok d /\ cleans accepts d.

(** What the dictionary of a run holds: for each key an object with the
    normalised table of the key. *)
Definition holds_tables (table : str -> result DataFrame)
    (dfs : list (str * positive)) (st : state) : Prop :=
  forall k l, dict_get k dfs = Some l ->
    exists d, table k = Ok d /\ heap st !! l = Some (normalized d).

End Normalisation.

(** The number of marked rows. *)
Fixpoint count_true (mask : list bool) : nat :=
  match mask with
  | [] => 0
  | true :: mask' => S (count_true mask')
  | false :: mask' => count_true mask'
  end.

(** The number of rows that are exact duplicates of an earlier row: the
    same entry in every column. *)
Definition exact_duplicates (d : DataFrame) : nat :=
  count_true (duplicated_from [] (cells d)).

(** *** Sample inputs *)

(** An accessor check for the examples: a series is accepted when it holds a
    text, or nothing but missing values. *)
Definition accepts_text (vals : list value) : bool :=
  existsb (fun v => match v with VStr _ => true | _ => false end) vals
  || forallb (fun v => match v with VNaN | VNone => true | _ => false end) vals.

(** One object column holding ["A"] and ["a"]. *)
Definition mixed_case_table : DataFrame :=
  {| columns := [(LStr "name", D_object)];
     rows := [(0%Z, [VStr "A"]); (1%Z, [VStr "a"])] |}.

(** Two rows and no column. *)
Definition no_column_table : DataFrame :=
  {| columns := []; rows := [(0%Z, []); (1%Z, [])] |}.

(** Two columns; the rows differ in the kind of their missing value. *)
Definition missing_table : DataFrame :=
  {| columns := [(LStr "name", D_object); (LStr "n", D_int64)];
     rows := [(0%Z, [VNone; VInt 1]); (1%Z, [VNaN; VInt 1])] |}.

(** One object column holding U+2102 between two spaces. *)
Definition double_struck_table : DataFrame :=
  {| columns := [(LStr "set", D_object)];
     rows := [(0%Z, [VStr (" " ++ [0x2102%N] ++ " ")])] |}.

(** A text column with white space, capitals, a number and a repeated row,
    and a column of integers.  The last text is U+00A0, U+00C9, [vry] and
    a space. *)
Definition sample_table : DataFrame :=
  {| columns := [(LStr "City (name)", D_object); (LStr "n", D_int64)];
     rows := [(10%Z, [VStr " Oslo "; VInt 1]);
              (11%Z, [VStr "oslo"; VInt 1]);
              (12%Z, [VInt 7; VInt 2]);
              (13%Z, [VStr ([0xA0%N; 0xC9%N] ++ "vry "); VInt 3])] |}.

(** Numbers only. *)
Definition number_table : DataFrame :=
  {| columns := [(LStr "n", D_int64); (LStr "ok", D_bool)];
     rows := [(5%Z, [VInt 1; VBool true]); (6%Z, [VInt 1; VBool true]);
              (7%Z, [VNaN; VBool false])] |}.

(** Two columns with one label. *)
Definition twice_named_table : DataFrame :=
  {| columns := [(LStr "name", D_object); (LStr "n", D_int64); (LStr "name", D_int64)];
     rows := [(0%Z, [VStr "a"; VInt 1; VInt 2])] |}.

(** A table decoded without a header: its labels are numbers. *)
Definition headerless_table : DataFrame :=
  {| columns := [(LInt 0, D_int64); (LInt 1, D_int64)];
     rows := [(0%Z, [VInt 1; VInt 2])] |}.

(** An interpreter that holds the one table [d], at address 1. *)
Definition state_with (d : DataFrame) : state :=
  {| heap := {[ 1%positive := d ]}; stdout := []; files := [] |}.

(** *** The console *)

(** The console after [lines] more were printed. *)
Definition printed (lines : list str) (st : state) : state :=
  {| heap := heap st; stdout := stdout st ++ lines; files := files st |}.

(** The diagnostic of [LocalDataWrangler.__call__] for the path [p]. *)
Definition local_diagnostic (p : PosixPath) : str :=
  "Error processing " ++ path_name p ++ ": 'PosixPath' object has no attribute 'endswith'".

(** *** The remote wrangler *)

(** The table [s3DataWrangler.__call__] decodes for [key]: the fetch, then
    the decoder of the extension. *)
Definition s3_table
    (read_csv : source -> option (list (str * dtype)) -> result DataFrame)
    (read_json read_parquet : source -> result DataFrame)
    (s3_get_object : str -> str -> result bytes)
    (self : s3DataWrangler) (key : str) : result DataFrame :=
  match s3_get_object (bucket_name self) key with
  | Raise e => Raise e
  | Ok body =>
      if str_endswith key ".csv" then read_csv (FromBytes body) (s3_dtypes self)
      else if str_endswith key ".json" then read_json (FromBytes body)
      else if str_endswith key ".parquet" then read_parquet (FromBytes body)
      else Raise (ValueError "Unsupported file type")
  end.

(** The exception of [col.strip()] on a label that is a number. *)
Definition int_has_no_strip : exn := AttributeError "'int' object has no attribute 'strip'".

(** The exception that leaves [s3DataWrangler.__call__]. *)
Definition str_has_no_name : exn := AttributeError "'str' object has no attribute 'name'".

(** [s] is not empty and holds neither a dot nor a slash. *)
Definition plain_part (s : str) : Prop :=
  s <> [] /\ Forall (fun c => c <> DOT /\ c <> SLASH) s.

(** [key] is [dir/sub/name.rest], two levels below the root of the bucket. *)
Definition two_levels_down (key name : str) : Prop :=
  exists dir sub rest,
    key = dir ++ "/" ++ sub ++ "/" ++ name ++ "." ++ rest /\
    plain_part dir /\ plain_part sub /\ plain_part name.

(** [key] is [name.ext], at the root of the bucket. *)
Definition at_root (key : str) : Prop :=
  exists name ext, key = name ++ "." ++ ext /\ plain_part name /\ plain_part ext.

(** * Part II: the properties *)

(** ** Facts on texts *)

Section TextFacts.

Context {U : Unicode}.

(** *** White space *)

(** The equation of the scan. *)
Lemma re_sub_paren_eq s :
  re_sub_paren s =
  match match_paren s with
  | Some r => re_sub_paren r
  | None => match s with [] => [] | c :: s' => c :: re_sub_paren s' end
  end.
Proof.
  funelim (re_sub_paren s);
    repeat match goal with H : match_paren _ = _ |- _ => rewrite H end;
    reflexivity.
Qed.

Lemma str_lstrip_split s : exists w, s = w ++ str_lstrip s /\ blank w.
Proof.
  induction s as [|c s (w & IH & Hw)]; simpl.
  - exists []. split; [reflexivity | constructor].
  - destruct (isspace c) eqn:Hc.
    + exists (c :: w). split; [simpl; congruence | now constructor].
    + exists []. split; [reflexivity | constructor].
Qed.

Lemma str_rstrip_split s : exists w, s = str_rstrip s ++ w /\ blank w.
Proof.
  unfold str_rstrip. destruct (str_lstrip_split (rev s)) as (w & Hs & Hw).
  exists (rev w). split.
  - rewrite <- rev_app_distr, <- Hs. symmetry. apply rev_involutive.
  - now apply Forall_rev.
Qed.

Lemma str_lstrip_Forall (P : code -> Prop) s : Forall P s -> Forall P (str_lstrip s).
Proof.
  destruct (str_lstrip_split s) as (w & Hs & _). intros H.
  rewrite Hs in H. now apply Forall_app in H.
Qed.

Lemma str_rstrip_Forall (P : code -> Prop) s : Forall P s -> Forall P (str_rstrip s).
Proof.
  destruct (str_rstrip_split s) as (w & Hs & _). intros H.
  rewrite Hs in H. now apply Forall_app in H.
Qed.

Lemma str_strip_Forall (P : code -> Prop) s : Forall P s -> Forall P (str_strip s).
Proof. intros H. now apply str_rstrip_Forall, str_lstrip_Forall. Qed.

Lemma str_lstrip_noblank s : noblank s -> str_lstrip s = s.
Proof. intros H. destruct H as [|c s Hc _]; simpl; [reflexivity | now rewrite Hc]. Qed.

Lemma str_rstrip_noblank s : noblank s -> str_rstrip s = s.
Proof.
  intros H. unfold str_rstrip. rewrite str_lstrip_noblank.
  - apply rev_involutive.
  - now apply Forall_rev.
Qed.

Lemma str_strip_noblank s : noblank s -> str_strip s = s.
Proof.
  intros H. unfold str_strip. rewrite (str_lstrip_noblank s H). now apply str_rstrip_noblank.
Qed.

Lemma str_lstrip_blank_app w t : blank w -> str_lstrip (w ++ t) = str_lstrip t.
Proof. induction 1 as [|c w Hc _ IH]; simpl; [reflexivity | now rewrite Hc]. Qed.

Lemma str_lstrip_app_nonempty s t :
  str_lstrip s <> [] -> str_lstrip (s ++ t) = str_lstrip s ++ t.
Proof.
  induction s as [|c s IH]; simpl; [congruence|].
  destruct (isspace c); [exact IH | reflexivity].
Qed.

Lemma str_lstrip_no_leading s : no_leading_blank (str_lstrip s).
Proof.
  induction s as [|c s IH]; simpl; [intros ? ? [=]|].
  destruct (isspace c) eqn:Hc; [exact IH|]. now intros ? ? [= <- <-].
Qed.

Lemma str_rstrip_no_trailing s : no_trailing_blank (str_rstrip s).
Proof.
  intros p c H. unfold str_rstrip in H.
  apply (f_equal (@rev code)) in H. rewrite rev_involutive, rev_app_distr in H.
  simpl in H. exact (str_lstrip_no_leading (rev s) _ _ H).
Qed.

Lemma str_rstrip_keeps_no_leading s : no_leading_blank s -> no_leading_blank (str_rstrip s).
Proof.
  intros H c r E. destruct (str_rstrip_split s) as (w & Hs & _).
  rewrite E in Hs. simpl in Hs. exact (H _ _ Hs).
Qed.

Lemma str_strip_trimmed s : trimmed (str_strip s).
Proof.
  split.
  - apply str_rstrip_keeps_no_leading, str_lstrip_no_leading.
  - apply str_rstrip_no_trailing.
Qed.

Lemma str_lstrip_id s : no_leading_blank s -> str_lstrip s = s.
Proof. destruct s as [|c s]; simpl; [reflexivity|]. intros H. now rewrite (H c s eq_refl). Qed.

Lemma str_rstrip_id s : no_trailing_blank s -> str_rstrip s = s.
Proof.
  intros H. unfold str_rstrip. rewrite str_lstrip_id; [apply rev_involutive|].
  intros c r E. apply (H (rev r)).
  rewrite <- (rev_involutive s), E. reflexivity.
Qed.

Lemma str_strip_id s : trimmed s -> str_strip s = s.
Proof. intros [H1 H2]. unfold str_strip. rewrite (str_lstrip_id s H1). now apply str_rstrip_id. Qed.

Lemma str_rstrip_fix a : str_rstrip a = a -> no_trailing_blank a.
Proof. intros <-. apply str_rstrip_no_trailing. Qed.

Lemma no_trailing_blank_suffix p r : no_trailing_blank (p ++ r) -> no_trailing_blank r.
Proof. intros H q c ->. apply (H (p ++ q)). now rewrite <- app_assoc. Qed.

Lemma no_trailing_blank_lstrip c s : no_trailing_blank (c :: s) -> str_lstrip (c :: s) <> [].
Proof.
  intros H E. destruct (str_lstrip_split (c :: s)) as (w & Hs & Hw).
  rewrite E, app_nil_r in Hs. subst w.
  destruct (exists_last (l := c :: s)) as (p & x & Hp); [discriminate|].
  pose proof (H _ _ Hp) as Hx. rewrite Hp in Hw.
  apply Forall_app in Hw as [_ Hw]. inversion Hw; subst. congruence.
Qed.

(** *** Words *)

Lemma split_ws_noblank cur s :
  noblank s ->
  split_ws cur s = match rev cur ++ s with [] => [] | w => [w] end.
Proof.
  revert cur. induction s as [|c s IH]; intros cur H; simpl.
  - rewrite app_nil_r. destruct cur as [|a cur]; [reflexivity|].
    simpl. destruct (rev cur ++ [a]) eqn:E; [|reflexivity].
    now destruct (rev cur).
  - inversion H as [|? ? Hc Hs]; subst. rewrite Hc.
    rewrite (IH (c :: cur) Hs). simpl. now rewrite <- app_assoc.
Qed.

Lemma rev_cons_nonempty {A} (a : A) l : rev (a :: l) <> [].
Proof. simpl. now destruct (rev l). Qed.

Lemma split_ws_word cur s : noblank cur -> Forall word (split_ws cur s).
Proof.
  revert cur. induction s as [|c s IH]; intros cur Hcur; simpl.
  - destruct cur as [|a cur]; constructor; [|constructor].
    split; [apply rev_cons_nonempty | now apply Forall_rev].
  - destruct (isspace c) eqn:Hc.
    + destruct cur as [|a cur]; [apply IH; constructor|].
      constructor; [|apply IH; constructor].
      split; [apply rev_cons_nonempty | now apply Forall_rev].
    + apply IH. now constructor.
Qed.

Lemma split_ws_Forall (P : code -> Prop) cur s :
  Forall P cur -> Forall P s -> Forall (Forall P) (split_ws cur s).
Proof.
  revert cur. induction s as [|c s IH]; intros cur Hcur Hs; simpl.
  - destruct cur; constructor; [now apply Forall_rev | constructor].
  - apply Forall_cons in Hs as [Hc Hs]. destruct (isspace c).
    + destruct cur; [apply IH; [constructor | exact Hs]|].
      constructor; [now apply Forall_rev | apply IH; [constructor | exact Hs]].
    + apply IH; [now constructor | exact Hs].
Qed.

Lemma str_join_Forall (P : code -> Prop) sep ws :
  Forall P sep -> Forall (Forall P) ws -> Forall P (str_join sep ws).
Proof.
  intros Hsep. induction 1 as [|w ws Hw Hws IH]; simpl; [constructor|].
  destruct ws as [|w' ws]; [exact Hw|].
  apply Forall_app. split; [exact Hw|]. apply Forall_app. now split.
Qed.

(** The white space at the ends of a text plays no part in [split]. *)
Lemma split_ws_blanks cur w :
  blank w -> split_ws cur w = match cur with [] => [] | _ => [rev cur] end.
Proof.
  intros H. revert cur. induction H as [|c w Hc _ IH]; intros cur; simpl; [reflexivity|].
  rewrite Hc. destruct cur; [exact (IH [])|]. now rewrite (IH []).
Qed.

Lemma split_ws_app_blanks s w : forall cur,
  blank w -> split_ws cur (s ++ w) = split_ws cur s.
Proof.
  induction s as [|c s IH]; intros cur Hw; simpl.
  - now apply split_ws_blanks.
  - destruct (isspace c); [destruct cur|]; now rewrite IH.
Qed.

Lemma str_split_lstrip s : str_split (str_lstrip s) = str_split s.
Proof.
  unfold str_split. induction s as [|c s IH]; simpl; [reflexivity|].
  destruct (isspace c) eqn:Hc; [exact IH|]. simpl. now rewrite Hc.
Qed.

Lemma str_split_strip s : str_split (str_strip s) = str_split s.
Proof.
  unfold str_strip. rewrite <- (str_split_lstrip s).
  destruct (str_rstrip_split (str_lstrip s)) as (w & Hs & Hw).
  rewrite Hs at 2. unfold str_split. now rewrite split_ws_app_blanks.
Qed.

Lemma str_join_nonempty sep w ws : word w -> str_join sep (w :: ws) <> [].
Proof.
  intros [Hne _]. simpl. destruct ws; [exact Hne|].
  destruct w; [contradiction | discriminate].
Qed.

Lemma str_join_trimmed sep ws : Forall word ws -> trimmed (str_join sep ws).
Proof.
  intros H. split.
  - destruct H as [|w ws [Hne Hw] _]; simpl; [intros ? ? [=]|].
    intros c r E. destruct w as [|a w]; [contradiction|].
    apply Forall_cons in Hw as [Ha _].
    destruct ws; simpl in E; injection E as <- _; exact Ha.
  - induction H as [|w ws Hw Hws IH]; simpl; [intros [|? ?] ? [=]|].
    destruct ws as [|w' ws].
    + intros p c E. destruct Hw as [_ Hw]. rewrite E in Hw.
      apply Forall_app in Hw as [_ Hw]. now apply Forall_cons in Hw as [Hc _].
    + intros p c E. apply Forall_cons in Hws as [Hw' Hws].
      pose proof (str_join_nonempty sep w' ws Hw') as Hne.
      destruct (exists_last Hne) as (q & x & Eq).
      apply (IH q x) in Eq as Hx. rewrite Eq in E.
      assert (E' : (w ++ sep ++ q) ++ [x] = p ++ [c]).
      { rewrite <- E, <- !app_assoc. reflexivity. }
      apply app_inj_tail in E' as [_ <-]. exact Hx.
Qed.

Lemma str_join_blank_is_space words :
  Forall noblank words -> blank_is_space (str_join " " words).
Proof.
  induction 1 as [|w ws Hw Hws IH]; simpl; [constructor|].
  assert (Hb : blank_is_space w).
  { eapply Forall_impl; [exact Hw|]. simpl. intros c H1 H2. congruence. }
  destruct ws as [|w' ws]; [exact Hb|].
  apply Forall_app. split; [exact Hb|].
  simpl. constructor; [reflexivity | exact IH].
Qed.

(** *** Parenthesised spans *)

Lemma closes_app a b : closes (a ++ b) = closes a || closes b.
Proof. apply existsb_app. Qed.

Lemma closes_false_Forall s : closes s = false <-> Forall (fun c => c <> RPAR) s.
Proof.
  induction s as [|c s IH]; simpl.
  - split; [constructor | reflexivity].
  - rewrite orb_false_iff, IH, N.eqb_neq. split.
    + intros [? ?]. now constructor.
    + intros H. now inversion H.
Qed.

Lemma has_span_app_false a b :
  has_span (a ++ b) = false -> has_span a = false /\ has_span b = false.
Proof.
  induction a as [|c a IH]; simpl; [tauto|].
  rewrite closes_app. intros H.
  apply orb_false_iff in H as [H1 H2]. destruct (IH H2) as [Ha Hb].
  rewrite Ha, Hb, orb_false_r. split; [|reflexivity].
  destruct (c =? LPAR)%N; [|reflexivity]. simpl in *.
  now apply orb_false_iff in H1 as [-> _].
Qed.

Lemma has_span_no_open a b : Forall (fun c => c <> LPAR) a -> has_span (a ++ b) = has_span b.
Proof.
  induction 1 as [|c a Hc _ IH]; simpl; [reflexivity|].
  apply N.eqb_neq in Hc. now rewrite Hc, IH.
Qed.

Lemma no_open_no_span s : Forall (fun c => c <> LPAR) s -> has_span s = false.
Proof. intros H. rewrite <- (app_nil_r s). now rewrite has_span_no_open. Qed.

Lemma dangling_app_false a b : dangling (a ++ b) = false -> dangling b = false.
Proof.
  induction a as [|c a IH]; simpl; [tauto|].
  intros H. apply orb_false_iff in H as [_ H]. now apply IH.
Qed.

Lemma dangling_head_closes t : dangling (LPAR :: t) = false -> closes t = true.
Proof.
  simpl. intros H. apply orb_false_iff in H as [H _].
  now destruct (closes t).
Qed.

Lemma after_close_None s : after_close s = None <-> closes s = false.
Proof.
  induction s as [|c s IH]; simpl; [tauto|].
  destruct (c =? RPAR)%N; simpl; [split; discriminate | exact IH].
Qed.

Lemma after_close_suffix s r : after_close s = Some r -> exists p, s = p ++ r.
Proof.
  revert r. induction s as [|c s IH]; simpl; intros r H; [discriminate|].
  destruct (c =? RPAR)%N.
  - injection H as <-. now exists [c].
  - destruct (IH _ H) as [p ->]. now exists (c :: p).
Qed.

Lemma after_close_app s r t : after_close s = Some r -> after_close (s ++ t) = Some (r ++ t).
Proof.
  revert r. induction s as [|c s IH]; simpl; intros r H; [discriminate|].
  destruct (c =? RPAR)%N; [now injection H as <- | now apply IH].
Qed.

Lemma after_close_skip b c : closes b = false -> after_close (b ++ RPAR :: c) = Some c.
Proof.
  induction b as [|x b IH]; simpl; [reflexivity|].
  intros H. apply orb_false_iff in H as [-> H]. now apply IH.
Qed.

Lemma match_paren_suffix s r : match_paren s = Some r -> exists p, s = p ++ r.
Proof.
  unfold match_paren. destruct (str_lstrip_split s) as (w & Hs & _).
  destruct (str_lstrip s) as [|c t]; [discriminate|]. intros H.
  destruct (c =? LPAR)%N; [|discriminate].
  destruct (after_close_suffix _ _ H) as [q ->].
  exists (w ++ c :: q). now rewrite Hs, <- app_assoc.
Qed.

(** The induction that follows the scan of [re_sub_paren]. *)
Lemma re_sub_paren_scan (P : str -> str -> Prop) :
  P [] [] ->
  (forall s r, match_paren s = Some r ->
     P r (re_sub_paren r) -> P s (re_sub_paren r)) ->
  (forall c s, match_paren (c :: s) = None ->
     P s (re_sub_paren s) -> P (c :: s) (c :: re_sub_paren s)) ->
  forall s, P s (re_sub_paren s).
Proof.
  intros Hnil Hmatch Hkeep s.
  remember (length s) as n eqn:Hn. revert s Hn.
  induction n as [n IH] using lt_wf_ind. intros s ->.
  rewrite re_sub_paren_eq. destruct (match_paren s) as [r|] eqn:Hm.
  - apply Hmatch; [exact Hm|].
    apply (IH (length r)); [now apply match_paren_length | reflexivity].
  - destruct s as [|c s]; [exact Hnil|].
    apply Hkeep; [exact Hm|]. apply (IH (length s)); [simpl; lia | reflexivity].
Qed.

Lemma re_sub_paren_Forall (P : code -> Prop) s :
  Forall P s -> Forall P (re_sub_paren s).
Proof.
  pattern s, (re_sub_paren s). apply re_sub_paren_scan; clear s.
  - trivial.
  - intros s r Hm IH H. apply IH.
    destruct (match_paren_suffix _ _ Hm) as [p ->]. now apply Forall_app in H.
  - intros c s _ IH H. inversion H; subst. constructor; auto.
Qed.

Lemma closes_re_sub_paren s : closes s = false -> closes (re_sub_paren s) = false.
Proof. rewrite !closes_false_Forall. apply re_sub_paren_Forall. Qed.

(** Where no ["("] is followed by a [")"] the substitution changes nothing. *)
Lemma re_sub_paren_id s : has_span s = false -> re_sub_paren s = s.
Proof.
  induction s as [|c s IH]; intros H; rewrite re_sub_paren_eq.
  - reflexivity.
  - assert (Hm : match_paren (c :: s) = None).
    { unfold match_paren. destruct (str_lstrip_split (c :: s)) as (w & Hs & _).
      destruct (str_lstrip (c :: s)) as [|x t]; [reflexivity|].
      rewrite Hs in H. apply has_span_app_false in H as [_ H]. simpl in H.
      apply orb_false_iff in H as [H _].
      destruct (x =? LPAR)%N; [|reflexivity].
      simpl in H. now apply after_close_None. }
    rewrite Hm. f_equal. apply IH. simpl in H.
    now apply orb_false_iff in H as [_ H].
Qed.

(** *** A span in the middle of a text *)

(** The scan of a text [a] whose parentheses are closed and which does not
    end in white space is not disturbed by what follows. *)
Lemma re_sub_paren_app a rest :
  dangling a = false ->
  no_trailing_blank a ->
  re_sub_paren (a ++ rest) = re_sub_paren a ++ re_sub_paren rest.
Proof.
  revert rest. pattern a, (re_sub_paren a). apply re_sub_paren_scan; clear a.
  - reflexivity.
  - intros s r Hm IH rest Hd Hr.
    destruct (match_paren_suffix _ _ Hm) as [p Hp].
    rewrite <- IH.
    + rewrite (re_sub_paren_eq (s ++ rest)).
      assert (Hm' : match_paren (s ++ rest) = Some (r ++ rest)).
      { unfold match_paren in *. destruct (str_lstrip s) as [|x t] eqn:E; [discriminate|].
        rewrite str_lstrip_app_nonempty, E by (rewrite E; discriminate). simpl.
        destruct (x =? LPAR)%N; [now apply after_close_app | discriminate]. }
      now rewrite Hm'.
    + rewrite Hp in Hd. now apply dangling_app_false in Hd.
    + rewrite Hp in Hr. now apply no_trailing_blank_suffix in Hr.
  - intros x s Hm IH rest Hd Hr.
    rewrite (re_sub_paren_eq ((x :: s) ++ rest)).
    assert (Hm' : match_paren ((x :: s) ++ rest) = None).
    { pose proof (no_trailing_blank_lstrip _ _ Hr) as Hne.
      unfold match_paren in *. rewrite (str_lstrip_app_nonempty _ _ Hne).
      destruct (str_lstrip_split (x :: s)) as (u & Hs & _).
      destruct (str_lstrip (x :: s)) as [|y t]; [congruence|]. simpl.
      destruct (N.eqb_spec y LPAR) as [->|Hy]; [|reflexivity].
      rewrite Hs in Hd. apply dangling_app_false, dangling_head_closes in Hd.
      apply after_close_None in Hm. congruence. }
    rewrite Hm'. simpl. f_equal. apply IH.
    + simpl in Hd. now apply orb_false_iff in Hd as [_ Hd].
    + now apply (no_trailing_blank_suffix [x]).
Qed.

End TextFacts.

(** ** Facts on texts that rest on the Unicode database *)

Section TextLawFacts.

Context {U : Unicode} {L : TextLaws U}.

Lemma isspace_SPACE : isspace SPACE = true.
Proof. now rewrite isspace_ascii. Qed.

Lemma isspace_LPAR : isspace LPAR = false.
Proof. now rewrite isspace_ascii. Qed.

Lemma isspace_RPAR : isspace RPAR = false.
Proof. now rewrite isspace_ascii. Qed.

Lemma isspace_UNDERSCORE : isspace UNDERSCORE = false.
Proof. now rewrite isspace_ascii. Qed.

Lemma upper_of_SPACE : upper_of SPACE = [SPACE].
Proof. now rewrite upper_ascii. Qed.

Lemma upper_of_LPAR : upper_of LPAR = [LPAR].
Proof. now rewrite upper_ascii. Qed.

Lemma upper_of_RPAR : upper_of RPAR = [RPAR].
Proof. now rewrite upper_ascii. Qed.

Lemma upper_of_UNDERSCORE : upper_of UNDERSCORE = [UNDERSCORE].
Proof. now rewrite upper_ascii. Qed.

Lemma transform_stages name : transform name = snake (re_sub_paren (collapse name)).
Proof. reflexivity. Qed.

(** *** The substitution *)

(** After the substitution no ["("] is followed by a [")"]. *)
Lemma re_sub_paren_no_span s : has_span (re_sub_paren s) = false.
Proof.
  pattern s, (re_sub_paren s). apply re_sub_paren_scan; clear s.
  - reflexivity.
  - intros s r _ IH. exact IH.
  - intros c s Hm IH. simpl. rewrite IH, orb_false_r.
    destruct (N.eqb_spec c LPAR) as [->|_]; [|reflexivity].
    simpl. apply closes_re_sub_paren.
    unfold match_paren in Hm. simpl in Hm. rewrite isspace_LPAR, N.eqb_refl in Hm.
    now apply after_close_None.
Qed.

(** A span [( b )] with the white space [w] before it is deleted, and the
    scan goes on with what follows. *)
Lemma re_sub_paren_head w b c :
  blank w -> closes b = false ->
  re_sub_paren (w ++ LPAR :: b ++ RPAR :: c) = re_sub_paren c.
Proof.
  intros Hw Hb. rewrite re_sub_paren_eq.
  unfold match_paren. rewrite (str_lstrip_blank_app _ _ Hw). simpl.
  rewrite isspace_LPAR, N.eqb_refl. now rewrite (after_close_skip _ _ Hb).
Qed.

(** The same between a text [a] and a text [c]. *)
Lemma re_sub_paren_span a w b c :
  dangling a = false ->
  no_trailing_blank a ->
  blank w ->
  closes b = false ->
  re_sub_paren (a ++ w ++ LPAR :: b ++ RPAR :: c) = re_sub_paren a ++ re_sub_paren c.
Proof.
  intros Hd Hr Hw Hb. rewrite (re_sub_paren_app _ _ Hd Hr). f_equal.
  now apply re_sub_paren_head.
Qed.

(** *** Upper case *)

Lemma str_upper_app s t : str_upper (s ++ t) = str_upper s ++ str_upper t.
Proof. apply flat_map_app. Qed.

Lemma str_upper_Forall (P : code -> Prop) s :
  (forall c, c ∈ s -> Forall P (upper_of c)) -> Forall P (str_upper s).
Proof.
  induction s as [|c s IH]; intros H; simpl; [constructor|].
  apply Forall_app. split; [apply H; now left|].
  apply IH. intros d Hd. apply H. now right.
Qed.

Lemma str_upper_blank_is_space s : blank_is_space s -> blank_is_space (str_upper s).
Proof.
  intros H. apply str_upper_Forall. intros c Hc.
  pose proof (proj1 (Forall_forall _ _) H c Hc) as Hs. simpl in Hs.
  destruct (isspace c) eqn:E.
  - rewrite (Hs eq_refl), upper_of_SPACE. now repeat constructor.
  - destruct (upper_nonspace c E) as [_ Hn].
    eapply Forall_impl; [exact Hn|]. simpl. intros d Hd Hd'. congruence.
Qed.

Lemma str_upper_noblank s : noblank s -> noblank (str_upper s).
Proof.
  intros H. apply str_upper_Forall. intros c Hc.
  apply upper_nonspace. exact (proj1 (Forall_forall _ _) H c Hc).
Qed.

Lemma str_upper_fixed s : Forall (fun c => upper_of c = [c]) (str_upper s).
Proof.
  apply str_upper_Forall. intros c _. apply Forall_forall. intros d Hd.
  exact (upper_fixed c d Hd).
Qed.

Lemma str_upper_id s : Forall (fun c => upper_of c = [c]) s -> str_upper s = s.
Proof. induction 1 as [|c s Hc _ IH]; simpl; [reflexivity | now rewrite Hc, IH]. Qed.

Lemma closes_no_close a b : Forall (fun c => c <> RPAR) a -> closes (a ++ b) = closes b.
Proof.
  intros H. rewrite closes_app. apply closes_false_Forall in H. now rewrite H.
Qed.

(** The upper case of a code point that is no parenthesis holds none. *)
Lemma upper_of_no_paren c :
  c <> LPAR -> c <> RPAR ->
  Forall (fun d => d <> LPAR) (upper_of c) /\ Forall (fun d => d <> RPAR) (upper_of c).
Proof.
  intros Ho Hc. split; apply Forall_forall; intros d Hd ->.
  - apply Ho. apply (upper_paren c LPAR Hd). now left.
  - apply Hc. apply (upper_paren c RPAR Hd). now right.
Qed.

Lemma closes_str_upper s : closes (str_upper s) = closes s.
Proof.
  induction s as [|c s IH]; simpl; [reflexivity|].
  destruct (N.eqb_spec c RPAR) as [->|Hc].
  - now rewrite upper_of_RPAR.
  - destruct (N.eqb_spec c LPAR) as [->|Ho].
    + rewrite upper_of_LPAR. simpl. exact IH.
    + destruct (upper_of_no_paren c Ho Hc) as [_ H].
      now rewrite (closes_no_close _ _ H).
Qed.

Lemma has_span_str_upper s : has_span (str_upper s) = has_span s.
Proof.
  induction s as [|c s IH]; simpl; [reflexivity|].
  destruct (N.eqb_spec c LPAR) as [->|Ho].
  - rewrite upper_of_LPAR. simpl. now rewrite IH, closes_str_upper.
  - destruct (N.eqb_spec c RPAR) as [->|Hc].
    + rewrite upper_of_RPAR. simpl. exact IH.
    + destruct (upper_of_no_paren c Ho Hc) as [H _].
      now rewrite (has_span_no_open _ _ H).
Qed.

(** *** The three stages *)

Lemma collapse_split s : collapse s = str_join " " (str_split s).
Proof. unfold collapse. now rewrite str_split_strip. Qed.

Lemma str_split_word s : Forall word (str_split s).
Proof. apply split_ws_word. constructor. Qed.

Lemma collapse_blank_is_space s : blank_is_space (collapse s).
Proof.
  rewrite collapse_split. apply str_join_blank_is_space.
  eapply Forall_impl; [apply str_split_word|]. now intros w [_ Hw].
Qed.

Lemma collapse_trimmed s : trimmed (collapse s).
Proof. rewrite collapse_split. apply str_join_trimmed, str_split_word. Qed.

Lemma collapse_noblank s : noblank s -> collapse s = s.
Proof.
  intros H. rewrite collapse_split. unfold str_split.
  rewrite (split_ws_noblank [] s H). simpl. now destruct s.
Qed.

Lemma str_replace_noblank s : blank_is_space s -> noblank (str_replace SPACE UNDERSCORE s).
Proof.
  induction 1 as [|c s Hc _ IH]; simpl; constructor; [|exact IH].
  destruct (N.eqb_spec c SPACE) as [->|Hne]; [apply isspace_UNDERSCORE|].
  destruct (isspace c); [now elim Hne; apply Hc | reflexivity].
Qed.

Lemma str_replace_id s : noblank s -> str_replace SPACE UNDERSCORE s = s.
Proof.
  induction 1 as [|c s Hc _ IH]; simpl; [reflexivity|]. rewrite IH.
  destruct (N.eqb_spec c SPACE) as [->|]; [|reflexivity].
  rewrite isspace_SPACE in Hc. discriminate.
Qed.

Lemma snake_noblank s : blank_is_space s -> noblank (snake s).
Proof.
  intros H. apply str_replace_noblank, str_strip_Forall.
  now apply str_upper_blank_is_space.
Qed.

Lemma snake_fixed s : Forall (fun c => upper_of c = [c]) (snake s).
Proof.
  unfold snake, str_replace. apply Forall_map.
  eapply Forall_impl; [apply str_strip_Forall, str_upper_fixed|].
  simpl. intros c Hc. destruct (c =? SPACE)%N; [apply upper_of_UNDERSCORE | exact Hc].
Qed.

Lemma has_span_str_replace s : has_span (str_replace SPACE UNDERSCORE s) = has_span s.
Proof.
  assert (E : forall t, closes (str_replace SPACE UNDERSCORE t) = closes t).
  { induction t as [|c t IH]; simpl; [reflexivity|]. rewrite IH. f_equal.
    now destruct (N.eqb_spec c SPACE) as [->|]. }
  induction s as [|c s IH]; simpl; [reflexivity|].
  rewrite IH, E. f_equal. f_equal. now destruct (N.eqb_spec c SPACE) as [->|].
Qed.

Lemma str_strip_no_span s : has_span s = false -> has_span (str_strip s) = false.
Proof.
  intros H. unfold str_strip.
  destruct (str_lstrip_split s) as (w & Hs & _). rewrite Hs in H.
  apply has_span_app_false in H as [_ H].
  destruct (str_rstrip_split (str_lstrip s)) as (w' & Hs' & _). rewrite Hs' in H.
  now apply has_span_app_false in H as [H _].
Qed.

Lemma snake_no_span s : has_span s = false -> has_span (snake s) = false.
Proof.
  intros H. unfold snake. rewrite has_span_str_replace.
  apply str_strip_no_span. now rewrite has_span_str_upper.
Qed.

Lemma snake_id s : noblank s -> Forall (fun c => upper_of c = [c]) s -> snake s = s.
Proof.
  intros Hb Hu. unfold snake.
  rewrite (str_upper_id s Hu), (str_strip_noblank s Hb). now apply str_replace_id.
Qed.

(** A rewritten name holds no white space and no span, and upper-casing
    leaves each of its code points as it is. *)
Lemma transform_shape s :
  noblank (transform s) /\
  Forall (fun c => upper_of c = [c]) (transform s) /\
  has_span (transform s) = false.
Proof.
  rewrite transform_stages. split; [|split].
  - apply snake_noblank, re_sub_paren_Forall, collapse_blank_is_space.
  - apply snake_fixed.
  - apply snake_no_span, re_sub_paren_no_span.
Qed.

Lemma transform_idem s : transform (transform s) = transform s.
Proof.
  destruct (transform_shape s) as (Hb & Hu & Hs).
  rewrite (transform_stages (transform s)).
  rewrite (collapse_noblank _ Hb), (re_sub_paren_id _ Hs).
  now apply snake_id.
Qed.

(** *** A name without parenthesis *)

Lemma str_replace_join ws :
  Forall word ws -> str_replace SPACE UNDERSCORE (str_join " " ws) = str_join "_" ws.
Proof.
  assert (Happ : forall a b, str_replace SPACE UNDERSCORE (a ++ b)
                   = str_replace SPACE UNDERSCORE a ++ str_replace SPACE UNDERSCORE b).
  { intros a b. apply map_app. }
  induction 1 as [|w ws [_ Hw] Hws IH]; [reflexivity|].
  destruct ws as [|w' ws]; [now apply str_replace_id|].
  change (str_join " " (w :: w' :: ws)) with (w ++ " " ++ str_join " " (w' :: ws)).
  change (str_join "_" (w :: w' :: ws)) with (w ++ "_" ++ str_join "_" (w' :: ws)).
  rewrite !Happ, IH, (str_replace_id w Hw). reflexivity.
Qed.

Lemma str_upper_join ws :
  str_upper (str_join " " ws) = str_join " " (map str_upper ws).
Proof.
  assert (Hsep : str_upper " " = " ").
  { change (upper_of SPACE ++ [] = " "). now rewrite upper_of_SPACE. }
  induction ws as [|w ws IH]; [reflexivity|].
  destruct ws as [|w' ws]; [reflexivity|].
  change (str_join " " (w :: w' :: ws)) with (w ++ " " ++ str_join " " (w' :: ws)).
  rewrite !str_upper_app, IH, Hsep. reflexivity.
Qed.

Lemma str_upper_word w : word w -> word (str_upper w).
Proof.
  intros [Hne Hw]. split; [|now apply str_upper_noblank].
  destruct w as [|c w]; [contradiction|]. simpl.
  apply Forall_cons in Hw as [Hc _].
  destruct (upper_nonspace c Hc) as [Hn _].
  destruct (upper_of c); [contradiction | discriminate].
Qed.

(** A name without ["("] becomes its words in upper case, with underscores
    between them. *)
Lemma transform_words_of s :
  Forall (fun c => c <> LPAR) s -> transform s = str_join "_" (map str_upper (str_split s)).
Proof.
  intros Hs. rewrite transform_stages, collapse_split.
  pose proof (str_split_word s) as Hw.
  rewrite re_sub_paren_id.
  - unfold snake. rewrite str_upper_join.
    assert (Hu : Forall word (map str_upper (str_split s))).
    { apply Forall_map. eapply Forall_impl; [exact Hw | apply str_upper_word]. }
    rewrite (str_strip_id _ (str_join_trimmed _ _ Hu)). now apply str_replace_join.
  - apply no_open_no_span, str_join_Forall.
    + repeat constructor. discriminate.
    + apply split_ws_Forall; [constructor | exact Hs].
Qed.

End TextLawFacts.

(** ** A span in the middle of a name *)

Section Squeeze.

Context {U : Unicode} {L : TextLaws U}.

Lemma split_ws_nonempty s : forall cur, cur <> [] -> split_ws cur s <> [].
Proof.
  induction s as [|c s IH]; intros cur Hcur; simpl.
  - now destruct cur.
  - destruct (isspace c); [now destruct cur | now apply IH].
Qed.

(** [split] and [join] read from left to right. *)
Lemma str_join_split_ws s :
  (forall cur, cur <> [] -> str_join " " (split_ws cur s) = rev cur ++ squeeze false s)
  /\ squeeze true s = match split_ws [] s with
                      | [] => []
                      | ws => SPACE :: str_join " " ws
                      end.
Proof.
  induction s as [|c s [IHa IHb]]; simpl.
  - split; [|reflexivity]. intros cur Hcur. rewrite app_nil_r. now destruct cur.
  - destruct (isspace c) eqn:Hc.
    + split; [|exact IHb]. intros cur Hcur. destruct cur as [|a cur]; [contradiction|].
      rewrite IHb. change (str_join " " (rev (a :: cur) :: split_ws [] s))
        with (match split_ws [] s with
              | [] => rev (a :: cur)
              | _ => rev (a :: cur) ++ " " ++ str_join " " (split_ws [] s)
              end).
      destruct (split_ws [] s); [now rewrite app_nil_r | reflexivity].
    + split.
      * intros cur Hcur. rewrite (IHa (c :: cur)) by discriminate.
        simpl. now rewrite <- app_assoc.
      * pose proof (split_ws_nonempty s [c]) as Hne.
        assert (E : str_join " " (split_ws [c] s) = c :: squeeze false s).
        { rewrite (IHa [c]) by discriminate. reflexivity. }
        destruct (split_ws [c] s); [now elim Hne|]. f_equal. symmetry. exact E.
Qed.

Lemma collapse_squeeze s : collapse s = squeeze false (str_lstrip s).
Proof.
  rewrite collapse_split. unfold str_split.
  induction s as [|c s IH]; simpl; [reflexivity|].
  destruct (isspace c) eqn:Hc; [exact IH|].
  rewrite (proj1 (str_join_split_ws s) [c]) by discriminate.
  simpl. now rewrite Hc.
Qed.

Lemma squeeze_app u v : forall g,
  squeeze g (u ++ v) = squeeze g u ++ squeeze (gap_after g u) v.
Proof.
  induction u as [|c u IH]; intros g; simpl; [reflexivity|].
  unfold gap_after. simpl. fold (gap_after (isspace c) u).
  destruct (isspace c) eqn:Hc.
  - apply IH.
  - rewrite IH. now rewrite <- !app_assoc.
Qed.

Lemma gap_after_last g p x : gap_after g (p ++ [x]) = isspace x.
Proof. unfold gap_after. now rewrite fold_left_app. Qed.

Lemma gap_after_no_trailing g u : u <> [] -> no_trailing_blank u -> gap_after g u = false.
Proof.
  intros Hne H. destruct (exists_last Hne) as (p & x & ->).
  rewrite gap_after_last. exact (H p x eq_refl).
Qed.

Lemma squeeze_blank g w : blank w -> squeeze g w = [].
Proof. intros H. revert g. induction H as [|c w Hc _ IH]; intros g; simpl; [reflexivity|]. now rewrite Hc. Qed.

(** After white space, the reading of what begins a word. *)
Lemma squeeze_gap g c s :
  isspace c = false ->
  squeeze g (c :: s) = (if g then [SPACE] else []) ++ c :: squeeze false s.
Proof. intros Hc. simpl. now rewrite Hc. Qed.

Lemma squeeze_true s :
  no_leading_blank s ->
  squeeze true s = match s with [] => [] | _ => SPACE :: squeeze false s end.
Proof.
  destruct s as [|c s]; [reflexivity|]. intros H.
  pose proof (H c s eq_refl) as Hc. simpl. now rewrite Hc.
Qed.

Lemma closes_squeeze s : forall g, closes (squeeze g s) = closes s.
Proof.
  induction s as [|c s IH]; intros g; simpl; [reflexivity|].
  destruct (isspace c) eqn:Hc.
  - rewrite IH. destruct (N.eqb_spec c RPAR) as [->|]; [|reflexivity].
    rewrite isspace_RPAR in Hc. discriminate.
  - destruct g; simpl; now rewrite IH.
Qed.

Lemma dangling_squeeze s : forall g, dangling (squeeze g s) = dangling s.
Proof.
  induction s as [|c s IH]; intros g; simpl; [reflexivity|].
  destruct (isspace c) eqn:Hc.
  - rewrite IH. destruct (N.eqb_spec c LPAR) as [->|]; [|reflexivity].
    rewrite isspace_LPAR in Hc. discriminate.
  - destruct g; simpl; now rewrite IH, closes_squeeze.
Qed.

Lemma snake_lead z : snake (SPACE :: z) = snake z.
Proof.
  unfold snake. simpl. rewrite upper_of_SPACE. simpl.
  unfold str_strip. simpl. now rewrite isspace_SPACE.
Qed.

(** A space before the text plays no part in what the last two stages make
    of it. *)
Lemma snake_re_sub_lead y : snake (re_sub_paren (SPACE :: y)) = snake (re_sub_paren y).
Proof.
  assert (E : match_paren (SPACE :: y) = match_paren y).
  { unfold match_paren. simpl. now rewrite isspace_SPACE. }
  rewrite (re_sub_paren_eq (SPACE :: y)), E.
  destruct (match_paren y) as [r|] eqn:Hm.
  - now rewrite (re_sub_paren_eq y), Hm.
  - apply snake_lead.
Qed.

(** The reading of a span and of what follows it. *)
Lemma squeeze_span g w b c :
  blank w ->
  exists w' b',
    squeeze g (w ++ LPAR :: b ++ RPAR :: c) = w' ++ LPAR :: b' ++ RPAR :: squeeze false c /\
    blank w' /\ (closes b = false -> closes b' = false).
Proof.
  intros Hw.
  exists (if gap_after g w then [SPACE] else []),
         (squeeze false b ++ if gap_after false b then [SPACE] else []).
  split; [|split].
  - rewrite squeeze_app, (squeeze_blank g w Hw).
    rewrite (squeeze_gap _ LPAR _ isspace_LPAR).
    rewrite squeeze_app, (squeeze_gap _ RPAR _ isspace_RPAR).
    simpl. now rewrite <- !app_assoc.
  - destruct (gap_after g w); repeat constructor. apply isspace_SPACE.
  - intros Hb. rewrite closes_app, closes_squeeze, Hb.
    now destruct (gap_after false b).
Qed.

(** The column-name rewriting deletes a span [( b )], from a ["("] to the
    first [")"] after it, with the white space [w] before it, between a
    text [a] whose parentheses are closed and any text [c]. *)
Lemma transform_span a w b c :
  dangling a = false ->
  no_trailing_blank a ->
  blank w ->
  closes b = false ->
  transform (a ++ w ++ LPAR :: b ++ RPAR :: c) = transform (a ++ c).
Proof.
  intros Hd Hr Hw Hb. rewrite !transform_stages, !collapse_squeeze.
  destruct a as [|x a].
  - (* the span stands first *)
    simpl app. rewrite (str_lstrip_blank_app _ _ Hw).
    simpl str_lstrip at 1. rewrite isspace_LPAR.
    destruct (squeeze_span false [] b c (Forall_nil_2 _)) as (w' & b' & E & Hw' & Hb').
    simpl app in E. rewrite E, (re_sub_paren_head _ _ _ Hw' (Hb' Hb)).
    destruct (str_lstrip_split c) as (u & Hc & Hu).
    rewrite Hc at 1. rewrite squeeze_app, (squeeze_blank _ _ Hu). simpl app.
    destruct u as [|y u]; [reflexivity|].
    assert (Hg : gap_after false (y :: u) = true).
    { destruct (exists_last (l := y :: u)) as (p & z & Hp); [discriminate|].
      rewrite Hp, gap_after_last. rewrite Hp in Hu.
      apply Forall_app in Hu as [_ Hu]. now apply Forall_cons in Hu as [Hz _]. }
    rewrite Hg, (squeeze_true _ (str_lstrip_no_leading c)).
    destruct (str_lstrip c); [reflexivity | apply snake_re_sub_lead].
  - (* a text stands before the span *)
    pose proof (no_trailing_blank_lstrip _ _ Hr) as Hne.
    rewrite !(str_lstrip_app_nonempty _ _ Hne).
    destruct (str_lstrip_split (x :: a)) as (u & Ha & Hu).
    set (a1 := str_lstrip (x :: a)) in *.
    assert (Hd1 : dangling a1 = false) by (rewrite Ha in Hd; now apply dangling_app_false in Hd).
    assert (Hr1 : no_trailing_blank a1) by (rewrite Ha in Hr; now apply no_trailing_blank_suffix in Hr).
    assert (Hg : gap_after false a1 = false) by now apply gap_after_no_trailing.
    assert (HA : no_trailing_blank (squeeze false a1)).
    { unfold a1. rewrite <- collapse_squeeze. apply collapse_trimmed. }
    rewrite !(squeeze_app a1), Hg.
    destruct (squeeze_span false w b c Hw) as (w' & b' & E & Hw' & Hb').
    rewrite E.
    rewrite (re_sub_paren_span _ _ _ _ (eq_trans (dangling_squeeze a1 false) Hd1) HA Hw' (Hb' Hb)).
    now rewrite (re_sub_paren_app _ _ (eq_trans (dangling_squeeze a1 false) Hd1) HA).
Qed.

End Squeeze.

(** ** Lower case *)

Section LowerFacts.

Context {U : Unicode} {L : LowerLaws U}.

Lemma isspace_SMALL_SIGMA : isspace SMALL_SIGMA = false.
Proof.
  destruct (lower_nonspace SIGMA sigma_nonspace) as [_ H].
  rewrite lower_sigma in H. now apply Forall_cons in H as [H _].
Qed.

Lemma lower_of_SMALL_SIGMA : lower_of SMALL_SIGMA = [SMALL_SIGMA].
Proof. apply (lower_fixed SIGMA). rewrite lower_sigma. now left. Qed.

(** What [str.lower] makes of one code point that is not white space is
    not empty and holds no white space. *)
Lemma lower_at_nonspace s i c :
  isspace c = false ->
  lower_at s i c <> [] /\ Forall (fun d => isspace d = false) (lower_at s i c).
Proof.
  intros Hc. unfold lower_at. destruct (c =? SIGMA)%N; [|now apply lower_nonspace].
  split; [discriminate|]. repeat constructor.
  destruct (final_sigma s i); [apply final_sigma_nonspace | apply isspace_SMALL_SIGMA].
Qed.

(** What it gives is left as it is by the lower-case mapping, and is no
    capital sigma. *)
Lemma lower_at_fixed s i c d :
  d ∈ lower_at s i c -> lower_of d = [d] /\ d <> SIGMA.
Proof.
  unfold lower_at. intros Hd.
  assert (H : lower_of d = [d]).
  { destruct (c =? SIGMA)%N; [|exact (lower_fixed c d Hd)].
    apply list_elem_of_singleton in Hd. subst d.
    destruct (final_sigma s i); [apply lower_final_sigma | apply lower_of_SMALL_SIGMA]. }
  split; [exact H|]. intros ->. rewrite lower_sigma in H. discriminate.
Qed.

Lemma elem_of_concat_imap {A B} (f : nat -> A -> list B) (l : list A) (y : B) :
  y ∈ concat (imap f l) -> exists i x, l !! i = Some x /\ y ∈ f i x.
Proof.
  revert f. induction l as [|x l IH]; intros f; simpl.
  - intros H. now apply elem_of_nil in H.
  - intros H. apply elem_of_app in H as [H|H].
    + now exists 0, x.
    + destruct (IH _ H) as (i & x' & Hi & Hy). now exists (S i), x'.
Qed.

Lemma concat_imap_fixed {A} (f : nat -> A -> list A) (l : list A) :
  (forall i x, l !! i = Some x -> f i x = [x]) -> concat (imap f l) = l.
Proof.
  revert f. induction l as [|x l IH]; intros f H; simpl; [reflexivity|].
  rewrite (H 0 x eq_refl). simpl. f_equal. apply IH.
  intros i y Hi. exact (H (S i) y Hi).
Qed.

Lemma str_lower_fixed s :
  Forall (fun d => lower_of d = [d] /\ d <> SIGMA) (str_lower s).
Proof.
  apply Forall_forall. intros d Hd.
  apply elem_of_concat_imap in Hd as (i & c & _ & Hd).
  exact (lower_at_fixed _ _ _ _ Hd).
Qed.

(** [str.lower] changes nothing on what it returned. *)
Lemma str_lower_idem s : str_lower (str_lower s) = str_lower s.
Proof.
  unfold str_lower at 1. apply concat_imap_fixed. intros i d Hi.
  apply list_elem_of_lookup_2 in Hi.
  destruct (proj1 (Forall_forall _ _) (str_lower_fixed s) d Hi) as [Hd Hn].
  unfold lower_at. apply N.eqb_neq in Hn. now rewrite Hn.
Qed.

(** It keeps a text trimmed. *)
Lemma str_lower_trimmed s : trimmed s -> trimmed (str_lower s).
Proof.
  intros [H1 H2]. split.
  - intros c r E. destruct s as [|x s]; [discriminate|].
    unfold str_lower in E. simpl in E.
    destruct (lower_at_nonspace (x :: s) 0 x (H1 x s eq_refl)) as [Hne Hall].
    destruct (lower_at (x :: s) 0 x) as [|y t]; [contradiction|].
    simpl in E. injection E as <- _. now apply Forall_cons in Hall as [Hy _].
  - intros p c E. destruct (exists_last (l := s)) as (q & x & Hs).
    { intros ->. now destruct p. }
    unfold str_lower in E. rewrite Hs in E at 2.
    rewrite imap_app, concat_app in E. simpl in E. rewrite app_nil_r in E.
    destruct (lower_at_nonspace s (length q + 0) x (H2 q x Hs)) as [Hne Hall].
    destruct (exists_last Hne) as (t & y & Ey). rewrite Ey in E, Hall.
    rewrite app_assoc in E. apply app_inj_tail in E as [_ <-].
    apply Forall_app in Hall as [_ Hall]. now apply Forall_cons in Hall as [Hy _].
Qed.

(** The text [Series.str.strip().str.lower()] leaves is trimmed, and the
    two methods change nothing more on it. *)
Lemma lower_strip_trimmed s : trimmed (str_lower (str_strip s)).
Proof. apply str_lower_trimmed, str_strip_trimmed. Qed.

Lemma lower_strip_idem s :
  str_lower (str_strip (str_lower (str_strip s))) = str_lower (str_strip s).
Proof. rewrite (str_strip_id _ (lower_strip_trimmed s)). apply str_lower_idem. Qed.

Lemma text_value_str s : text_value (VStr s) = VStr (str_lower (str_strip s)).
Proof. reflexivity. Qed.

Lemma text_value_idem v : text_value (text_value v) = text_value v.
Proof.
  destruct v as [s| | | |]; try reflexivity.
  rewrite !text_value_str. f_equal. apply lower_strip_idem.
Qed.

Lemma text_value_shape v t :
  text_value v = VStr t ->
  (exists s, v = VStr s /\ t = str_lower (str_strip s)) /\
  trimmed t /\ Forall (fun c => lower_of c = [c]) t.
Proof.
  destruct v as [s| | | |]; try discriminate. rewrite text_value_str.
  intros [= <-]. split; [now exists s|]. split; [apply lower_strip_trimmed|].
  eapply Forall_impl; [apply str_lower_fixed|]. now intros c [H _].
Qed.

End LowerFacts.

(** ** A database and its ASCII part *)

Lemma on_ascii_eq (U : Unicode) : TextLaws U -> LowerLaws U -> on_ascii U = U.
Proof.
  intros LT LL. destruct U as [sp up lo fs iu]. unfold on_ascii. simpl.
  f_equal; apply functional_extensionality; intros c;
    destruct (N.ltb_spec c 128) as [Hc|Hc]; try reflexivity; symmetry.
  - exact (@isspace_ascii _ LT c Hc).
  - exact (@upper_ascii _ LT c Hc).
  - exact (@lower_ascii _ LL c Hc).
Qed.

Lemma on_ascii_text_eq (U : Unicode) : TextLaws U -> on_ascii_text U = U.
Proof.
  intros LT. destruct U as [sp up lo fs iu]. unfold on_ascii_text. simpl.
  f_equal; apply functional_extensionality; intros c;
    destruct (N.ltb_spec c 128) as [Hc|Hc]; try reflexivity; symmetry.
  - exact (@isspace_ascii _ LT c Hc).
  - exact (@upper_ascii _ LT c Hc).
Qed.

(** The small database has the properties asked of one. *)
Lemma basic_isspace_ascii c : (c < 128)%N -> basic_isspace c = ascii_isspace c.
Proof.
  intros Hc. unfold basic_isspace.
  replace (c =? 0x85)%N with false by (symmetry; apply N.eqb_neq; lia).
  replace (c =? 0xA0)%N with false by (symmetry; apply N.eqb_neq; lia).
  replace (c =? 0x1680)%N with false by (symmetry; apply N.eqb_neq; lia).
  replace (0x2000 <=? c)%N with false by (symmetry; apply N.leb_gt; lia).
  replace (c =? 0x2028)%N with false by (symmetry; apply N.eqb_neq; lia).
  replace (c =? 0x2029)%N with false by (symmetry; apply N.eqb_neq; lia).
  replace (c =? 0x202F)%N with false by (symmetry; apply N.eqb_neq; lia).
  replace (c =? 0x205F)%N with false by (symmetry; apply N.eqb_neq; lia).
  replace (c =? 0x3000)%N with false by (symmetry; apply N.eqb_neq; lia).
  simpl. now rewrite !orb_false_r.
Qed.

Lemma basic_isspace_high c : (128 <= c)%N -> basic_isspace c = true ->
  c = 0x85%N \/ c = 0xA0%N \/ c = 0x1680%N \/ (0x2000 <= c <= 0x200A)%N \/
  c = 0x2028%N \/ c = 0x2029%N \/ c = 0x202F%N \/ c = 0x205F%N \/ c = 0x3000%N.
Proof.
  intros Hc. unfold basic_isspace, ascii_isspace.
  rewrite !orb_true_iff, !andb_true_iff, !N.eqb_eq, !N.leb_le. lia.
Qed.

Lemma basic_isspace_false c : (c < 128)%N -> ascii_isspace c = false -> basic_isspace c = false.
Proof. intros Hc H. now rewrite basic_isspace_ascii. Qed.

(** Case analysis on the comparisons of code points. *)
Ltac code_cases :=
  repeat (match goal with
          | |- context [(?a <? ?b)%N] => destruct (N.ltb_spec a b)
          | |- context [(?a <=? ?b)%N] => destruct (N.leb_spec a b)
          | |- context [(?a =? ?b)%N] => destruct (N.eqb_spec a b)
          | H : context [(?a <? ?b)%N] |- _ => destruct (N.ltb_spec a b)
          | H : context [(?a <=? ?b)%N] |- _ => destruct (N.leb_spec a b)
          | H : context [(?a =? ?b)%N] |- _ => destruct (N.eqb_spec a b)
          end; simpl in *; try lia; try discriminate; subst).

Lemma ascii_upper_ascii c : (c < 128)%N -> (ascii_upper c < 128)%N.
Proof. unfold ascii_upper. intros H. code_cases. Qed.

Lemma ascii_upper_isspace c : ascii_isspace (ascii_upper c) = ascii_isspace c.
Proof. unfold ascii_upper, ascii_isspace. code_cases; reflexivity. Qed.

Lemma ascii_upper_idem c : ascii_upper (ascii_upper c) = ascii_upper c.
Proof. unfold ascii_upper. code_cases; reflexivity. Qed.

Lemma ascii_lower_ascii c : (c < 128)%N -> (ascii_lower c < 128)%N.
Proof. unfold ascii_lower. intros H. code_cases. Qed.

Lemma ascii_lower_isspace c : ascii_isspace (ascii_lower c) = ascii_isspace c.
Proof. unfold ascii_lower, ascii_isspace. code_cases; reflexivity. Qed.

Lemma ascii_lower_idem c : ascii_lower (ascii_lower c) = ascii_lower c.
Proof. unfold ascii_lower. code_cases; reflexivity. Qed.

Lemma basic_upper_of_ascii c : (c < 128)%N -> basic_upper_of c = [ascii_upper c].
Proof. intros H. unfold basic_upper_of. now destruct (N.ltb_spec c 128); [|lia]. Qed.

Lemma basic_lower_of_ascii c : (c < 128)%N -> basic_lower_of c = [ascii_lower c].
Proof. intros H. unfold basic_lower_of. now destruct (N.ltb_spec c 128); [|lia]. Qed.

(** Above the ASCII characters the mappings of the small database give a
    code point they leave as it is, or the capitals [SS]. *)
Lemma basic_upper_of_high c :
  (128 <= c)%N ->
  (c = 0xE9%N /\ basic_upper_of c = [0xC9%N]) \/
  (c = 0xDF%N /\ basic_upper_of c = "SS") \/
  ((c = SMALL_SIGMA \/ c = FINAL_SIGMA) /\ basic_upper_of c = [SIGMA]) \/
  (c <> 0xE9%N /\ c <> 0xDF%N /\ c <> SMALL_SIGMA /\ c <> FINAL_SIGMA /\ basic_upper_of c = [c]).
Proof.
  intros H. unfold basic_upper_of, SMALL_SIGMA, FINAL_SIGMA.
  destruct (N.ltb_spec c 128); [lia|].
  destruct (N.eqb_spec c 0xE9) as [->|]; [now left|].
  destruct (N.eqb_spec c 0xDF) as [->|]; [right; now left|].
  destruct (N.eqb_spec c 0x3C3) as [->|]; [right; right; left; split; [now left | reflexivity]|].
  destruct (N.eqb_spec c 0x3C2) as [->|]; [right; right; left; split; [now right | reflexivity]|].
  right. right. right. simpl. auto.
Qed.

Lemma basic_lower_of_high c :
  (128 <= c)%N ->
  (c = 0xC9%N /\ basic_lower_of c = [0xE9%N]) \/
  (c = SIGMA /\ basic_lower_of c = [SMALL_SIGMA]) \/
  (c <> 0xC9%N /\ c <> SIGMA /\ basic_lower_of c = [c]).
Proof.
  intros H. unfold basic_lower_of, SIGMA.
  destruct (N.ltb_spec c 128); [lia|].
  destruct (N.eqb_spec c 0xC9) as [->|]; [now left|].
  destruct (N.eqb_spec c 0x3A3) as [->|]; [right; now left|].
  right. right. auto.
Qed.

Lemma basic_TextLaws : TextLaws basic.
Proof.
  split; simpl.
  - exact basic_isspace_ascii.
  - exact basic_upper_of_ascii.
  - intros c Hc. destruct (N.ltb_spec c 128) as [H|H].
    + rewrite basic_upper_of_ascii by exact H. f_equal.
      rewrite basic_isspace_ascii in Hc by exact H.
      unfold ascii_upper, ascii_isspace in *. code_cases; reflexivity.
    + destruct (basic_isspace_high c H Hc) as [->|[->|[->|[Hr|[->|[->|[->|[->| ->]]]]]]]];
        try reflexivity.
      destruct (basic_upper_of_high c H) as [[-> _]|[[-> _]|[[[->| ->] _]|(_ & _ & _ & _ & E)]]];
        try (unfold SMALL_SIGMA, FINAL_SIGMA in *; lia). exact E.
  - intros c Hc. destruct (N.ltb_spec c 128) as [H|H].
    + rewrite basic_upper_of_ascii by exact H. split; [discriminate|].
      repeat constructor. rewrite basic_isspace_ascii in * by auto using ascii_upper_ascii.
      now rewrite ascii_upper_isspace.
    + destruct (basic_upper_of_high c H) as [[_ ->]|[[_ ->]|[[_ ->]|(_ & _ & _ & _ & ->)]]];
        (split; [discriminate|]); repeat constructor; try reflexivity. exact Hc.
  - intros c d Hd Hp. destruct (N.ltb_spec c 128) as [H|H].
    + rewrite basic_upper_of_ascii in Hd by exact H.
      apply list_elem_of_singleton in Hd. subst d.
      unfold ascii_upper, LPAR, RPAR in *. code_cases.
    + destruct (basic_upper_of_high c H) as [[_ E]|[[_ E]|[[_ E]|(_ & _ & _ & _ & E)]]];
        rewrite E in Hd.
      * apply list_elem_of_singleton in Hd. subst d. destruct Hp; discriminate.
      * apply elem_of_cons in Hd as [->|Hd]; [destruct Hp; discriminate|].
        apply list_elem_of_singleton in Hd. subst d. destruct Hp; discriminate.
      * apply list_elem_of_singleton in Hd. subst d. destruct Hp; discriminate.
      * apply list_elem_of_singleton in Hd. now subst d.
  - intros c d Hd. destruct (N.ltb_spec c 128) as [H|H].
    + rewrite basic_upper_of_ascii in Hd by exact H.
      apply list_elem_of_singleton in Hd. subst d.
      rewrite basic_upper_of_ascii by now apply ascii_upper_ascii.
      now rewrite ascii_upper_idem.
    + destruct (basic_upper_of_high c H) as [[_ E]|[[_ E]|[[_ E]|(_ & _ & _ & _ & E)]]];
        rewrite E in Hd.
      * apply list_elem_of_singleton in Hd. now subst d.
      * apply elem_of_cons in Hd as [->|Hd]; [reflexivity|].
        apply list_elem_of_singleton in Hd. now subst d.
      * apply list_elem_of_singleton in Hd. now subst d.
      * apply list_elem_of_singleton in Hd. now subst d.
Qed.

Lemma basic_LowerLaws : LowerLaws basic.
Proof.
  split; simpl; try reflexivity.
  - exact basic_lower_of_ascii.
  - intros c Hc. destruct (N.ltb_spec c 128) as [H|H].
    + rewrite basic_lower_of_ascii by exact H. split; [discriminate|].
      repeat constructor. rewrite basic_isspace_ascii in * by auto using ascii_lower_ascii.
      now rewrite ascii_lower_isspace.
    + destruct (basic_lower_of_high c H) as [[_ ->]|[[_ ->]|(_ & _ & ->)]];
        (split; [discriminate|]); repeat constructor; try reflexivity. exact Hc.
  - intros c d Hd. destruct (N.ltb_spec c 128) as [H|H].
    + rewrite basic_lower_of_ascii in Hd by exact H.
      apply list_elem_of_singleton in Hd. subst d.
      rewrite basic_lower_of_ascii by now apply ascii_lower_ascii.
      now rewrite ascii_lower_idem.
    + destruct (basic_lower_of_high c H) as [[_ E]|[[_ E]|(_ & _ & E)]];
        rewrite E in Hd; apply list_elem_of_singleton in Hd; now subst d.
Qed.

(** ** The column-name rewriting *)

(** An ASCII text is computed on, whatever the database. *)
Ltac ascii_text :=
  match goal with
  | L : TextLaws ?U |- _ =>
      rewrite <- (on_ascii_text_eq U L); vm_compute; repeat split; reflexivity
  end.

Lemma transform_unit_price {U : Unicode} {L : TextLaws U} :
  transform "Unit Price (USD)" = "UNIT_PRICE".
Proof. ascii_text. Qed.

Example transform_examples {U : Unicode} {L : TextLaws U} :
  transform "  first   name " = "FIRST_NAME" /\
  transform "Weight (kg) net" = "WEIGHT_NET" /\
  transform "a ((b) c)" = "A_C)" /\
  transform "rate (" = "RATE_(" /\
  transform "" = "".
Proof. ascii_text. Qed.

(** Outside ASCII, in the small database: U+0085 is white space, the upper
    case of the sharp s has two letters, and the small kra stays. *)
Example transform_examples_basic :
  transform (U := basic) ("caf" ++ [0xE9%N] ++ " (x)") = "CAF" ++ [0xC9%N] /\
  transform (U := basic) ("a" ++ [0x85%N] ++ "b") = "A_B" /\
  transform (U := basic) ("stra" ++ [0xDF%N] ++ "e") = "STRASSE" /\
  transform (U := basic) ([0x138%N] ++ " (x)") = [0x138%N].
Proof. repeat split; reflexivity. Qed.

(** ** Computations *)

Lemma comprehension_ok {A B} (f : A -> Py B) (g : A -> B) (xs : list A) (st : state) :
  Forall (fun x => f x st = (Ok (g x), st)) xs ->
  comprehension f xs st = (Ok (map g xs), st).
Proof.
  induction 1 as [|x xs Hx _ IH]; simpl; [reflexivity|].
  unfold bind. rewrite Hx. unfold bind. now rewrite IH.
Qed.

Lemma comprehension_raises {A B} (f : A -> Py B) (e : exn) (xs : list A) (st : state) :
  Forall (fun x => (exists y, f x st = (Ok y, st)) \/ f x st = (Raise e, st)) xs ->
  Exists (fun x => f x st = (Raise e, st)) xs ->
  comprehension f xs st = (Raise e, st).
Proof.
  induction 1 as [|x xs Hx _ IH]; intros Hex; [now apply Exists_nil in Hex|].
  simpl. unfold bind. destruct Hx as [[y Hy]|Hx]; [|now rewrite Hx].
  rewrite Hy. apply Exists_cons in Hex as [Hex|Hex]; [congruence|].
  unfold bind. now rewrite (IH Hex).
Qed.

Lemma run_pair {A} (m : Py A) (st : state) (a : A) :
  fst (m st) = Ok a -> m st = (Ok a, snd (m st)).
Proof. destruct (m st) as [r st']. simpl. now intros ->. Qed.

Lemma set_heap_id st d l : heap st !! l = Some d -> set_heap (<[l := d]> (heap st)) st = st.
Proof. intros H. destruct st as [h o f]. unfold set_heap. simpl in *. now rewrite insert_id. Qed.

Lemma fresh_heap_None (h : gmap positive DataFrame) : h !! fresh (dom h) = None.
Proof. apply not_elem_of_dom, is_fresh. Qed.

Lemma insert_fresh_keeps (h : gmap positive DataFrame) l d dx :
  h !! l = Some d -> <[fresh (dom h) := dx]> h !! l = Some d.
Proof.
  intros H. rewrite lookup_insert_ne; [exact H|].
  intros E. rewrite <- E, fresh_heap_None in H. discriminate.
Qed.

(** ** [_clean_column_names] *)

Section Names.

Context {U : Unicode}.

Lemma is_str_cases (ls : list label) :
  Forall (fun l => is_str l = true) ls \/ Exists (fun l => is_str l = false) ls.
Proof.
  induction ls as [|l ls [IH|IH]].
  - left. constructor.
  - destruct (is_str l) eqn:E; [left | right]; now constructor.
  - right. now constructor.
Qed.

Lemma forallb_is_str (ls : list label) :
  forallb is_str ls = true <-> Forall (fun l => is_str l = true) ls.
Proof.
  induction ls as [|l ls IH]; simpl.
  - split; [constructor | reflexivity].
  - rewrite andb_true_iff, IH. split.
    + intros [? ?]. now constructor.
    + intros H. now inversion H.
Qed.

Lemma str_labels_texts (ls : list label) :
  Forall (fun l => is_str l = true) ls -> exists names, ls = map LStr names.
Proof.
  induction 1 as [|l ls Hl _ (names & ->)].
  - now exists [].
  - destruct l as [s|z]; [|discriminate]. now exists (s :: names).
Qed.

(** On names the function rewrites each with [transform]. *)
Lemma _clean_column_names_map (names : list str) (st : state) :
  _clean_column_names (map LStr names) st = (Ok (map transform names), st).
Proof.
  unfold _clean_column_names, bind.
  rewrite (comprehension_ok _ (fun l => match l with
                                        | LStr s => str_join " " (str_split (str_strip s))
                                        | LInt _ => []
                                        end)).
  - unfold ret. rewrite !map_map. reflexivity.
  - apply Forall_map, Forall_forall. intros s _. reflexivity.
Qed.

(** On a list that holds a number it raises. *)
Lemma _clean_column_names_int (ls : list label) (st : state) :
  Exists (fun l => is_str l = false) ls ->
  _clean_column_names ls st = (Raise int_has_no_strip, st).
Proof.
  intros H. unfold _clean_column_names, bind.
  rewrite (comprehension_raises _ int_has_no_strip); [reflexivity| |].
  - apply Forall_forall. intros [s|z] _; [left; now eexists | now right].
  - eapply Exists_impl; [exact H|]. now intros [s|z].
Qed.

Lemma rename_str (names : list str) : map rename (map LStr names) = map LStr (map transform names).
Proof. now rewrite !map_map. Qed.

End Names.

(** ** The column-name rewriting: idempotence, spans, words *)

(** C4. The column-name rewriting is idempotent: for every string [x],
    [transform (transform x) = transform x], where [transform] collapses the
    white space, removes the parenthesised spans, and puts the name in
    upper case with underscores for the spaces.  It holds whatever the
    code points of [x], for every database with the laws of [TextLaws]. *)
Theorem transform_idempotent {U : Unicode} (L : TextLaws U) (x : str) :
  transform (transform x) = transform x.
Proof. apply transform_idem. Qed.

Lemma transform_idempotent_witness :
  transform (U := basic) ("caf" ++ [0xE9%N] ++ [0xA0%N] ++ "(x) stra" ++ [0xDF%N] ++ "e")
    = "CAF" ++ [0xC9%N] ++ "_STRASSE" /\
  transform (U := basic)
      (transform (U := basic) ("caf" ++ [0xE9%N] ++ [0xA0%N] ++ "(x) stra" ++ [0xDF%N] ++ "e"))
    = transform (U := basic) ("caf" ++ [0xE9%N] ++ [0xA0%N] ++ "(x) stra" ++ [0xDF%N] ++ "e").
Proof.
  split; [reflexivity|].
  exact (transform_idempotent basic_TextLaws
           ("caf" ++ [0xE9%N] ++ [0xA0%N] ++ "(x) stra" ++ [0xDF%N] ++ "e")).
Defined.

(** The same on the list of names [_clean_column_names] works on. *)
Corollary _clean_column_names_idempotent {U : Unicode} {L : TextLaws U}
    (names : list str) (st : state) :
  _clean_column_names (map LStr (map transform names)) st
    = _clean_column_names (map LStr names) st.
Proof.
  rewrite !_clean_column_names_map, map_map. do 2 f_equal.
  apply map_ext. intros x. apply transform_idem.
Qed.

(** A span that holds another one is removed up to the first [")"] only. *)
Lemma transform_nested_span {U : Unicode} {L : TextLaws U} :
  transform ("a" ++ " " ++ "(" ++ "b (c) d" ++ ")" ++ " e") = "A_D)_E" /\
  transform ("a" ++ " e") = "A_E".
Proof. ascii_text. Qed.

(** C7, as stated, fails on a span that holds another: of [a (b (c) d) e]
    the rewriting keeps [d)], where removing the span [(b (c) d)] and the
    space before it leaves [a e]. *)
Lemma transform_nested_span_counterexample :
  transform (U := basic) ("a" ++ " " ++ "(" ++ "b (c) d" ++ ")" ++ " e") = "A_D)_E" /\
  transform (U := basic) ("a" ++ " e") = "A_E" /\
  transform (U := basic) ("a" ++ " " ++ "(" ++ "b (c) d" ++ ")" ++ " e")
    <> transform (U := basic) ("a" ++ " e").
Proof.
  destruct (transform_nested_span (L := basic_TextLaws)) as [E1 E2].
  split; [exact E1|]. split; [exact E2|].
  rewrite E1, E2. discriminate.
Qed.

(** C7, amended. The column-name rewriting removes every span that runs
    from a ["("] to the first [")"] after it, together with all the white
    space [w] before it, wherever the span stands in the name: between any
    text [a] (whose own parentheses are closed and which does not end in
    white space) and any text [c], the name is rewritten as if the span and
    [w] were not there.  No rewritten name keeps a ["("] with a [")"] after
    it, and [transform "Unit Price (USD)"] is ["UNIT_PRICE"]. *)
Theorem transform_removes_spans {U : Unicode} (L : TextLaws U) (a w b c : str) :
  dangling a = false ->
  no_trailing_blank a ->
  blank w ->
  closes b = false ->
  transform (a ++ w ++ "(" ++ b ++ ")" ++ c) = transform (a ++ c)
  /\ (forall x, has_span (transform x) = false)
  /\ transform "Unit Price (USD)" = "UNIT_PRICE".
Proof.
  intros Ha Hr Hw Hb. split; [|split].
  - now apply transform_span.
  - intros x. apply transform_shape.
  - apply transform_unit_price.
Qed.

Lemma transform_removes_spans_witness :
  transform (U := basic)
      (("caf" ++ [0xE9%N]) ++ (" " ++ [0xA0%N]) ++ "(" ++ "in (USD" ++ ")" ++ " net (kg)")
    = "CAF" ++ [0xC9%N] ++ "_NET" /\
  transform (U := basic)
      (("caf" ++ [0xE9%N]) ++ (" " ++ [0xA0%N]) ++ "(" ++ "in (USD" ++ ")" ++ " net (kg)")
    = transform (U := basic) (("caf" ++ [0xE9%N]) ++ " net (kg)").
Proof.
  split; [reflexivity|].
  refine (proj1 (transform_removes_spans basic_TextLaws
                   ("caf" ++ [0xE9%N]) (" " ++ [0xA0%N]) "in (USD" " net (kg)" _ _ _ _)).
  - reflexivity.
  - intros p x E. destruct p as [|c1 [|c2 [|c3 [|c4 [|c5 p]]]]]; simplify_eq/=; try reflexivity.
  - repeat constructor.
  - reflexivity.
Defined.

(** X15. A column name without ["("] is rewritten to its words (the runs of
    code points between the white space), each in upper case, joined by
    underscores: ['_'.join(w.upper() for w in x.split())]. *)
Theorem transform_words {U : Unicode} (L : TextLaws U) (x : str) :
  str_contains LPAR x = false ->
  transform x = str_join "_" (map str_upper (str_split x)).
Proof.
  intros H. apply transform_words_of.
  apply Forall_forall. intros c Hc ->.
  apply bool_decide_eq_false in H. contradiction.
Qed.

Lemma transform_words_witness :
  str_contains LPAR ("  stra" ++ [0xDF%N] ++ "e" ++ [0x2003%N] ++ " name ") = false /\
  str_join "_" (map (str_upper (U := basic))
                    (str_split (U := basic) ("  stra" ++ [0xDF%N] ++ "e" ++ [0x2003%N] ++ " name ")))
    = "STRASSE_NAME" /\
  transform (U := basic) ("  stra" ++ [0xDF%N] ++ "e" ++ [0x2003%N] ++ " name ")
    = str_join "_" (map (str_upper (U := basic))
                        (str_split (U := basic)
                           ("  stra" ++ [0xDF%N] ++ "e" ++ [0x2003%N] ++ " name "))).
Proof.
  split; [reflexivity|]. split; [reflexivity|].
  apply (transform_words basic_TextLaws). reflexivity.
Defined.

(** ** Normalisation: from the objects to the tables *)

Section Normalisation_run.

Context {U : Unicode}.

Lemma text_step_run accepts l col d st :
  heap st !! l = Some d ->
  (s ← df_getitem l col;
   s ← str_accessor accepts s;
   s ← str_accessor accepts (Series (map strip_value s));
   df_setitem l col (map lower_value s)) st
  = match text_step accepts d col with
    | Ok d' => (Ok tt, set_heap (<[l := d']> (heap st)) st)
    | Raise e => (Raise e, st)
    end.
Proof.
  intros Hl. unfold text_step.
  cbv [bind df_getitem load str_accessor df_setitem store raise ret]. rewrite Hl.
  destruct (getitem d col) as [[s|]|]; try reflexivity.
  destruct (accepts s); try reflexivity.
  destruct (accepts (map strip_value s)); try reflexivity.
  now rewrite Hl.
Qed.

Lemma text_loop_run accepts l (body : label -> unit -> Py unit) :
  (forall col d st, heap st !! l = Some d ->
     body col tt st = match text_step accepts d col with
                      | Ok d' => (Ok tt, set_heap (<[l := d']> (heap st)) st)
                      | Raise e => (Raise e, st)
                      end) ->
  forall cols d st,
  heap st !! l = Some d ->
  for_in cols tt body st
  = (match fst (text_loop accepts cols d) with None => Ok tt | Some e => Raise e end,
     set_heap (<[l := snd (text_loop accepts cols d)]> (heap st)) st).
Proof.
  intros Hbody. induction cols as [|col cols IH]; intros d st Hl; simpl.
  - unfold ret. now rewrite (set_heap_id _ _ _ Hl).
  - unfold bind. rewrite (Hbody col d st Hl).
    destruct (text_step accepts d col) as [d'|e]; simpl.
    + rewrite (IH d'); [|apply lookup_insert_eq]. simpl.
      now rewrite insert_insert_eq.
    + now rewrite (set_heap_id _ _ _ Hl).
Qed.

Lemma columns_drop_duplicates d : columns (drop_duplicates d) = columns d.
Proof. unfold drop_duplicates. now destruct (df_empty d). Qed.

(** [_clean_dataframe] creates one object, the copy, and works on it: the
    loop, the rows, then the names. *)
Lemma _clean_dataframe_run accepts l st d :
  heap st !! l = Some d ->
  _clean_dataframe accepts l st =
  let l' := fresh (dom (heap st)) in
  match text_loop accepts (object_labels d) d with
  | (Some e, d1) => (Raise e, set_heap (<[l' := d1]> (heap st)) st)
  | (None, d1) =>
      if forallb is_str (labels d1)
      then (Ok l', set_heap (<[l' := finish d1]> (heap st)) st)
      else (Raise int_has_no_strip,
            set_heap (<[l' := drop_duplicates d1]> (heap st)) st)
  end.
Proof.
  intros Hl. unfold _clean_dataframe. simpl.
  unfold bind at 1. unfold df_copy, bind at 1, load at 1. rewrite Hl.
  unfold alloc. set (l' := fresh (dom (heap st))).
  set (st1 := set_heap (<[l' := d]> (heap st)) st).
  assert (H1 : heap st1 !! l' = Some d) by apply lookup_insert_eq.
  unfold bind at 1. unfold bind at 1. unfold load at 1. rewrite H1. unfold ret at 1.
  unfold bind at 1.
  rewrite (text_loop_run accepts l' _ (fun col d st => text_step_run accepts l' col d st)
             (object_labels d) d st1 H1).
  destruct (text_loop accepts (object_labels d) d) as [[e|] d1]; simpl.
  - now rewrite insert_insert_eq.
  - unfold bind at 1. unfold bind at 1. unfold load at 1. simpl.
    rewrite lookup_insert_eq. unfold store at 1. simpl. rewrite insert_insert_eq.
    unfold bind at 1. unfold bind at 1. unfold load at 1. simpl.
    rewrite lookup_insert_eq. unfold bind at 1.
    assert (El : labels (drop_duplicates d1) = labels d1).
    { unfold labels. now rewrite columns_drop_duplicates. }
    rewrite El.
    destruct (forallb is_str (labels d1)) eqn:E.
    + apply forallb_is_str in E.
      destruct (str_labels_texts (labels d1) E) as [names Hn].
      rewrite Hn, _clean_column_names_map. unfold finish. simpl.
      rewrite El, Hn, rename_str.
      unfold store, ret, set_heap, st1. simpl. now rewrite !insert_insert_eq.
    + rewrite _clean_column_names_int;
        [unfold set_heap, st1; simpl; now rewrite !insert_insert_eq|].
      destruct (is_str_cases (labels d1)) as [H|H]; [|exact H].
      apply forallb_is_str in H. congruence.
Qed.

(** ** Normalisation: the text pass on the table *)

Lemma text_cells_lookup cols cs k :
  text_cells cols cs !! k =
  match cols !! k with
  | Some (_, ty) => if bool_decide (ty = D_object) then text_value <$> cs !! k else cs !! k
  | None => cs !! k
  end.
Proof.
  revert cs k. induction cols as [|[lbl ty] cols IH]; intros [|v cs] [|k]; simpl;
    try reflexivity; try apply IH; try (now destruct (bool_decide _)).
  destruct (cols !! k) as [[? ?]|]; [now destruct (bool_decide _) | reflexivity].
Qed.

Lemma label_cells_lookup L cols cs k :
  label_cells L cols cs !! k =
  match cols !! k with
  | Some (lbl, _) => if bool_decide (lbl ∈ L) then text_value <$> cs !! k else cs !! k
  | None => cs !! k
  end.
Proof.
  revert cs k. induction cols as [|[lbl ty] cols IH]; intros [|v cs] [|k]; simpl;
    try reflexivity; try apply IH; try (now destruct (bool_decide _)).
  destruct (cols !! k) as [[? ?]|]; [now destruct (bool_decide _) | reflexivity].
Qed.

Lemma insert_nth_alter (g : value -> value) j (l : list value) :
  <[j := g (nth j l VNaN)]> l = alter g j l.
Proof.
  revert j. induction l as [|x l IH]; intros [|j]; simpl; try reflexivity.
  f_equal. apply IH.
Qed.

Lemma zip_with_map_self {A B C} (f : A -> B -> C) (g : A -> B) (l : list A) :
  zip_with f l (map g l) = map (fun x => f x (g x)) l.
Proof. induction l as [|x l IH]; simpl; [reflexivity | now rewrite IH]. Qed.

Lemma elem_of_positions col d j :
  j ∈ positions col d <-> fst <$> columns d !! j = Some col.
Proof.
  unfold positions. rewrite list_elem_of_filter, bool_decide_spec, elem_of_seq.
  split; [now intros [H _]|]. intros H. split; [exact H|]. split; [lia|].
  simpl. apply lookup_lt_is_Some. destruct (columns d !! j); [eauto | discriminate].
Qed.

Lemma text_step_ok accepts d col d' :
  text_step accepts d col = Ok d' ->
  exists j, positions col d = [j] /\
            columns d' = columns d /\
            rows d' = map (fun r => (fst r, alter text_value j (snd r))) (rows d).
Proof.
  unfold text_step, getitem.
  destruct (positions col d) as [|j [|? ?]] eqn:E; try discriminate.
  destruct (accepts _); [|discriminate]. destruct (accepts _); [|discriminate].
  intros [= <-]. exists j. split; [reflexivity|]. split; [reflexivity|].
  unfold setitem. simpl. rewrite E. simpl. unfold column_values.
  rewrite !map_map, zip_with_map_self. apply map_ext. intros r.
  f_equal. apply (insert_nth_alter text_value).
Qed.

Lemma positions_columns col d d' : columns d' = columns d -> positions col d' = positions col d.
Proof. unfold positions. now intros ->. Qed.

End Normalisation_run.

Section Normalisation_loop.

Context {U : Unicode}.

(** One column more: the loop step for the label [c], at its position [j]. *)
Lemma label_cells_step L cols c j cs :
  c ∉ L ->
  (forall k, k = j <-> fst <$> cols !! k = Some c) ->
  label_cells L cols (alter text_value j cs) = label_cells (c :: L) cols cs.
Proof.
  intros Hc Hj. apply list_eq. intros k.
  rewrite !label_cells_lookup, list_lookup_alter.
  destruct (cols !! k) as [[lbl ty]|] eqn:Ek.
  - destruct (decide (lbl = c)) as [->|Hne].
    + assert (k = j) as -> by (apply Hj; now rewrite Ek).
      rewrite decide_True by reflexivity.
      rewrite (bool_decide_eq_true_2 (c ∈ c :: L)) by now left.
      now rewrite (bool_decide_eq_false_2 _ Hc).
    + assert (j <> k).
      { intros <-. apply Hne. specialize (proj1 (Hj j) eq_refl).
        rewrite Ek. simpl. congruence. }
      rewrite decide_False by assumption.
      destruct (decide (lbl ∈ L)) as [Hin|Hin].
      * rewrite !bool_decide_eq_true_2; [reflexivity | now right | exact Hin].
      * rewrite !bool_decide_eq_false_2; [reflexivity | | exact Hin].
        intros H'. apply elem_of_cons in H' as [?|?]; congruence.
  - assert (j <> k).
    { intros <-. specialize (proj1 (Hj j) eq_refl). now rewrite Ek. }
    now rewrite decide_False by assumption.
Qed.

(** Where the loop comes to its end the columns are those of the start and
    each label it read names one column. *)
Lemma text_loop_positions accepts L : forall d d1,
  text_loop accepts L d = (None, d1) ->
  columns d1 = columns d /\
  (forall c, c ∈ L -> exists j, positions c d = [j]).
Proof.
  induction L as [|c L IH]; intros d d1; simpl.
  - intros [= <-]. split; [reflexivity|]. intros c H. now apply elem_of_nil in H.
  - destruct (text_step accepts d c) as [d'|e] eqn:Es; [|discriminate].
    destruct (text_step_ok _ _ _ _ Es) as (j & Hj & Hc & Hr).
    intros Hl. destruct (IH _ _ Hl) as (Hc1 & Hpos).
    split; [congruence|].
    intros c' H. apply elem_of_cons in H as [->|H]; [now exists j|].
    destruct (Hpos _ H) as [j' Hj']. exists j'.
    now rewrite <- (positions_columns c' d d' Hc).
Qed.

Lemma text_loop_rows accepts L : forall d d1,
  NoDup L ->
  text_loop accepts L d = (None, d1) ->
  rows d1 = map (fun r => (fst r, label_cells L (columns d) (snd r))) (rows d).
Proof.
  induction L as [|c L IH]; intros d d1 Hnd; simpl.
  - intros [= <-].
    rewrite <- (map_id (rows d)) at 1. apply map_ext. intros [i cs]. simpl.
    f_equal. apply list_eq. intros k. rewrite label_cells_lookup.
    destruct (columns d !! k) as [[? ?]|]; [|reflexivity].
    now rewrite bool_decide_eq_false_2 by apply not_elem_of_nil.
  - apply NoDup_cons in Hnd as [Hc Hnd].
    destruct (text_step accepts d c) as [d'|e] eqn:Es; [|discriminate].
    destruct (text_step_ok _ _ _ _ Es) as (j & Hj & Hcols & Hr).
    intros Hl. rewrite (IH _ _ Hnd Hl), Hr, map_map. apply map_ext. intros [i cs]. simpl.
    f_equal. rewrite Hcols. apply label_cells_step; [exact Hc|]. intros k.
    rewrite <- elem_of_positions, Hj. now rewrite list_elem_of_singleton.
Qed.

(** The number of columns that have a label. *)
Lemma length_filter_map {A B} (P : B -> bool) (f : A -> B) (l : list A) :
  length (filter P (map f l)) = length (filter (fun x => P (f x)) l).
Proof.
  induction l as [|x l IH]; simpl; [reflexivity|].
  rewrite !filter_cons. destruct (P (f x)); simpl; now rewrite IH.
Qed.

Lemma length_positions col d :
  length (positions col d) = count_occ label_eq_dec (labels d) col.
Proof.
  unfold positions, labels. induction (columns d) as [|[lbl ty] cols IH]; [reflexivity|].
  change (seq 0 (length ((lbl, ty) :: cols))) with (0 :: seq 1 (length cols)).
  rewrite <- fmap_S_seq, filter_cons. simpl.
  change (S <$> seq 0 (length cols)) with (map S (seq 0 (length cols))).
  destruct (label_eq_dec lbl col) as [->|Hne].
  - rewrite bool_decide_eq_true_2 by reflexivity. simpl.
    rewrite length_filter_map. simpl. now rewrite IH.
  - rewrite bool_decide_eq_false_2 by congruence. simpl.
    rewrite length_filter_map. simpl. now rewrite IH.
Qed.

Lemma count_occ_object_labels d c :
  count_occ label_eq_dec (object_labels d) c <= count_occ label_eq_dec (labels d) c.
Proof.
  unfold object_labels, labels. induction (columns d) as [|[lbl ty] cols IH]; [reflexivity|].
  rewrite filter_cons. simpl.
  destruct (bool_decide (ty = D_object)); simpl; destruct (label_eq_dec lbl c); lia.
Qed.

(** Where each label of an object column names one column, no two object
    columns have the same label. *)
Lemma NoDup_object_labels d :
  (forall c, c ∈ object_labels d -> exists j, positions c d = [j]) ->
  NoDup (object_labels d).
Proof.
  intros H. apply NoDup_ListNoDup, (NoDup_count_occ label_eq_dec). intros c.
  destruct (decide (c ∈ object_labels d)) as [Hin|Hin].
  - destruct (H c Hin) as [j Hj].
    pose proof (length_positions c d) as E. rewrite Hj in E. simpl in E.
    pose proof (count_occ_object_labels d c). lia.
  - assert (E : count_occ label_eq_dec (object_labels d) c = 0).
    { apply count_occ_not_In. intros Hc. apply Hin. now apply list_elem_of_In. }
    lia.
Qed.

(** Where the loop comes to its end each label of an object column names
    one column, so the cells it rewrote are those of the object columns. *)
Lemma label_cells_object d cs :
  (forall c, c ∈ object_labels d -> exists j, positions c d = [j]) ->
  label_cells (object_labels d) (columns d) cs = text_cells (columns d) cs.
Proof.
  intros Hpos. apply list_eq. intros k.
  rewrite label_cells_lookup, text_cells_lookup.
  destruct (columns d !! k) as [[lbl ty]|] eqn:Ek; [|reflexivity].
  assert (E : bool_decide (lbl ∈ object_labels d) = bool_decide (ty = D_object)).
  { apply bool_decide_ext. unfold object_labels. split.
    - intros H. apply list_elem_of_fmap in H as ([lbl' ty'] & -> & H).
      apply list_elem_of_filter in H as [Hty H]. apply bool_decide_unpack in Hty.
      simpl in *. subst ty'. apply list_elem_of_lookup in H as [i Hi].
      destruct (Hpos lbl') as [j Hj].
      { apply list_elem_of_fmap. exists (lbl', D_object). split; [reflexivity|].
        apply list_elem_of_filter. split; [now apply bool_decide_pack|].
        now apply list_elem_of_lookup_2 in Hi. }
      assert (i = j) as ->.
      { apply list_elem_of_singleton. rewrite <- Hj. apply elem_of_positions.
        now rewrite Hi. }
      assert (k = j) as ->.
      { apply list_elem_of_singleton. rewrite <- Hj. apply elem_of_positions.
        now rewrite Ek. }
      congruence.
    - intros ->. apply list_elem_of_fmap. exists (lbl, D_object). split; [reflexivity|].
      apply list_elem_of_filter. split; [now apply bool_decide_pack|].
      now apply list_elem_of_lookup_2 in Ek. }
  now rewrite E.
Qed.

(** The loop, where it comes to its end, has made the text pass. *)
Lemma text_loop_text_pass accepts d d1 :
  text_loop accepts (object_labels d) d = (None, d1) -> d1 = text_pass d.
Proof.
  intros H. destruct (text_loop_positions _ _ _ _ H) as (Hc & Hpos).
  pose proof (text_loop_rows _ _ _ _ (NoDup_object_labels d Hpos) H) as Hr.
  destruct d1 as [c1 r1]. unfold text_pass. simpl in *. subst c1. f_equal.
  rewrite Hr. apply map_ext. intros [i cs]. simpl. f_equal.
  now apply label_cells_object.
Qed.

(** The two outcomes of [_clean_dataframe]: it returns a new object with
    the normalised table where the table can be cleaned, and raises
    otherwise; nothing else is changed. *)
Lemma _clean_dataframe_cases accepts l st d :
  heap st !! l = Some d ->
  let l' := fresh (dom (heap st)) in
  (cleans accepts d /\
   _clean_dataframe accepts l st
     = (Ok l', set_heap (<[l' := normalized d]> (heap st)) st))
  \/ (~ cleans accepts d /\
      exists e dx, _clean_dataframe accepts l st
                     = (Raise e, set_heap (<[l' := dx]> (heap st)) st)).
Proof.
  intros Hl l'. rewrite (_clean_dataframe_run accepts l st d Hl). simpl.
  unfold cleans, str_labels. fold l'.
  destruct (text_loop accepts (object_labels d) d) as [[e|] d1] eqn:E; simpl.
  - right. split; [now intros [? _]|]. now exists e, d1.
  - pose proof (text_loop_text_pass _ _ _ E) as ->.
    change (labels (text_pass d)) with (labels d).
    destruct (forallb is_str (labels d)) eqn:Es.
    + left. split; [|reflexivity]. split; [reflexivity | now apply forallb_is_str].
    + right. split; [|eauto]. intros [_ H]. apply forallb_is_str in H. congruence.
Qed.

(** [_clean_dataframe], where it returns, returns a new object that holds
    the normalised table, and changes nothing else. *)
Lemma _clean_dataframe_ok accepts l st d l' st' :
  heap st !! l = Some d ->
  _clean_dataframe accepts l st = (Ok l', st') ->
  l' = fresh (dom (heap st)) /\
  st' = set_heap (<[l' := normalized d]> (heap st)) st /\
  cleans accepts d.
Proof.
  intros Hl Hrun.
  destruct (_clean_dataframe_cases accepts l st d Hl) as [[Hc E]|[_ (e & dx & E)]];
    rewrite E in Hrun; [|discriminate].
  injection Hrun as <- <-. auto.
Qed.

End Normalisation_loop.

(** ** Normalisation: the rows that are dropped *)

Lemma length_duplicated_from seen rs : length (duplicated_from seen rs) = length rs.
Proof. revert seen. induction rs as [|r rs IH]; intros seen; simpl; [reflexivity | now rewrite IH]. Qed.

Lemma length_unmarked {A} (mask : list bool) (rs : list A) :
  length mask = length rs -> length (unmarked mask rs) + count_true mask = length rs.
Proof.
  revert rs. induction mask as [|m mask IH]; intros [|r rs]; simpl; try discriminate;
    [reflexivity|].
  intros [= H]. specialize (IH _ H). destruct m; simpl; lia.
Qed.

Lemma unmarked_map {A B} (k : A -> B) (mask : list bool) (rs : list A) :
  map k (unmarked mask rs) = unmarked mask (map k rs).
Proof.
  revert rs. induction mask as [|m mask IH]; intros [|r rs]; simpl; try reflexivity.
  destruct m; simpl; now rewrite IH.
Qed.

Lemma unmarked_subset {A} (mask : list bool) (rs : list A) x :
  x ∈ unmarked mask rs -> x ∈ rs.
Proof.
  revert rs. induction mask as [|m mask IH]; intros [|r rs]; simpl;
    try (intros H; now apply elem_of_nil in H).
  destruct m.
  - intros H. right. now apply IH.
  - intros H. apply elem_of_cons in H as [->|H]; [now left | right; now apply IH].
Qed.

(** A row is marked when it was seen before or stands earlier in the list. *)
Lemma duplicated_from_lookup seen rs i :
  duplicated_from seen rs !! i = Some true <->
  exists r, rs !! i = Some r /\ (r ∈ seen \/ exists j, j < i /\ rs !! j = Some r).
Proof.
  revert seen i. induction rs as [|x rs IH]; intros seen i; simpl.
  - split; [discriminate|]. now intros (r & H & _).
  - destruct i as [|i]; simpl.
    + split.
      * intros [= H]. apply bool_decide_eq_true in H. exists x. split; [reflexivity | now left].
      * intros (r & [= <-] & [H|(j & Hj & _)]); [|lia].
        f_equal. now apply bool_decide_eq_true.
    + rewrite IH. split.
      * intros (r & Hr & [H|(j & Hj & Hjr)]); exists r; (split; [exact Hr|]).
        -- apply elem_of_cons in H as [->|H]; [right | now left].
           exists 0. split; [lia | reflexivity].
        -- right. exists (S j). split; [lia | exact Hjr].
      * intros (r & Hr & [H|(j & Hj & Hjr)]); exists r; (split; [exact Hr|]).
        -- left. now right.
        -- destruct j as [|j]; simpl in Hjr.
           ++ injection Hjr as ->. left. now left.
           ++ right. exists j. split; [lia | exact Hjr].
Qed.

Lemma elem_of_unmarked seen rs (x : list value) :
  x ∈ unmarked (duplicated_from seen rs) rs <-> x ∈ rs /\ x ∉ seen.
Proof.
  revert seen. induction rs as [|r rs IH]; intros seen; simpl.
  - split; [intros H; now apply elem_of_nil in H | intros [H _]; now apply elem_of_nil in H].
  - destruct (decide (r ∈ seen)) as [Hin|Hin].
    + rewrite (bool_decide_eq_true_2 _ Hin), IH. split.
      * intros [H1 H2]. split; [now right|]. intros H. apply H2. now right.
      * intros [H1 H2]. apply elem_of_cons in H1 as [->|H1]; [contradiction|].
        split; [exact H1|]. intros H. apply elem_of_cons in H as [->|H]; contradiction.
    + rewrite (bool_decide_eq_false_2 _ Hin), elem_of_cons, IH. split.
      * intros [->|[H1 H2]]; [split; [now left | exact Hin]|].
        split; [now right|]. intros H. apply H2. now right.
      * intros [H1 H2]. apply elem_of_cons in H1 as [->|H1]; [now left|].
        destruct (decide (x = r)) as [->|Hne]; [now left|]. right.
        split; [exact H1|]. intros H. apply elem_of_cons in H as [?|?]; contradiction.
Qed.

Lemma NoDup_unmarked rs : forall seen : list (list value),
  NoDup (unmarked (duplicated_from seen rs) rs).
Proof.
  induction rs as [|r rs IH]; intros seen; simpl; [constructor|].
  destruct (bool_decide (r ∈ seen)); [apply IH|].
  constructor; [|apply IH].
  intros H. apply elem_of_unmarked in H as [_ H]. apply H. now left.
Qed.

Lemma unmarked_NoDup {A} (k : A -> list value) rs : forall seen : list (list value),
  NoDup (map k rs) -> (forall r, r ∈ rs -> k r ∉ seen) ->
  unmarked (duplicated_from seen (map k rs)) rs = rs.
Proof.
  induction rs as [|r rs IH]; intros seen Hnd Hdis; simpl; [reflexivity|].
  simpl in Hnd. apply NoDup_cons in Hnd as [Hr Hnd].
  rewrite bool_decide_eq_false_2 by (apply Hdis; now left).
  f_equal. apply IH; [exact Hnd|].
  intros x Hx H. apply elem_of_cons in H as [E|H].
  - apply Hr. rewrite <- E. now apply (list_elem_of_fmap_2 k).
  - apply (Hdis x); [now right | exact H].
Qed.

Section Normalisation_rows.

Context {U : Unicode}.

Lemma text_cells_nil cs : text_cells [] cs = cs.
Proof. now destruct cs. Qed.

(** The rows of the normalised table. *)
Lemma rows_normalized d :
  rows (normalized d) = rows (drop_duplicates (text_pass d)).
Proof. reflexivity. Qed.

Lemma cells_text_pass d : cells (text_pass d) = map (text_cells (columns d)) (cells d).
Proof. unfold cells, text_pass. simpl. now rewrite !map_map. Qed.

Lemma row_key_text_pass d cs : row_key (text_pass d) cs = row_key d cs.
Proof. reflexivity. Qed.

Lemma drop_duplicates_cases d :
  (df_empty d = true /\ drop_duplicates d = d) \/
  (df_empty d = false /\
   cells (drop_duplicates d) = unmarked (duplicated d) (cells d) /\
   index (drop_duplicates d)
     = seqZ 0 (Z.of_nat (length (unmarked (duplicated d) (cells d))))).
Proof.
  unfold drop_duplicates. destruct (df_empty d); [now left|]. right.
  split; [reflexivity|]. unfold cells, index. simpl.
  set (kept := unmarked (duplicated d) (map snd (rows d))).
  split.
  - apply (snd_zip (seqZ 0 (Z.of_nat (length kept))) kept).
    rewrite length_seqZ. lia.
  - apply (fst_zip (seqZ 0 (Z.of_nat (length kept))) kept).
    rewrite length_seqZ. lia.
Qed.

(** The cells of the normalised table: those of the text pass, or those of
    its rows that no row with the same keys precedes. *)
Lemma cells_normalized d :
  cells (normalized d) =
  if df_empty d then cells (text_pass d)
  else unmarked (duplicated (text_pass d)) (cells (text_pass d)).
Proof.
  unfold cells at 1. rewrite rows_normalized. fold (cells (drop_duplicates (text_pass d))).
  assert (Ee : df_empty (text_pass d) = df_empty d).
  { unfold df_empty, text_pass. simpl. destruct (columns d); [reflexivity|].
    now destruct (rows d). }
  destruct (drop_duplicates_cases (text_pass d)) as [[He E]|(He & E & _)];
    rewrite Ee in He; rewrite He; [now rewrite E | exact E].
Qed.

Lemma cells_normalized_subset d cs' :
  cs' ∈ cells (normalized d) -> exists cs, cs ∈ cells d /\ cs' = text_cells (columns d) cs.
Proof.
  rewrite cells_normalized. intros H.
  assert (H' : cs' ∈ cells (text_pass d)).
  { destruct (df_empty d); [exact H | now apply unmarked_subset in H]. }
  rewrite cells_text_pass in H'. apply list_elem_of_fmap in H' as (cs & -> & Hcs).
  now exists cs.
Qed.

(** Each row of the input has its row in the normalised table, or one with
    the same keys. *)
Lemma cells_normalized_all d cs :
  cs ∈ cells d ->
  exists cs', cs' ∈ cells (normalized d) /\
              row_key d cs' = row_key d (text_cells (columns d) cs).
Proof.
  intros H. rewrite cells_normalized.
  assert (H' : text_cells (columns d) cs ∈ cells (text_pass d)).
  { rewrite cells_text_pass. now apply (list_elem_of_fmap_2 (text_cells (columns d))). }
  destruct (df_empty d); [now exists (text_cells (columns d) cs)|].
  unfold duplicated.
  assert (Hk : row_key d (text_cells (columns d) cs)
               ∈ map (row_key d) (unmarked (duplicated_from [] (map (row_key d) (cells (text_pass d))))
                                           (cells (text_pass d)))).
  { rewrite unmarked_map. apply elem_of_unmarked. split; [|apply not_elem_of_nil].
    now apply (list_elem_of_fmap_2 (row_key d)). }
  apply list_elem_of_fmap in Hk as (cs' & E & Hcs'). now exists cs'.
Qed.

(** No two rows of a normalised table with a column have the same keys. *)
Lemma NoDup_keys_normalized d :
  columns d <> [] -> NoDup (map (row_key d) (cells (normalized d))).
Proof.
  intros Hc. rewrite cells_normalized. destruct (df_empty d) eqn:He.
  - unfold df_empty in He. destruct (columns d); [contradiction|].
    rewrite cells_text_pass. unfold cells.
    destruct (rows d); [constructor | discriminate].
  - unfold duplicated. rewrite unmarked_map. apply NoDup_unmarked.
Qed.

Lemma columns_normalized d :
  columns (normalized d) = zip (map rename (labels d)) (map snd (columns d)).
Proof.
  unfold normalized, finish, set_labels, labels. simpl.
  now rewrite columns_drop_duplicates.
Qed.

Lemma dtypes_normalized d : map snd (columns (normalized d)) = map snd (columns d).
Proof.
  rewrite columns_normalized.
  apply (snd_zip (map rename (labels d)) (map snd (columns d))).
  unfold labels. rewrite !length_map. lia.
Qed.

Lemma labels_normalized d : labels (normalized d) = map rename (labels d).
Proof.
  unfold labels at 1. rewrite columns_normalized.
  apply (fst_zip (map rename (labels d)) (map snd (columns d))).
  unfold labels. rewrite !length_map. lia.
Qed.

Lemma length_columns_normalized d : length (columns (normalized d)) = length (columns d).
Proof.
  rewrite <- (length_map snd (columns (normalized d))), dtypes_normalized.
  apply length_map.
Qed.

End Normalisation_rows.

(** ** Normalisation: what is returned, and when *)

Lemma rows_index_cells d : rows d = zip (index d) (cells d).
Proof. unfold index, cells. symmetry. apply (zip_fst_snd (rows d)). Qed.

Lemma row_count_cells d : row_count d = length (cells d).
Proof. unfold row_count, cells. now rewrite length_map. Qed.

Lemma zip_map_fst_snd {A B C} (f : A -> C) (l : list (A * B)) :
  zip (map f (map fst l)) (map snd l) = map (fun c => (f (fst c), snd c)) l.
Proof. induction l as [|[a b] l IH]; simpl; [reflexivity | now rewrite IH]. Qed.

Section Normalisation_shape.

Context {U : Unicode}.

Lemma text_cells_dtypes cols cols' cs :
  map snd cols = map snd cols' -> text_cells cols cs = text_cells cols' cs.
Proof.
  revert cols' cs. induction cols as [|[lbl ty] cols IH]; intros [|[lbl' ty'] cols'] cs;
    simpl; try discriminate; [reflexivity|].
  intros [= -> H]. destruct cs as [|v cs]; [reflexivity|]. now rewrite (IH cols' cs H).
Qed.

Lemma text_cells_length cols cs : length (text_cells cols cs) = length cs.
Proof.
  revert cs. induction cols as [|[lbl ty] cols IH]; intros [|v cs]; simpl; try reflexivity.
  now rewrite IH.
Qed.

Lemma text_cells_no_object cols cs :
  Forall (fun c : label * dtype => snd c <> D_object) cols -> text_cells cols cs = cs.
Proof.
  intros H. revert cs. induction H as [|[lbl ty] cols Hty _ IH]; intros [|v cs]; simpl;
    try reflexivity.
  simpl in Hty. rewrite (bool_decide_eq_false_2 _ Hty). now rewrite IH.
Qed.

Lemma object_labels_nil d :
  Forall (fun c : label * dtype => snd c <> D_object) (columns d) -> object_labels d = [].
Proof.
  unfold object_labels. induction 1 as [|[lbl ty] cols Hty _ IH]; [reflexivity|].
  simpl in Hty. rewrite filter_cons_False; [exact IH|].
  simpl. intros H. apply bool_decide_unpack in H. contradiction.
Qed.

Lemma object_labels_labels d c : c ∈ object_labels d -> c ∈ labels d.
Proof.
  unfold object_labels, labels. intros H.
  apply list_elem_of_fmap in H as (x & -> & Hx).
  apply list_elem_of_filter in Hx as [_ Hx]. exact (list_elem_of_fmap_2 fst _ _ Hx).
Qed.

Lemma columns_normalized_map d :
  columns (normalized d) = map (fun c => (rename (fst c), snd c)) (columns d).
Proof. rewrite columns_normalized. apply zip_map_fst_snd. Qed.

Lemma row_key_normalized d cs : row_key (normalized d) cs = row_key d cs.
Proof. unfold row_key. now rewrite length_columns_normalized. Qed.

Lemma df_empty_text_pass d : df_empty (text_pass d) = df_empty d.
Proof.
  unfold df_empty, text_pass. simpl. destruct (columns d); [reflexivity|].
  now destruct (rows d).
Qed.

(** The index of a normalised table that is not empty. *)
Lemma index_normalized d :
  df_empty d = false ->
  index (normalized d) = seqZ 0 (Z.of_nat (length (cells (normalized d)))).
Proof.
  intros He. unfold index, cells. rewrite rows_normalized.
  fold (index (drop_duplicates (text_pass d))) (cells (drop_duplicates (text_pass d))).
  destruct (drop_duplicates_cases (text_pass d)) as [[He' _]|(_ & Ec & Ei)].
  - rewrite df_empty_text_pass in He'. congruence.
  - now rewrite Ei, Ec.
Qed.

Lemma rows_normalized_empty d : df_empty d = true -> rows (normalized d) = rows (text_pass d).
Proof.
  intros He. rewrite rows_normalized.
  destruct (drop_duplicates_cases (text_pass d)) as [[_ E]|(He' & _)]; [now rewrite E|].
  rewrite df_empty_text_pass in He'. congruence.
Qed.

Lemma positions_singleton d c :
  NoDup (labels d) -> c ∈ labels d -> exists j, positions c d = [j].
Proof.
  intros Hnd Hc. apply list_elem_of_lookup in Hc as [j Hj].
  assert (Hlab : forall k, labels d !! k = fst <$> columns d !! k).
  { intros k. unfold labels. apply (list_lookup_fmap fst). }
  assert (Hin : j ∈ positions c d) by (apply elem_of_positions; now rewrite <- Hlab).
  assert (Hall : forall k, k ∈ positions c d -> k = j).
  { intros k Hk. apply elem_of_positions in Hk. rewrite <- Hlab in Hk.
    exact (NoDup_lookup _ _ _ _ Hnd Hk Hj). }
  assert (Hnd' : NoDup (positions c d)) by (apply NoDup_filter, NoDup_seq).
  exists j. destruct (positions c d) as [|x [|y ps]].
  - now apply elem_of_nil in Hin.
  - f_equal. apply Hall. now left.
  - exfalso. assert (x = j) as -> by (apply Hall; now left).
    assert (y = j) as -> by (apply Hall; right; now left).
    apply NoDup_cons in Hnd' as [Hnot _]. apply Hnot. now left.
Qed.

Lemma positions_nonempty d c : c ∈ labels d -> positions c d <> [].
Proof.
  intros Hc E. apply list_elem_of_lookup in Hc as [j Hj].
  assert (Hin : j ∈ positions c d).
  { apply elem_of_positions. unfold labels in Hj.
    change (map fst (columns d)) with (fst <$> columns d) in Hj.
    now rewrite list_lookup_fmap in Hj. }
  rewrite E in Hin. now apply elem_of_nil in Hin.
Qed.

Lemma column_values_alter_ne (g : value -> value) j j' (d d' : DataFrame) :
  j <> j' ->
  rows d' = map (fun r => (fst r, alter g j (snd r))) (rows d) ->
  column_values j' d' = column_values j' d.
Proof.
  intros Hne Hr. unfold column_values. rewrite Hr, map_map. apply map_ext.
  intros [i cs]. simpl. rewrite !nth_lookup. now rewrite list_lookup_alter_ne.
Qed.

Lemma text_loop_returns accepts d L :
  NoDup L -> forall d',
  columns d' = columns d ->
  (forall c, c ∈ L ->
     exists j, positions c d = [j] /\ column_values j d' = column_values j d /\
               accepts (column_values j d) = true /\
               accepts (map strip_value (column_values j d)) = true) ->
  exists d1, text_loop accepts L d' = (None, d1).
Proof.
  induction 1 as [|c L Hc Hnd IH]; intros d' Hcols HL; simpl; [now exists d'|].
  destruct (HL c) as (j & Hj & Hv & Ha1 & Ha2); [now left|].
  assert (Hstep : text_step accepts d' c
                  = Ok (setitem d' c (map lower_value (map strip_value (column_values j d))))).
  { unfold text_step, getitem. rewrite (positions_columns c d d' Hcols), Hj, Hv.
    now rewrite Ha1, Ha2. }
  rewrite Hstep. destruct (text_step_ok _ _ _ _ Hstep) as (j0 & Hj0 & Hc0 & Hr0).
  rewrite (positions_columns c d d' Hcols), Hj in Hj0. injection Hj0 as <-.
  apply IH; [congruence|].
  intros c' Hc'. destruct (HL c') as (j' & Hj' & Hv' & Ha1' & Ha2'); [now right|].
  exists j'. split; [exact Hj'|]. split; [|now split].
  rewrite <- Hv'. apply (column_values_alter_ne text_value j j'); [|exact Hr0].
  intros <-.
  assert (H1 : fst <$> columns d !! j = Some c).
  { apply elem_of_positions. rewrite Hj. now left. }
  assert (H2 : fst <$> columns d !! j = Some c').
  { apply elem_of_positions. rewrite Hj'. now left. }
  rewrite H1 in H2. injection H2 as <-. contradiction.
Qed.

Lemma NoDup_labels_object_labels d : NoDup (labels d) -> NoDup (object_labels d).
Proof.
  intros H. apply NoDup_object_labels. intros c Hc.
  apply positions_singleton; [exact H | now apply object_labels_labels].
Qed.

(** Whatever ends the loop of [_clean_dataframe] is an [AttributeError]. *)
Lemma text_loop_error accepts L : forall d e d1,
  (forall c, c ∈ L -> c ∈ labels d) ->
  text_loop accepts L d = (Some e, d1) ->
  exists msg, e = AttributeError msg.
Proof.
  induction L as [|c L IH]; intros d e d1 HL; simpl; [discriminate|].
  destruct (text_step accepts d c) as [d'|e'] eqn:Es.
  - destruct (text_step_ok _ _ _ _ Es) as (j & _ & Hc & _).
    apply IH. intros c' Hc'. unfold labels. rewrite Hc. apply HL. now right.
  - intros [= <- <-]. unfold text_step, getitem in Es.
    pose proof (positions_nonempty d c (HL c ltac:(now left))) as Hne.
    destruct (positions c d) as [|j [|j' ps]]; [contradiction| |].
    + destruct (accepts _); [destruct (accepts _)|]; try discriminate;
        injection Es as <-; eauto.
    + injection Es as <-. eauto.
Qed.

Lemma df_empty_normalized d : df_empty d = true -> df_empty (normalized d) = true.
Proof.
  intros He. unfold df_empty.
  rewrite columns_normalized_map, (rows_normalized_empty d He).
  unfold text_pass. simpl. unfold df_empty in He.
  destruct (columns d); [reflexivity|]. destruct (rows d); [reflexivity | discriminate].
Qed.

End Normalisation_shape.

Section Normalisation_twice.

Context {U : Unicode} {LT : TextLaws U} {LL : LowerLaws U}.

Lemma text_cells_idem cols cs : text_cells cols (text_cells cols cs) = text_cells cols cs.
Proof.
  revert cs. induction cols as [|[lbl ty] cols IH]; intros [|v cs]; simpl; try reflexivity.
  rewrite IH. destruct (bool_decide (ty = D_object)); [|reflexivity].
  now rewrite text_value_idem.
Qed.

Lemma rename_idem l : rename (rename l) = rename l.
Proof. destruct l as [s|z]; simpl; [|reflexivity]. now rewrite transform_idem. Qed.

(** Normalising a normalised table changes nothing. *)
Lemma normalized_idem d : normalized (normalized d) = normalized d.
Proof.
  set (n := normalized d).
  assert (Hty : map snd (columns n) = map snd (columns d)) by apply dtypes_normalized.
  assert (Hpass : text_pass n = n).
  { unfold text_pass. destruct n as [cn rn] eqn:En. simpl in *. f_equal.
    rewrite <- (map_id rn) at 2. apply map_ext_in. intros [i cs] Hin. simpl. f_equal.
    assert (Hcs : cs ∈ cells (normalized d)).
    { fold n. rewrite En. unfold cells. simpl.
      apply list_elem_of_In, in_map_iff. now exists (i, cs). }
    apply cells_normalized_subset in Hcs as (cs0 & _ & ->).
    rewrite (text_cells_dtypes cn (columns d) _ Hty). apply text_cells_idem. }
  unfold normalized at 1. fold n. rewrite Hpass. unfold finish.
  assert (Hdrop : drop_duplicates n = n).
  { destruct (drop_duplicates_cases n) as [[_ E]|(He & Ec & Ei)]; [exact E|].
    assert (Hcols : columns d <> []).
    { intros E0. unfold df_empty in He. subst n. rewrite columns_normalized_map, E0 in He.
      discriminate. }
    assert (Hnd : NoDup (map (row_key n) (cells n))).
    { subst n. rewrite (map_ext _ _ (row_key_normalized d)).
      now apply NoDup_keys_normalized. }
    assert (Hkeep : unmarked (duplicated n) (cells n) = cells n).
    { apply unmarked_NoDup; [exact Hnd|]. intros r _. apply not_elem_of_nil. }
    assert (Hd : df_empty d = false).
    { destruct (df_empty d) eqn:Ed; [|reflexivity].
      subst n. now rewrite (df_empty_normalized d Ed) in He. }
    assert (Hidx : index n = seqZ 0 (Z.of_nat (length (cells n))))
      by (subst n; now apply index_normalized).
    unfold drop_duplicates. rewrite He, Hkeep, <- Hidx, <- rows_index_cells.
    now destruct n. }
  rewrite Hdrop. unfold set_labels.
  assert (Hlab : map rename (labels n) = labels n).
  { subst n. rewrite labels_normalized, map_map. apply map_ext. intros a. apply rename_idem. }
  rewrite Hlab. unfold labels.
  pose proof (zip_fst_snd (columns n)) as Hz.
  change (zip (map fst (columns n)) (map snd (columns n)) = columns n) in Hz.
  rewrite Hz. now destruct n.
Qed.

End Normalisation_twice.

(** ** Normalisation: the row count, the text columns, the input *)

(** C5 fails as it is stated, three times over.  The table with the rows
    ["A"] and ["a"] has no row equal to an earlier one, and normalisation
    leaves one row of the two.  Of the two rows of a table without columns,
    each the exact duplicate of the other, it leaves both.  And of the two
    rows [None, 1] and [NaN, 1], which differ, it leaves one. *)
Lemma normalize_row_count_counterexample :
  (row_count mixed_case_table = 2 /\
   exact_duplicates mixed_case_table = 0 /\
   exists l' st' d',
     _clean_dataframe (U := basic) accepts_text 1%positive (state_with mixed_case_table)
       = (Ok l', st') /\
     heap st' !! l' = Some d' /\
     row_count d' = 1 /\
     row_count d' <> row_count mixed_case_table - exact_duplicates mixed_case_table) /\
  (row_count no_column_table = 2 /\
   exact_duplicates no_column_table = 1 /\
   exists l' st' d',
     _clean_dataframe (U := basic) accepts_text 1%positive (state_with no_column_table)
       = (Ok l', st') /\
     heap st' !! l' = Some d' /\
     row_count d' = 2 /\
     row_count d' <> row_count no_column_table - exact_duplicates no_column_table) /\
  (row_count missing_table = 2 /\
   exact_duplicates missing_table = 0 /\
   exists l' st' d',
     _clean_dataframe (U := basic) accepts_text 1%positive (state_with missing_table)
       = (Ok l', st') /\
     heap st' !! l' = Some d' /\
     row_count d' = 1 /\
     row_count d' <> row_count missing_table - exact_duplicates missing_table).
Proof.
  assert (H : forall d n,
             fst (text_loop (U := basic) accepts_text (object_labels d) d) = None ->
             forallb is_str (labels d) = true ->
             row_count (normalized (U := basic) d) = n ->
             exists l' st' d',
               _clean_dataframe (U := basic) accepts_text 1%positive (state_with d)
                 = (Ok l', st') /\
               heap st' !! l' = Some d' /\ row_count d' = n).
  { intros d n Hloop Hs Hn.
    assert (Hl : heap (state_with d) !! 1%positive = Some d) by reflexivity.
    destruct (_clean_dataframe_cases (U := basic) accepts_text _ (state_with d) d Hl)
      as [[_ E]|[Hc _]].
    - eexists _, _, _. split; [exact E|]. split; [apply lookup_insert_eq | exact Hn].
    - elim Hc. split; [exact Hloop | now apply forallb_is_str]. }
  split; [|split].
  - split; [reflexivity|]. split; [reflexivity|].
    destruct (H mixed_case_table 1) as (l' & st' & d' & E & Hd & Hn); try reflexivity.
    exists l', st', d'. repeat split; try assumption. rewrite Hn. vm_compute. discriminate.
  - split; [reflexivity|]. split; [reflexivity|].
    destruct (H no_column_table 2) as (l' & st' & d' & E & Hd & Hn); try reflexivity.
    exists l', st', d'. repeat split; try assumption. rewrite Hn. vm_compute. discriminate.
  - split; [reflexivity|]. split; [reflexivity|].
    destruct (H missing_table 1) as (l' & st' & d' & E & Hd & Hn); try reflexivity.
    exists l', st', d'. repeat split; try assumption. rewrite Hn. vm_compute. discriminate.
Qed.

(** C5, amended.  Where normalisation returns, its table has at most as many
    rows as the input.  When the input has a column, the row count is the
    input's less the number of rows that, after the text pass, have the
    keys of an earlier row (the entries as pandas compares them: [None]
    and [NaN] alike in a table of several columns, apart in a table of one);
    the rows kept are those that follow no such row, in their order; and
    their index is 0, 1, ...  A table without columns keeps its rows. *)
Theorem normalize_row_count {U : Unicode} (accepts : list value -> bool)
    (st : state) (l : positive) (d : DataFrame) (l' : positive) (st' : state) :
  heap st !! l = Some d ->
  _clean_dataframe accepts l st = (Ok l', st') ->
  exists d',
    heap st' !! l' = Some d' /\
    row_count d' <= row_count d /\
    (columns d <> [] ->
       let passed := cells (text_pass d) in
       let keys := map (row_key d) passed in
       let mask := duplicated_from [] keys in
       row_count d' = row_count d - count_true mask /\
       (forall i, mask !! i = Some true <->
                  exists r, keys !! i = Some r /\ exists j, j < i /\ keys !! j = Some r) /\
       cells d' = unmarked mask passed /\
       index d' = seqZ 0 (Z.of_nat (row_count d'))) /\
    (columns d = [] -> rows d' = rows d).
Proof.
  intros Hl Hrun. destruct (_clean_dataframe_ok _ _ _ _ _ _ Hl Hrun) as (-> & -> & _).
  exists (normalized d). split; [apply lookup_insert_eq|].
  pose proof (cells_normalized d) as Hc.
  assert (Hlen : length (cells (text_pass d)) = row_count d).
  { rewrite cells_text_pass, length_map. symmetry. apply row_count_cells. }
  pose proof (length_unmarked (duplicated (text_pass d)) (cells (text_pass d))) as Hcount.
  unfold duplicated in Hcount. rewrite length_duplicated_from, length_map in Hcount.
  specialize (Hcount eq_refl). change (row_key (text_pass d)) with (row_key d) in Hcount.
  destruct (df_empty d) eqn:He.
  - (* an empty table is left as it is *)
    assert (Hrows : rows (normalized d) = rows (text_pass d))
      by now apply rows_normalized_empty.
    split; [rewrite row_count_cells, Hc; lia|]. split.
    + intros Hcols.
      assert (Hr : rows d = []).
      { unfold df_empty in He. destruct (columns d); [contradiction|]. now destruct (rows d). }
      assert (Hp : cells (text_pass d) = [])
        by (rewrite cells_text_pass; unfold cells; now rewrite Hr).
      cbv zeta. rewrite row_count_cells, Hc, Hp. unfold row_count. rewrite Hr. simpl.
      split; [reflexivity|]. split; [|split].
      * intros i. split; [discriminate | now intros (r & H & _)].
      * reflexivity.
      * unfold index. rewrite Hrows. unfold text_pass. simpl. now rewrite Hr.
    + intros Hcols. rewrite Hrows. unfold text_pass. simpl.
      rewrite <- (map_id (rows d)) at 2. apply map_ext. intros [i cs]. simpl.
      now rewrite Hcols, text_cells_nil.
  - split.
    { rewrite row_count_cells, Hc. unfold duplicated.
      change (row_key (text_pass d)) with (row_key d). lia. }
    split.
    + intros _. cbv zeta. split; [|split; [|split]].
      * rewrite row_count_cells, Hc. unfold duplicated.
        change (row_key (text_pass d)) with (row_key d). lia.
      * intros i. rewrite duplicated_from_lookup. split.
        -- intros (r & Hr & [H|H]); [now apply elem_of_nil in H|]. now exists r.
        -- intros (r & Hr & H). exists r. split; [exact Hr | now right].
      * exact Hc.
      * rewrite row_count_cells. now apply index_normalized.
    + intros Hcols. unfold df_empty in He. now rewrite Hcols in He.
Qed.

Lemma normalize_row_count_witness :
  let st := state_with sample_table in
  let out := _clean_dataframe (U := basic) accepts_text 1%positive st in
  heap st !! 1%positive = Some sample_table /\
  out = (Ok 2%positive, snd out) /\
  row_count (normalized (U := basic) sample_table) = 3 /\
  exists d',
    heap (snd out) !! 2%positive = Some d' /\
    row_count d' <= row_count sample_table /\
    (columns sample_table <> [] ->
       let passed := cells (text_pass (U := basic) sample_table) in
       let keys := map (row_key sample_table) passed in
       let mask := duplicated_from [] keys in
       row_count d' = row_count sample_table - count_true mask /\
       (forall i, mask !! i = Some true <->
                  exists r, keys !! i = Some r /\ exists j, j < i /\ keys !! j = Some r) /\
       cells d' = unmarked mask passed /\
       index d' = seqZ 0 (Z.of_nat (row_count d'))) /\
    (columns sample_table = [] -> rows d' = rows sample_table).
Proof.
  intros st out.
  assert (H1 : heap st !! 1%positive = Some sample_table) by reflexivity.
  assert (H2 : out = (Ok 2%positive, snd out)) by (apply run_pair; vm_compute; reflexivity).
  split; [exact H1|]. split; [exact H2|]. split; [reflexivity|].
  exact (normalize_row_count (U := basic) accepts_text st 1%positive sample_table 2%positive
           (snd out) H1 H2).
Defined.

(** C6 fails as it is stated: U+2102, the double-struck capital C, is an
    upper-case letter that has no lower case, and the text pass leaves it
    in the value. *)
Lemma normalize_text_columns_counterexample :
  cells double_struck_table = [[VStr (" " ++ [0x2102%N] ++ " ")]] /\
  isupper (Unicode := basic) 0x2102%N = true /\
  exists l' st' d',
    _clean_dataframe (U := basic) accepts_text 1%positive (state_with double_struck_table)
      = (Ok l', st') /\
    heap st' !! l' = Some d' /\
    map snd (columns d') = [D_object] /\
    cells d' = [[VStr [0x2102%N]]].
Proof.
  split; [reflexivity|]. split; [reflexivity|].
  assert (Hl : heap (state_with double_struck_table) !! 1%positive = Some double_struck_table)
    by reflexivity.
  destruct (_clean_dataframe_cases (U := basic) accepts_text _ _ _ Hl) as [[_ E]|[Hc _]].
  - eexists _, _, _. split; [exact E|]. split; [apply lookup_insert_eq|].
    split; reflexivity.
  - elim Hc. split; [reflexivity | repeat constructor].
Qed.

(** C6, amended.  After normalisation, in every column of text (type
    object) every text value is the text of the input stripped and put in
    lower case: it neither starts nor ends with white space, and it is its
    own lower case, each of its code points being one that [lower] leaves as
    it is (a capital with no lower case stays).  In the columns of every
    other type each row has the values of the input row it comes from, and
    the column types are those of the input.  Every row of the result comes
    from a row of the input in this way, and every row of the input is
    there in the result, itself or the row with the same keys that was kept
    for it. *)
Theorem normalize_text_columns {U : Unicode} (L : LowerLaws U)
    (accepts : list value -> bool)
    (st : state) (l : positive) (d : DataFrame) (l' : positive) (st' : state) :
  heap st !! l = Some d ->
  _clean_dataframe accepts l st = (Ok l', st') ->
  exists d',
    heap st' !! l' = Some d' /\
    map snd (columns d') = map snd (columns d) /\
    (forall cs', cs' ∈ cells d' ->
       exists cs, cs ∈ cells d /\ length cs' = length cs /\
         forall k,
           match columns d !! k with
           | Some (_, D_object) =>
               (forall s, cs !! k = Some (VStr s) ->
                  cs' !! k = Some (VStr (str_lower (str_strip s)))) /\
               (forall t, cs' !! k = Some (VStr t) ->
                  trimmed t /\ Forall (fun c => lower_of c = [c]) t /\ str_lower t = t)
           | _ => cs' !! k = cs !! k
           end) /\
    (forall cs, cs ∈ cells d ->
       exists cs', cs' ∈ cells d' /\
                   row_key d cs' = row_key d (text_cells (columns d) cs)).
Proof.
  intros Hl Hrun. destruct (_clean_dataframe_ok _ _ _ _ _ _ Hl Hrun) as (-> & -> & _).
  exists (normalized d). split; [apply lookup_insert_eq|].
  split; [apply dtypes_normalized|]. split; [|apply cells_normalized_all].
  intros cs' H. destruct (cells_normalized_subset _ _ H) as (cs & Hcs & ->).
  exists cs. split; [exact Hcs|]. split; [apply text_cells_length|].
  intros k. rewrite text_cells_lookup.
  destruct (columns d !! k) as [[lbl ty]|]; [|reflexivity].
  destruct ty; try reflexivity.
  rewrite bool_decide_eq_true_2 by reflexivity. split.
  - intros s ->. simpl. now rewrite text_value_str.
  - intros t Ht. destruct (cs !! k) as [v|]; [|discriminate].
    simpl in Ht. injection Ht as Ht.
    destruct (text_value_shape _ _ Ht) as ((s & _ & ->) & Htr & Hfix).
    split; [exact Htr|]. split; [exact Hfix | apply str_lower_idem].
Qed.

Lemma normalize_text_columns_witness :
  let st := state_with sample_table in
  let out := _clean_dataframe (U := basic) accepts_text 1%positive st in
  heap st !! 1%positive = Some sample_table /\
  out = (Ok 2%positive, snd out) /\
  cells (normalized (U := basic) sample_table)
    = [[VStr "oslo"; VInt 1]; [VNaN; VInt 2]; [VStr ([0xE9%N] ++ "vry"); VInt 3]] /\
  exists d',
    heap (snd out) !! 2%positive = Some d' /\
    map snd (columns d') = map snd (columns sample_table) /\
    (forall cs', cs' ∈ cells d' ->
       exists cs, cs ∈ cells sample_table /\ length cs' = length cs /\
         forall k,
           match columns sample_table !! k with
           | Some (_, D_object) =>
               (forall s, cs !! k = Some (VStr s) ->
                  cs' !! k = Some (VStr (str_lower (U := basic) (str_strip (U := basic) s)))) /\
               (forall t, cs' !! k = Some (VStr t) ->
                  trimmed (U := basic) t /\
                  Forall (fun c => lower_of (Unicode := basic) c = [c]) t /\
                  str_lower (U := basic) t = t)
           | _ => cs' !! k = cs !! k
           end) /\
    (forall cs, cs ∈ cells sample_table ->
       exists cs', cs' ∈ cells d' /\
                   row_key sample_table cs'
                   = row_key sample_table (text_cells (U := basic) (columns sample_table) cs)).
Proof.
  intros st out.
  assert (H1 : heap st !! 1%positive = Some sample_table) by reflexivity.
  assert (H2 : out = (Ok 2%positive, snd out)) by (apply run_pair; vm_compute; reflexivity).
  split; [exact H1|]. split; [exact H2|]. split; [reflexivity|].
  exact (normalize_text_columns basic_LowerLaws accepts_text st 1%positive sample_table
           2%positive (snd out) H1 H2).
Defined.

(** C9. Normalisation never changes its input table: whatever the outcome,
    the object it was given holds the table it held, with its columns, rows,
    values and names, as does every other object there was; the console and
    the files are untouched; and the table returned is a new object, not the
    input. *)
Theorem normalize_keeps_input {U : Unicode} (accepts : list value -> bool)
    (st : state) (l : positive) (d : DataFrame) :
  heap st !! l = Some d ->
  let out := _clean_dataframe accepts l st in
  heap (snd out) !! l = Some d /\
  (forall k dk, heap st !! k = Some dk -> heap (snd out) !! k = Some dk) /\
  stdout (snd out) = stdout st /\
  files (snd out) = files st /\
  (forall l', fst out = Ok l' ->
     l' <> l /\ heap st !! l' = None /\ heap (snd out) !! l' = Some (normalized d)).
Proof.
  intros Hl out. subst out. rewrite (_clean_dataframe_run accepts l st d Hl). simpl.
  set (l' := fresh (dom (heap st))).
  assert (Hfresh : heap st !! l' = None) by apply fresh_heap_None.
  assert (Hne : forall k dk, heap st !! k = Some dk -> l' <> k) by (intros k dk Hk ->; congruence).
  destruct (text_loop accepts (object_labels d) d) as [[e|] d1] eqn:E; simpl.
  - split; [rewrite lookup_insert_ne; [exact Hl | eauto]|].
    split; [intros k dk Hk; rewrite lookup_insert_ne; [exact Hk | eauto]|].
    split; [reflexivity|]. split; [reflexivity|]. intros ? [=].
  - destruct (forallb is_str (labels d1)); simpl.
    + split; [rewrite lookup_insert_ne; [exact Hl | eauto]|].
      split; [intros k dk Hk; rewrite lookup_insert_ne; [exact Hk | eauto]|].
      split; [reflexivity|]. split; [reflexivity|]. intros ? [= <-].
      split; [eauto|]. split; [exact Hfresh|].
      rewrite lookup_insert_eq. now rewrite (text_loop_text_pass _ _ _ E).
    + split; [rewrite lookup_insert_ne; [exact Hl | eauto]|].
      split; [intros k dk Hk; rewrite lookup_insert_ne; [exact Hk | eauto]|].
      split; [reflexivity|]. split; [reflexivity|]. intros ? [=].
Qed.

Lemma normalize_keeps_input_witness :
  let st := state_with sample_table in
  let out := _clean_dataframe (U := basic) accepts_text 1%positive st in
  heap st !! 1%positive = Some sample_table /\
  heap (snd out) !! 1%positive = Some sample_table /\
  (forall k dk, heap st !! k = Some dk -> heap (snd out) !! k = Some dk) /\
  stdout (snd out) = stdout st /\
  files (snd out) = files st /\
  (forall l', fst out = Ok l' ->
     l' <> 1%positive /\ heap st !! l' = None /\
     heap (snd out) !! l' = Some (normalized (U := basic) sample_table)).
Proof.
  intros st out.
  assert (H1 : heap st !! 1%positive = Some sample_table) by reflexivity.
  split; [exact H1|].
  exact (normalize_keeps_input (U := basic) accepts_text st 1%positive sample_table H1).
Defined.



(** ** [_clean_dataframe]: names, rows, repetition *)

(** X7. When [_clean_dataframe] returns, every label of the input is a
    [str], and the labels of the returned table are the rewritten labels of
    the input, in order and as many; none holds white space or a
    parenthesised span, and each is its own upper case. *)
Theorem normalize_labels {U : Unicode} (L : TextLaws U) (accepts : list value -> bool)
    (st : state) (l : positive) (d : DataFrame) (l' : positive) (st' : state) :
  heap st !! l = Some d ->
  _clean_dataframe accepts l st = (Ok l', st') ->
  exists names d',
    labels d = map LStr names /\
    heap st' !! l' = Some d' /\
    labels d' = map LStr (map transform names) /\
    Forall (fun name => noblank name /\ has_span name = false /\ str_upper name = name)
           (map transform names).
Proof.
  intros Hl Hrun. destruct (_clean_dataframe_ok _ _ _ _ _ _ Hl Hrun) as (-> & -> & _ & Hs).
  destruct (str_labels_texts _ Hs) as [names Hn].
  exists names, (normalized d). split; [exact Hn|]. split; [apply lookup_insert_eq|].
  split; [now rewrite labels_normalized, Hn, rename_str|].
  apply Forall_map, Forall_forall. intros x _.
  destruct (transform_shape x) as (Hb & Hu & Hp).
  split; [exact Hb|]. split; [exact Hp | now apply str_upper_id].
Qed.

Lemma normalize_labels_witness :
  let st := state_with sample_table in
  let out := _clean_dataframe (U := basic) accepts_text 1%positive st in
  heap st !! 1%positive = Some sample_table /\
  out = (Ok 2%positive, snd out) /\
  labels (normalized (U := basic) sample_table) = [LStr "CITY"; LStr "N"] /\
  exists names d',
    labels sample_table = map LStr names /\
    heap (snd out) !! 2%positive = Some d' /\
    labels d' = map LStr (map (transform (U := basic)) names) /\
    Forall (fun name => noblank (U := basic) name /\ has_span name = false /\
                        str_upper (U := basic) name = name)
           (map (transform (U := basic)) names).
Proof.
  intros st out.
  assert (H1 : heap st !! 1%positive = Some sample_table) by reflexivity.
  assert (H2 : out = (Ok 2%positive, snd out)) by (apply run_pair; vm_compute; reflexivity).
  split; [exact H1|]. split; [exact H2|]. split; [reflexivity|].
  exact (normalize_labels basic_TextLaws accepts_text st 1%positive sample_table 2%positive
           (snd out) H1 H2).
Defined.

(** X8. In the table [_clean_dataframe] returns no two rows have the same
    keys, and so no two the same cells, provided the table has a column. *)
Theorem normalize_rows_differ {U : Unicode} (accepts : list value -> bool)
    (st : state) (l : positive) (d : DataFrame) (l' : positive) (st' : state) :
  heap st !! l = Some d ->
  columns d <> [] ->
  _clean_dataframe accepts l st = (Ok l', st') ->
  exists d', heap st' !! l' = Some d' /\
             NoDup (map (row_key d') (cells d')) /\ NoDup (cells d').
Proof.
  intros Hl Hc Hrun. destruct (_clean_dataframe_ok _ _ _ _ _ _ Hl Hrun) as (-> & -> & _).
  exists (normalized d). split; [apply lookup_insert_eq|].
  assert (H : NoDup (map (row_key (normalized d)) (cells (normalized d)))).
  { rewrite (map_ext _ _ (row_key_normalized d)). now apply NoDup_keys_normalized. }
  split; [exact H | exact (NoDup_fmap_1 _ _ H)].
Qed.

Lemma normalize_rows_differ_witness :
  let st := state_with missing_table in
  let out := _clean_dataframe (U := basic) accepts_text 1%positive st in
  heap st !! 1%positive = Some missing_table /\
  columns missing_table <> [] /\
  out = (Ok 2%positive, snd out) /\
  cells (normalized (U := basic) missing_table) = [[VNone; VInt 1]] /\
  exists d', heap (snd out) !! 2%positive = Some d' /\
             NoDup (map (row_key d') (cells d')) /\ NoDup (cells d').
Proof.
  intros st out.
  assert (H1 : heap st !! 1%positive = Some missing_table) by reflexivity.
  assert (Hc : columns missing_table <> []) by discriminate.
  assert (H2 : out = (Ok 2%positive, snd out)) by (apply run_pair; vm_compute; reflexivity).
  split; [exact H1|]. split; [exact Hc|]. split; [exact H2|]. split; [reflexivity|].
  exact (normalize_rows_differ (U := basic) accepts_text st 1%positive missing_table
           2%positive (snd out) H1 Hc H2).
Defined.

(** X9. Normalising twice gives what normalising once gives: when
    [_clean_dataframe] returns on a table and returns again on its result,
    the second result is a new object that holds the same table as the
    first, and the first is left as it was. *)
Theorem normalize_twice {U : Unicode} (LT : TextLaws U) (LL : LowerLaws U)
    (accepts : list value -> bool)
    (st : state) (l : positive) (d : DataFrame)
    (l1 : positive) (st1 : state) (l2 : positive) (st2 : state) :
  heap st !! l = Some d ->
  _clean_dataframe accepts l st = (Ok l1, st1) ->
  _clean_dataframe accepts l1 st1 = (Ok l2, st2) ->
  l2 <> l1 /\
  exists d1, heap st1 !! l1 = Some d1 /\ heap st2 !! l1 = Some d1 /\ heap st2 !! l2 = Some d1.
Proof.
  intros Hl Hrun1 Hrun2.
  destruct (_clean_dataframe_ok _ _ _ _ _ _ Hl Hrun1) as (E1 & -> & _).
  assert (H1 : heap (set_heap (<[l1 := normalized d]> (heap st)) st) !! l1
               = Some (normalized d)) by apply lookup_insert_eq.
  destruct (_clean_dataframe_ok _ _ _ _ _ _ H1 Hrun2) as (E2 & -> & _).
  assert (Hne : l2 <> l1).
  { intros E.
    pose proof (fresh_heap_None (heap (set_heap (<[l1 := normalized d]> (heap st)) st)))
      as Hf.
    rewrite <- E2, E in Hf. rewrite H1 in Hf. discriminate. }
  split; [exact Hne|]. exists (normalized d). split; [exact H1|]. split.
  - simpl. rewrite lookup_insert_ne by exact Hne. apply lookup_insert_eq.
  - simpl. rewrite lookup_insert_eq. now rewrite normalized_idem.
Qed.

Lemma normalize_twice_witness :
  let st := state_with sample_table in
  let out1 := _clean_dataframe (U := basic) accepts_text 1%positive st in
  let out2 := _clean_dataframe (U := basic) accepts_text 2%positive (snd out1) in
  heap st !! 1%positive = Some sample_table /\
  out1 = (Ok 2%positive, snd out1) /\
  out2 = (Ok 3%positive, snd out2) /\
  3%positive <> 2%positive /\
  exists d1, heap (snd out1) !! 2%positive = Some d1 /\
             heap (snd out2) !! 2%positive = Some d1 /\
             heap (snd out2) !! 3%positive = Some d1.
Proof.
  intros st out1 out2.
  assert (H0 : heap st !! 1%positive = Some sample_table) by reflexivity.
  assert (H1 : out1 = (Ok 2%positive, snd out1)) by (apply run_pair; vm_compute; reflexivity).
  assert (H2 : out2 = (Ok 3%positive, snd out2)) by (apply run_pair; vm_compute; reflexivity).
  split; [exact H0|]. split; [exact H1|]. split; [exact H2|].
  exact (normalize_twice basic_TextLaws basic_LowerLaws accepts_text st 1%positive
           sample_table 2%positive (snd out1) 3%positive (snd out2) H0 H1 H2).
Defined.

(** ** [_clean_dataframe]: when it returns and when it does not *)

(** X10. On a table whose labels are [str] and that has no column of type
    object [_clean_dataframe] returns whatever the text accessor would
    accept: the accessor is not consulted, every row of the result is a row
    of the input with its values, every row of the input is there, itself
    or the row with the same keys kept for it, and when the table has a
    column the rows are the first occurrences in order, each once. *)
Theorem normalize_without_text {U : Unicode} (accepts : list value -> bool)
    (st : state) (l : positive) (d : DataFrame) :
  heap st !! l = Some d ->
  str_labels d ->
  Forall (fun c : label * dtype => snd c <> D_object) (columns d) ->
  exists l' st' d',
    _clean_dataframe accepts l st = (Ok l', st') /\
    heap st' !! l' = Some d' /\
    (forall cs, cs ∈ cells d' -> cs ∈ cells d) /\
    (forall cs, cs ∈ cells d -> exists cs', cs' ∈ cells d' /\ row_key d cs' = row_key d cs) /\
    (columns d <> [] ->
       cells d' = unmarked (duplicated d) (cells d) /\
       NoDup (map (row_key d) (cells d'))).
Proof.
  intros Hl Hs Hty.
  assert (Hc : cleans accepts d).
  { split; [|exact Hs]. now rewrite (object_labels_nil d Hty). }
  destruct (_clean_dataframe_cases accepts l st d Hl) as [[_ Hrun]|[Hn _]]; [|contradiction].
  assert (Hpass : text_pass d = d).
  { unfold text_pass. destruct d as [cols rs]. simpl in *. f_equal.
    rewrite <- (map_id rs) at 2. apply map_ext. intros [i cs]. simpl.
    now rewrite (text_cells_no_object cols cs Hty). }
  eexists _, _, (normalized d). split; [exact Hrun|]. split; [apply lookup_insert_eq|].
  split; [|split].
  - intros cs H. apply cells_normalized_subset in H as (cs0 & H0 & ->).
    now rewrite (text_cells_no_object _ _ Hty).
  - intros cs H. apply cells_normalized_all in H.
    now rewrite (text_cells_no_object _ _ Hty) in H.
  - intros Hcols. split; [|now apply NoDup_keys_normalized].
    rewrite cells_normalized, Hpass. destruct (df_empty d) eqn:He; [|reflexivity].
    unfold df_empty in He. destruct (columns d); [contradiction|].
    unfold duplicated, cells. now destruct (rows d).
Qed.

Lemma normalize_without_text_witness :
  let st := state_with number_table in
  heap st !! 1%positive = Some number_table /\
  str_labels number_table /\
  Forall (fun c : label * dtype => snd c <> D_object) (columns number_table) /\
  exists l' st' d',
    _clean_dataframe (U := basic) (fun _ => false) 1%positive st = (Ok l', st') /\
    heap st' !! l' = Some d' /\
    (forall cs, cs ∈ cells d' -> cs ∈ cells number_table) /\
    (forall cs, cs ∈ cells number_table ->
       exists cs', cs' ∈ cells d' /\ row_key number_table cs' = row_key number_table cs) /\
    (columns number_table <> [] ->
       cells d' = unmarked (duplicated number_table) (cells number_table) /\
       NoDup (map (row_key number_table) (cells d'))).
Proof.
  intros st.
  assert (H1 : heap st !! 1%positive = Some number_table) by reflexivity.
  assert (Hs : str_labels number_table) by (repeat constructor).
  assert (H2 : Forall (fun c : label * dtype => snd c <> D_object) (columns number_table))
    by (repeat constructor; discriminate).
  split; [exact H1|]. split; [exact Hs|]. split; [exact H2|].
  exact (normalize_without_text (U := basic) (fun _ => false) st 1%positive number_table
           H1 Hs H2).
Defined.

(** X11. When the labels of the table are [str] and differ from one
    another, and the text accessor accepts each column of type object,
    before and after [strip], [_clean_dataframe] returns a new object with
    the normalised table. *)
Theorem normalize_returns {U : Unicode} (accepts : list value -> bool)
    (st : state) (l : positive) (d : DataFrame) :
  heap st !! l = Some d ->
  str_labels d ->
  NoDup (labels d) ->
  (forall j lbl, columns d !! j = Some (lbl, D_object) ->
     accepts (column_values j d) = true /\
     accepts (map strip_value (column_values j d)) = true) ->
  exists l' st',
    _clean_dataframe accepts l st = (Ok l', st') /\
    heap st !! l' = None /\
    heap st' !! l' = Some (normalized d).
Proof.
  intros Hl Hs Hnd Hacc.
  destruct (text_loop_returns accepts d (object_labels d)
              (NoDup_labels_object_labels d Hnd) d eq_refl) as [d1 Hloop].
  { intros c Hc.
    assert (Hc' := Hc). unfold object_labels in Hc'.
    apply list_elem_of_fmap in Hc' as ([lbl ty] & -> & Hx).
    apply list_elem_of_filter in Hx as [Hty Hx]. apply bool_decide_unpack in Hty.
    simpl in *. subst ty. apply list_elem_of_lookup in Hx as [i Hi].
    destruct (positions_singleton d lbl Hnd) as [j Hj].
    { unfold labels. apply list_elem_of_lookup_2 in Hi.
      exact (list_elem_of_fmap_2 fst _ _ Hi). }
    assert (i = j) as ->.
    { apply list_elem_of_singleton. rewrite <- Hj. apply elem_of_positions. now rewrite Hi. }
    exists j. split; [exact Hj|]. split; [reflexivity|]. exact (Hacc j lbl Hi). }
  destruct (_clean_dataframe_cases accepts l st d Hl) as [[_ Hrun]|[Hn _]].
  - eexists _, _. split; [exact Hrun|]. split; [apply fresh_heap_None | apply lookup_insert_eq].
  - elim Hn. split; [now rewrite Hloop | exact Hs].
Qed.

Lemma normalize_returns_witness :
  let st := state_with sample_table in
  heap st !! 1%positive = Some sample_table /\
  str_labels sample_table /\
  NoDup (labels sample_table) /\
  (forall j lbl, columns sample_table !! j = Some (lbl, D_object) ->
     accepts_text (column_values j sample_table) = true /\
     accepts_text (map (strip_value (U := basic)) (column_values j sample_table)) = true) /\
  exists l' st',
    _clean_dataframe (U := basic) accepts_text 1%positive st = (Ok l', st') /\
    heap st !! l' = None /\
    heap st' !! l' = Some (normalized (U := basic) sample_table).
Proof.
  intros st.
  assert (H1 : heap st !! 1%positive = Some sample_table) by reflexivity.
  assert (Hs : str_labels sample_table) by (repeat constructor).
  assert (H2 : NoDup (labels sample_table)).
  { repeat constructor; [|apply not_elem_of_nil].
    intros H. apply list_elem_of_singleton in H. discriminate. }
  assert (H3 : forall j lbl, columns sample_table !! j = Some (lbl, D_object) ->
     accepts_text (column_values j sample_table) = true /\
     accepts_text (map (strip_value (U := basic)) (column_values j sample_table)) = true).
  { intros [|[|j]] lbl H; try discriminate H. split; reflexivity. }
  split; [exact H1|]. split; [exact Hs|]. split; [exact H2|]. split; [exact H3|].
  exact (normalize_returns (U := basic) accepts_text st 1%positive sample_table H1 Hs H2 H3).
Defined.

(** X12. When a column of type object shares its label with another column
    [_clean_dataframe] does not return: it raises an [AttributeError] (the
    selection [df[col]] is then a frame, which has no [str]), and the input
    table is as it was. *)
Theorem normalize_duplicate_label {U : Unicode} (accepts : list value -> bool)
    (st : state) (l : positive) (d : DataFrame) (i j : nat) (lbl : label) (ty : dtype) :
  heap st !! l = Some d ->
  i <> j ->
  columns d !! i = Some (lbl, D_object) ->
  columns d !! j = Some (lbl, ty) ->
  let out := _clean_dataframe accepts l st in
  (exists msg, fst out = Raise (AttributeError msg)) /\
  heap (snd out) !! l = Some d.
Proof.
  intros Hl Hne Hi Hj out. subst out.
  rewrite (_clean_dataframe_run accepts l st d Hl). simpl.
  destruct (text_loop accepts (object_labels d) d) as [[e|] d1] eqn:E; simpl.
  - split; [|now apply insert_fresh_keeps].
    destruct (text_loop_error accepts _ _ _ _ (object_labels_labels d) E) as [msg ->].
    now exists msg.
  - exfalso. destruct (text_loop_positions _ _ _ _ E) as (_ & Hpos).
    destruct (Hpos lbl) as [k Hk].
    { unfold object_labels. apply list_elem_of_fmap. exists (lbl, D_object).
      split; [reflexivity|]. apply list_elem_of_filter.
      split; [now apply bool_decide_pack | now apply list_elem_of_lookup_2 in Hi]. }
    assert (i = k).
    { apply list_elem_of_singleton. rewrite <- Hk. apply elem_of_positions. now rewrite Hi. }
    assert (j = k).
    { apply list_elem_of_singleton. rewrite <- Hk. apply elem_of_positions. now rewrite Hj. }
    congruence.
Qed.

Lemma normalize_duplicate_label_witness :
  let st := state_with twice_named_table in
  let out := _clean_dataframe (U := basic) accepts_text 1%positive st in
  heap st !! 1%positive = Some twice_named_table /\
  0 <> 2 /\
  columns twice_named_table !! 0 = Some (LStr "name", D_object) /\
  columns twice_named_table !! 2 = Some (LStr "name", D_int64) /\
  fst out = Raise (AttributeError "'DataFrame' object has no attribute 'str'") /\
  (exists msg, fst out = Raise (AttributeError msg)) /\
  heap (snd out) !! 1%positive = Some twice_named_table.
Proof.
  intros st out.
  assert (H1 : heap st !! 1%positive = Some twice_named_table) by reflexivity.
  assert (H2 : 0 <> 2) by lia.
  assert (H3 : columns twice_named_table !! 0 = Some (LStr "name", D_object)) by reflexivity.
  assert (H4 : columns twice_named_table !! 2 = Some (LStr "name", D_int64)) by reflexivity.
  split; [exact H1|]. split; [exact H2|]. split; [exact H3|]. split; [exact H4|].
  split; [vm_compute; reflexivity|].
  exact (normalize_duplicate_label (U := basic) accepts_text st 1%positive twice_named_table
           0 2 (LStr "name") D_int64 H1 H2 H3 H4).
Defined.

(** X17. On a table with a label that is not a [str] (a table decoded
    without a header has the labels 0, 1, ...) [_clean_dataframe] does not
    return: it raises an [AttributeError], from the text accessor or, when
    the loop over the columns ends, from [col.strip()] on the label; the
    input table is as it was. *)
Theorem normalize_number_label {U : Unicode} (accepts : list value -> bool)
    (st : state) (l : positive) (d : DataFrame) :
  heap st !! l = Some d ->
  ~ str_labels d ->
  let out := _clean_dataframe accepts l st in
  (exists msg, fst out = Raise (AttributeError msg)) /\
  (fst (text_loop accepts (object_labels d) d) = None -> fst out = Raise int_has_no_strip) /\
  heap (snd out) !! l = Some d.
Proof.
  intros Hl Hs out. subst out.
  rewrite (_clean_dataframe_run accepts l st d Hl). simpl.
  destruct (text_loop accepts (object_labels d) d) as [[e|] d1] eqn:E; simpl.
  - split; [|split; [discriminate | now apply insert_fresh_keeps]].
    destruct (text_loop_error accepts _ _ _ _ (object_labels_labels d) E) as [msg ->].
    now exists msg.
  - pose proof (text_loop_text_pass _ _ _ E) as ->.
    change (labels (text_pass d)) with (labels d).
    destruct (forallb is_str (labels d)) eqn:Ef.
    + elim Hs. now apply forallb_is_str.
    + simpl. split; [now eexists|]. split; [reflexivity | now apply insert_fresh_keeps].
Qed.

Lemma normalize_number_label_witness :
  let st := state_with headerless_table in
  let out := _clean_dataframe (U := basic) accepts_text 1%positive st in
  heap st !! 1%positive = Some headerless_table /\
  ~ str_labels headerless_table /\
  fst out = Raise (AttributeError "'int' object has no attribute 'strip'") /\
  (exists msg, fst out = Raise (AttributeError msg)) /\
  (fst (text_loop (U := basic) accepts_text (object_labels headerless_table) headerless_table)
     = None -> fst out = Raise int_has_no_strip) /\
  heap (snd out) !! 1%positive = Some headerless_table.
Proof.
  intros st out.
  assert (H1 : heap st !! 1%positive = Some headerless_table) by reflexivity.
  assert (H2 : ~ str_labels headerless_table).
  { intros H. apply Forall_cons in H as [H _]. discriminate H. }
  split; [exact H1|]. split; [exact H2|]. split; [vm_compute; reflexivity|].
  exact (normalize_number_label (U := basic) accepts_text st 1%positive headerless_table H1 H2).
Defined.

(** ** The wranglers *)

Lemma printed_nil st : printed [] st = st.
Proof. destruct st. unfold printed. simpl. now rewrite app_nil_r. Qed.

Lemma printed_printed l1 l2 st : printed l2 (printed l1 st) = printed (l1 ++ l2) st.
Proof. unfold printed. simpl. now rewrite app_assoc. Qed.

(** *** [sorted] *)

Section Sorted_facts.

Context {A : Type} (le : A -> A -> bool).
Hypothesis le_total : forall x y, le x y = true \/ le y x = true.

Lemma insort_Permutation x l : insort le x l ≡ₚ x :: l.
Proof.
  induction l as [|y l IH]; simpl; [reflexivity|].
  destruct (le x y); [reflexivity|]. rewrite IH. apply Permutation_swap.
Qed.

Lemma sorted_Permutation l : sorted le l ≡ₚ l.
Proof.
  induction l as [|x l IH]; simpl; [reflexivity|].
  unfold sorted in *. simpl. rewrite insort_Permutation. now rewrite IH.
Qed.

Lemma insort_Sorted x l :
  Sorted (fun a b => le a b = true) l -> Sorted (fun a b => le a b = true) (insort le x l).
Proof.
  induction l as [|y l IH]; simpl; intros Hs.
  - repeat constructor.
  - destruct (le x y) eqn:Hxy.
    + constructor; [exact Hs | now constructor].
    + apply Sorted_inv in Hs as [Hs Hhd]. constructor; [now apply IH|].
      destruct l as [|z l]; simpl.
      * constructor. destruct (le_total x y); congruence.
      * destruct (le x z).
        -- constructor. destruct (le_total x y); congruence.
        -- constructor. now apply HdRel_inv in Hhd.
Qed.

Lemma sorted_Sorted l : Sorted (fun a b => le a b = true) (sorted le l).
Proof.
  induction l as [|x l IH]; unfold sorted in *; simpl; [constructor|].
  now apply insort_Sorted.
Qed.

End Sorted_facts.

Lemma str_le_total s t : str_le s t = true \/ str_le t s = true.
Proof.
  revert t. induction s as [|a s IH]; intros [|b t]; simpl; auto.
  destruct (N.ltb_spec a b); [now left|].
  destruct (N.ltb_spec b a); [now right|]. apply IH.
Qed.

Lemma path_le_total p q : path_le p q = true \/ path_le q p = true.
Proof. apply str_le_total. Qed.

(** *** Dictionaries *)

Lemma dict_get_setitem {K V} `{EqDecision K} (k k' : K) (v : V) (d : list (K * V)) :
  dict_get k' (dict_setitem k v d) = if decide (k = k') then Some v else dict_get k' d.
Proof.
  induction d as [|[k0 v0] d IH]; simpl.
  - destruct (decide (k = k')); reflexivity.
  - destruct (decide (k0 = k)) as [->|Hne]; simpl.
    + destruct (decide (k = k')); reflexivity.
    + destruct (decide (k0 = k')) as [->|Hne'].
      * now destruct (decide (k = k')) as [->|_].
      * exact IH.
Qed.

Lemma keys_dict_setitem {K V} `{EqDecision K} (k : K) (v : V) (d : list (K * V)) :
  map fst (dict_setitem k v d)
  = if bool_decide (k ∈ map fst d) then map fst d else (map fst d ++ [k])%list.
Proof.
  induction d as [|[k' v'] d IH]; simpl.
  - reflexivity.
  - destruct (decide (k' = k)) as [->|Hne]; simpl.
    + now rewrite bool_decide_eq_true_2 by now left.
    + rewrite IH. destruct (decide (k ∈ map fst d)) as [Hin|Hin].
      * rewrite !bool_decide_eq_true_2; [reflexivity | now right | exact Hin].
      * rewrite !bool_decide_eq_false_2; [reflexivity | | exact Hin].
        intros H. apply elem_of_cons in H as [?|?]; congruence.
Qed.

Lemma dict_get_keys {K V} `{EqDecision K} (k : K) (d : list (K * V)) :
  k ∈ map fst d -> exists v, dict_get k d = Some v.
Proof.
  induction d as [|[k' v'] d IH]; simpl; intros H.
  - now apply elem_of_nil in H.
  - destruct (decide (k' = k)) as [->|Hne]; [now exists v'|].
    apply elem_of_cons in H as [->|H]; [contradiction | now apply IH].
Qed.

Lemma keys_after_NoDup {K} `{EqDecision K} (ks : list K) :
  forall acc, NoDup (acc ++ ks) -> keys_after ks acc = (acc ++ ks)%list.
Proof.
  induction ks as [|k ks IH]; intros acc Hnd; unfold keys_after in *; simpl.
  - now rewrite app_nil_r.
  - assert (Hk : k ∉ acc).
    { apply NoDup_app in Hnd as (_ & Hd & _). intros H. apply (Hd k H). now left. }
    rewrite (bool_decide_eq_false_2 _ Hk), IH.
    + now rewrite <- app_assoc.
    + now rewrite <- app_assoc.
Qed.

(** *** [LocalDataWrangler.__call__] *)

Section Local_run.

Context {U : Unicode}.
Variable str_accepts : list value -> bool.
Variable read_csv : source -> option (list (str * dtype)) -> result DataFrame.
Variable read_json : source -> result DataFrame.
Variable read_parquet : source -> result DataFrame.
Variable listdir : str -> list str.

(** [file_path.endswith] raises for every path the loop of
    [LocalDataWrangler.__call__] reads, so no file is decoded: the call
    returns the empty dictionary and prints one diagnostic for each path. *)
Lemma LocalDataWrangler_call_decodes_nothing (self : LocalDataWrangler) (st : state) :
  LocalDataWrangler_call str_accepts read_csv read_json read_parquet listdir self st
  = (Ok [], printed (map local_diagnostic (sorted path_le (glob_csv listdir (directory self)))) st).
Proof.
  unfold LocalDataWrangler_call.
  generalize (sorted path_le (glob_csv listdir (directory self))) as paths.
  intros paths. revert st. generalize (@nil (str * positive)) as dfs.
  induction paths as [|p paths IH]; intros dfs st.
  - simpl. unfold ret. now rewrite printed_nil.
  - cbn [for_in map]. unfold bind at 1.
    cbv [try_except bind meth_endswith raise attr_name ret print].
    rewrite IH. f_equal.
    change (printed (map local_diagnostic paths) (printed [local_diagnostic p] st)
            = printed (local_diagnostic p :: map local_diagnostic paths) st).
    apply printed_printed.
Qed.

(** The local wrangler does not let an error leave the call. *)
Lemma LocalDataWrangler_call_returns (self : LocalDataWrangler) (st : state) :
  exists dfs, fst (LocalDataWrangler_call str_accepts read_csv read_json read_parquet
                     listdir self st) = Ok dfs.
Proof. exists []. now rewrite LocalDataWrangler_call_decodes_nothing. Qed.

End Local_run.

(** C1, at a bucket whose listing holds the one key [report.xlsx].  Whether
    the fetch fails or not, the file cannot be processed; the handler of
    [s3DataWrangler.__call__] then reads [file_key.name] on a [str], and the
    [AttributeError] of that leaves the call: no dictionary is returned. *)
Theorem s3_call_error_escapes {U : Unicode} (accepts : list value -> bool)
    (read_csv : source -> option (list (str * dtype)) -> result DataFrame)
    (read_json read_parquet : source -> result DataFrame)
    (s3_get_object : str -> str -> result bytes)
    (bucket pre : str) (dt : option (list (str * dtype)))
    (st : state) :
  exists self,
    s3DataWrangler_init (fun _ _ => Ok ["report.xlsx"]) bucket (Some pre) dt = Ok self /\
    file_keys self = ["report.xlsx"] /\
    s3DataWrangler_call accepts read_csv read_json read_parquet s3_get_object self st
    = (Raise (AttributeError "'str' object has no attribute 'name'"), st).
Proof.
  eexists. split; [reflexivity|]. split; [reflexivity|].
  unfold s3DataWrangler_call. simpl.
  cbv [bind try_except external].
  destruct (s3_get_object bucket "report.xlsx") as [body|e]; reflexivity.
Qed.

(** C2, at the directory that holds [a.csv] and [b.csv].  Whatever the
    decoders make of the two files, [LocalDataWrangler.__call__] returns the
    empty dictionary, with no entry for [a], and prints a diagnostic for
    [a.csv] as for [b.csv]. *)
Theorem local_call_a_b {U : Unicode} (accepts : list value -> bool)
    (read_csv : source -> option (list (str * dtype)) -> result DataFrame)
    (read_json read_parquet : source -> result DataFrame)
    (dir : str) (dt : option (list (str * dtype))) (st : state) :
  LocalDataWrangler_call accepts read_csv read_json read_parquet
    (fun _ => ["b.csv"; "a.csv"]) (LocalDataWrangler_init dir dt) st
  = (Ok [],
     printed ["Error processing a.csv: 'PosixPath' object has no attribute 'endswith'";
              "Error processing b.csv: 'PosixPath' object has no attribute 'endswith'"] st).
Proof. now rewrite LocalDataWrangler_call_decodes_nothing. Qed.

(** C3, at the directory that holds the one file [a.csv], and at the bucket
    that holds the one key [a.csv]: [get_filenames] raises [IndexError] in
    both wranglers, where [__call__] reads the reference. *)
Theorem get_filenames_raises {U : Unicode} (dir bucket pre : str)
    (dt : option (list (str * dtype))) (st : state) :
  LocalDataWrangler_get_filenames (fun _ => ["a.csv"]) (LocalDataWrangler_init dir dt) st
    = (Raise (IndexError "list index out of range"), st)
  /\ exists self,
       s3DataWrangler_init (fun _ _ => Ok ["a.csv"]) bucket (Some pre) dt = Ok self /\
       file_keys self = ["a.csv"] /\
       s3DataWrangler_get_filenames self st
       = (Raise (IndexError "list index out of range"), st).
Proof. split; [reflexivity|]. eexists. repeat split. Qed.

(** Where the names have the parts [get_filenames] reads, it returns. *)
Example get_filenames_examples :
  fst (LocalDataWrangler_get_filenames (U := basic) (fun _ => ["sales.Q2.csv"; "sales.Q1.csv"])
         (LocalDataWrangler_init "data" None) (state_with sample_table))
    = Ok [("q1", "sales.Q1"); ("q2", "sales.Q2")]
  /\ fst (s3DataWrangler_get_filenames
            (mkS3 "bucket" "data/clean/" None ["data/clean/b.csv"; "data/clean/a.json"])
            (state_with sample_table))
    = Ok [("b", "data/clean/b.csv"); ("a", "data/clean/a.json")].
Proof. split; reflexivity. Qed.


(** *** [s3DataWrangler.__call__] *)

Section S3_loop.

Context {U : Unicode}.
Variable accepts : list value -> bool.
Variable table : str -> result DataFrame.
Variable body : str -> list (str * positive) -> Py (list (str * positive)).

(** One round of the loop: the table of the key is stored and normalised,
    each as a new object; any failure ends in the handler, which raises. *)
Hypothesis body_run : forall key dfs st,
  body key dfs st =
  match table key with
  | Raise e => (Raise str_has_no_name, st)
  | Ok d =>
      let l1 := fresh (dom (heap st)) in
      let st1 := set_heap (<[l1 := d]> (heap st)) st in
      match _clean_dataframe accepts l1 st1 with
      | (Ok l2, st2) => (Ok (dict_setitem key l2 dfs), printed [key] st2)
      | (Raise e, st2) => (Raise str_has_no_name, st2)
      end
  end.

Lemma body_ok key dfs st d :
  table key = Ok d -> cleans accepts d ->
  exists l2 h2,
    body key dfs st = (Ok (dict_setitem key l2 dfs),
                       {| heap := h2; stdout := (stdout st ++ [key])%list; files := files st |}) /\
    h2 !! l2 = Some (normalized d) /\
    heap st !! l2 = None /\
    (forall l x, heap st !! l = Some x -> h2 !! l = Some x).
Proof.
  intros Ht Hc. rewrite body_run, Ht. simpl.
  set (l1 := fresh (dom (heap st))).
  set (st1 := set_heap (<[l1 := d]> (heap st)) st).
  assert (H1 : heap st1 !! l1 = Some d) by apply lookup_insert_eq.
  destruct (_clean_dataframe_cases accepts l1 st1 d H1) as [[_ ->]|[Hn _]];
    [|contradiction].
  eexists _, _. split; [reflexivity|]. split; [apply lookup_insert_eq|]. split.
  - pose proof (fresh_heap_None (heap st1)) as Hf. subst st1. simpl in Hf.
    now apply lookup_insert_None in Hf as [Hf _].
  - intros l x Hl. apply insert_fresh_keeps. subst st1. simpl.
    now apply insert_fresh_keeps.
Qed.

Lemma body_fails key dfs st :
  ~ processes accepts table key ->
  exists h2,
    body key dfs st = (Raise str_has_no_name,
                       {| heap := h2; stdout := stdout st; files := files st |}) /\
    (forall l x, heap st !! l = Some x -> h2 !! l = Some x).
Proof.
  intros Hn. rewrite body_run. destruct (table key) as [d|e] eqn:Ht.
  - simpl. set (l1 := fresh (dom (heap st))).
    set (st1 := set_heap (<[l1 := d]> (heap st)) st).
    assert (H1 : heap st1 !! l1 = Some d) by apply lookup_insert_eq.
    destruct (_clean_dataframe_cases accepts l1 st1 d H1) as [[Hc _]|[_ (e & dx & ->)]].
    + elim Hn. now exists d.
    + eexists. split; [reflexivity|].
      intros l x Hl. apply insert_fresh_keeps. subst st1. simpl.
      now apply insert_fresh_keeps.
  - exists (heap st). split; [now destruct st|]. auto.
Qed.

Lemma processes_dec key : processes accepts table key \/ ~ processes accepts table key.
Proof.
  unfold processes, cleans. destruct (table key) as [d|e].
  - destruct (fst (text_loop accepts (object_labels d) d)) as [e|] eqn:E.
    + right. intros (d' & [= <-] & H & _). congruence.
    + destruct (forallb is_str (labels d)) eqn:Es.
      * left. exists d. split; [reflexivity|]. split; [exact E | now apply forallb_is_str].
      * right. intros (d' & [= <-] & _ & H). apply forallb_is_str in H. congruence.
  - right. now intros (d' & [=] & _).
Qed.

(** The loop stops at the first key that cannot be processed. *)
Lemma s3_loop_outcome ks : forall dfs st,
  let out := for_in ks dfs body st in
  files (snd out) = files st /\
  (forall l x, heap st !! l = Some x -> heap (snd out) !! l = Some x) /\
  ((exists dfs', fst out = Ok dfs' /\
      stdout (snd out) = (stdout st ++ ks)%list /\ Forall (processes accepts table) ks)
   \/ (exists n k, ks !! n = Some k /\ ~ processes accepts table k /\
         Forall (processes accepts table) (take n ks) /\
         fst out = Raise str_has_no_name /\
         stdout (snd out) = (stdout st ++ take n ks)%list)).
Proof.
  induction ks as [|key ks IH]; intros dfs st; simpl.
  - split; [reflexivity|]. split; [auto|]. left. exists dfs.
    split; [reflexivity|]. split; [now rewrite app_nil_r | constructor].
  - unfold bind. destruct (processes_dec key) as [(d & Ht & Hc)|Hn].
    + destruct (body_ok key dfs st d Ht Hc) as (l2 & h2 & -> & _ & _ & Hkeep).
      set (st2 := {| heap := h2; stdout := (stdout st ++ [key])%list; files := files st |}).
      specialize (IH (dict_setitem key l2 dfs) st2). simpl in IH.
      destruct IH as (Hf & Hh & Hcases).
      split; [exact Hf|]. split; [intros l x Hl; apply Hh, Hkeep, Hl|].
      destruct Hcases as [(dfs' & Hr & Ho & Hall)|(n & k & Hk & Hnk & Hall & Hr & Ho)].
      * left. exists dfs'. split; [exact Hr|]. split.
        -- rewrite Ho. simpl. now rewrite <- app_assoc.
        -- constructor; [now exists d | exact Hall].
      * right. exists (S n), k. split; [exact Hk|]. split; [exact Hnk|]. split.
        -- simpl. constructor; [now exists d | exact Hall].
        -- split; [exact Hr|]. rewrite Ho. simpl. now rewrite <- app_assoc.
    + destruct (body_fails key dfs st Hn) as (h2 & -> & Hkeep). simpl.
      split; [reflexivity|]. split; [exact Hkeep|].
      right. exists 0, key. split; [reflexivity|]. split; [exact Hn|].
      split; [constructor|]. split; [reflexivity|]. simpl. now rewrite app_nil_r.
Qed.

(** Where every key can be processed the loop fills the dictionary, with
    objects that were not in the store [h0] of the start. *)
Lemma s3_loop_ok (h0 : gmap positive DataFrame) ks : forall dfs st,
  Forall (processes accepts table) ks ->
  holds_tables table dfs st ->
  (forall l x, h0 !! l = Some x -> heap st !! l = Some x) ->
  (forall k l, dict_get k dfs = Some l -> h0 !! l = None) ->
  exists dfs' st',
    for_in ks dfs body st = (Ok dfs', st') /\
    holds_tables table dfs' st' /\
    (forall k l, dict_get k dfs' = Some l -> h0 !! l = None) /\
    map fst dfs' = keys_after ks (map fst dfs) /\
    stdout st' = (stdout st ++ ks)%list.
Proof.
  induction ks as [|key ks IH]; intros dfs st Hall Hinv Hsub Hnew; simpl.
  - exists dfs, st. rewrite app_nil_r. auto.
  - apply Forall_cons in Hall as [(d & Ht & Hc) Hall]. unfold bind.
    destruct (body_ok key dfs st d Ht Hc) as (l2 & h2 & -> & Hl2 & Hfresh & Hkeep).
    set (st2 := {| heap := h2; stdout := (stdout st ++ [key])%list; files := files st |}).
    destruct (IH (dict_setitem key l2 dfs) st2 Hall)
      as (dfs' & st' & Hrun & Hinv' & Hnew' & Hkeys & Hout).
    + intros k l. rewrite dict_get_setitem.
      destruct (decide (key = k)) as [<-|Hne].
      * intros [= <-]. now exists d.
      * intros Hk. destruct (Hinv k l Hk) as (dk & Htk & Hlk).
        exists dk. split; [exact Htk | now apply Hkeep].
    + intros l x Hl. apply Hkeep, Hsub, Hl.
    + intros k l. rewrite dict_get_setitem.
      destruct (decide (key = k)) as [<-|Hne]; [|apply Hnew].
      intros [= <-]. destruct (h0 !! l2) as [x|] eqn:E; [|reflexivity].
      apply Hsub in E. congruence.
    + exists dfs', st'. split; [exact Hrun|]. split; [exact Hinv'|].
      split; [exact Hnew'|]. split.
      * rewrite Hkeys. unfold keys_after. simpl. now rewrite keys_dict_setitem.
      * rewrite Hout. simpl. now rewrite <- app_assoc.
Qed.

End S3_loop.

Lemma s3_call_as_loop {U : Unicode} (accepts : list value -> bool)
    (read_csv : source -> option (list (str * dtype)) -> result DataFrame)
    (read_json read_parquet : source -> result DataFrame)
    (s3_get_object : str -> str -> result bytes) (self : s3DataWrangler) :
  exists body,
    (forall st,
       s3DataWrangler_call accepts read_csv read_json read_parquet s3_get_object self st
       = for_in (sorted str_le (file_keys self)) [] body st) /\
    forall key dfs st,
      body key dfs st =
      match s3_table read_csv read_json read_parquet s3_get_object self key with
      | Raise e => (Raise str_has_no_name, st)
      | Ok d =>
          let l1 := fresh (dom (heap st)) in
          let st1 := set_heap (<[l1 := d]> (heap st)) st in
          match _clean_dataframe accepts l1 st1 with
          | (Ok l2, st2) => (Ok (dict_setitem key l2 dfs), printed [key] st2)
          | (Raise e, st2) => (Raise str_has_no_name, st2)
          end
      end.
Proof.
  eexists. split; [intros st; unfold s3DataWrangler_call; reflexivity|].
  intros key dfs st. unfold s3_table.
  cbv [bind try_except external meth_endswith ret raise decoded alloc attr_name print].
  destruct (s3_get_object (bucket_name self) key) as [body|e]; [|reflexivity].
  destruct (str_endswith key ".csv").
  { destruct (s3_dtypes self) as [dt|];
      (destruct (read_csv _ _) as [d|e]; [|reflexivity]);
      now destruct (_clean_dataframe _ _ _) as [[l2|e] st2]. }
  destruct (str_endswith key ".json").
  { destruct (read_json _) as [d|e]; [|reflexivity].
    now destruct (_clean_dataframe _ _ _) as [[l2|e] st2]. }
  destruct (str_endswith key ".parquet"); [|reflexivity].
  destruct (read_parquet _) as [d|e]; [|reflexivity].
  now destruct (_clean_dataframe _ _ _) as [[l2|e] st2].
Qed.




(** *** [get_filenames] *)

(** [break_at] cuts at the first separator. *)
Lemma break_at_Some sep s a b :
  break_at sep s = Some (a, b) -> s = (a ++ sep :: b)%list /\ sep ∉ a.
Proof.
  revert a. induction s as [|c s IH]; intros a; simpl; [discriminate|].
  destruct (N.eqb_spec c sep) as [->|Hne].
  - intros [= <- <-]. split; [reflexivity | apply not_elem_of_nil].
  - destruct (break_at sep s) as [[a' b']|]; [|discriminate].
    intros [= <- <-]. destruct (IH a' eq_refl) as [-> Hn]. split; [reflexivity|].
    intros H. apply elem_of_cons in H as [?|?]; [congruence | contradiction].
Qed.

Lemma break_at_None sep s : break_at sep s = None <-> sep ∉ s.
Proof.
  induction s as [|c s IH]; simpl.
  - split; [intros _; apply not_elem_of_nil | reflexivity].
  - destruct (N.eqb_spec c sep) as [->|Hne].
    + split; [discriminate|]. intros H. elim H. now left.
    + destruct (break_at sep s) as [[a b]|].
      * split; [discriminate|]. intros H. exfalso.
        assert (H' : sep ∉ s) by (intros Hin; apply H; now right).
        apply IH in H'. discriminate.
      * split; [|reflexivity]. intros _ H.
        apply elem_of_cons in H as [?|H]; [congruence|]. now apply (proj1 IH).
Qed.

(** [s.rsplit('.', 1)] has two parts, around the last dot, when [s] holds a
    dot, and is [[s]] otherwise. *)
Lemma str_rsplit1_dot (s : str) :
  str_contains DOT s = true ->
  exists a b, str_rsplit1 DOT s = [a; b] /\ s = a ++ "." ++ b /\ str_contains DOT b = false.
Proof.
  unfold str_contains, str_rsplit1. intros H. apply bool_decide_eq_true in H.
  destruct (break_at DOT (rev s)) as [[a b]|] eqn:E.
  - apply break_at_Some in E as [E Hn]. exists (rev b), (rev a).
    split; [reflexivity|]. split.
    + rewrite <- (rev_involutive s), E.
      rewrite rev_app_distr. simpl. now rewrite <- app_assoc.
    + apply bool_decide_eq_false.
      intros Hin. apply Hn. apply list_elem_of_In, in_rev, list_elem_of_In, Hin.
  - apply break_at_None in E. elim E.
    apply list_elem_of_In, in_rev. rewrite rev_involutive. now apply list_elem_of_In.
Qed.

Lemma str_rsplit1_no_dot (s : str) :
  str_contains DOT s = false -> str_rsplit1 DOT s = [s].
Proof.
  unfold str_contains, str_rsplit1. intros H. apply bool_decide_eq_false in H.
  destruct (break_at DOT (rev s)) as [[a b]|] eqn:E; [|reflexivity].
  apply break_at_Some in E as [E _]. elim H.
  apply list_elem_of_In, in_rev. rewrite E. apply in_or_app. right. now left.
Qed.

(** The stem of [x.csv] is [x]. *)
Lemma path_stem_csv dir (x : str) : x <> [] -> path_stem (mkPath dir (x ++ ".csv")) = x.
Proof.
  intros Hx. unfold path_stem. simpl. rewrite rev_app_distr. simpl.
  destruct (rev x) as [|c r] eqn:E.
  - elim Hx. now rewrite <- (rev_involutive x), E.
  - simpl. now rewrite <- (rev_involutive x), E.
Qed.

Lemma dotted_or_not (stems : list str) :
  Forall (fun f => str_contains DOT f = true) stems
  \/ Exists (fun f => str_contains DOT f = false) stems.
Proof.
  induction stems as [|f stems [IH|IH]].
  - left. constructor.
  - destruct (str_contains DOT f) eqn:E.
    + left. now constructor.
    + right. now constructor.
  - right. now constructor.
Qed.

Lemma zip_map_self {A B} (g : A -> B) (l : list A) :
  zip (map g l) l = map (fun x => (g x, x)) l.
Proof. induction l as [|x l IH]; simpl; [reflexivity | now rewrite IH]. Qed.

(** The short name [get_filenames] gives to a stem that holds a dot. *)
Lemma short_name_run {U : Unicode} (file : str) (st : state) :
  (str_contains DOT file = true ->
   exists a b, file = a ++ "." ++ b /\ str_contains DOT b = false /\
     (part ← list_getitem (str_rsplit1 DOT file) 1; ret (str_lower part))%py st
       = (Ok (str_lower b), st))
  /\ (str_contains DOT file = false ->
      (part ← list_getitem (str_rsplit1 DOT file) 1; ret (str_lower part))%py st
        = (Raise (IndexError "list index out of range"), st)).
Proof.
  split; intros H.
  - destruct (str_rsplit1_dot file H) as (a & b & E & Hf & Hb).
    exists a, b. split; [exact Hf|]. split; [exact Hb|]. now rewrite E.
  - now rewrite (str_rsplit1_no_dot file H).
Qed.

(** X4. [LocalDataWrangler.get_filenames] changes nothing and reads the
    stems of the [*.csv] paths in ascending order of the names.  When every
    stem holds a dot it returns, for each stem in that order, the text after
    the last dot of the stem, in lower case, paired with the stem; when one
    stem holds no dot (as the stem of [a.csv]) it raises [IndexError]. *)
Theorem local_get_filenames_outcome {U : Unicode} (listdir : str -> list str)
    (self : LocalDataWrangler) (st : state) :
  let paths := sorted path_le (glob_csv listdir (directory self)) in
  let stems := map path_stem paths in
  let out := LocalDataWrangler_get_filenames listdir self st in
  snd out = st /\
  Forall (fun p => path_name p = ".csv" \/ path_name p = path_stem p ++ ".csv") paths /\
  ((Forall (fun f => str_contains DOT f = true) stems /\
    exists pairs,
      fst out = Ok pairs /\
      map snd pairs = stems /\
      Forall (fun pr => exists a b, snd pr = a ++ "." ++ b /\
                          str_contains DOT b = false /\ fst pr = str_lower b) pairs)
   \/ (Exists (fun f => str_contains DOT f = false) stems /\
       fst out = Raise (IndexError "list index out of range"))).
Proof.
  intros paths stems out. subst out.
  set (f := fun file : str =>
              (part ← list_getitem (str_rsplit1 DOT file) 1; ret (str_lower part))%py).
  assert (Hrun : LocalDataWrangler_get_filenames listdir self st
                 = match comprehension f stems st with
                   | (Ok df_names, st') => (Ok (zip df_names stems), st')
                   | (Raise e, st') => (Raise e, st')
                   end).
  { unfold LocalDataWrangler_get_filenames. fold paths. unfold bind at 1.
    rewrite (comprehension_ok (fun file => attr_stem (PyPath file)) path_stem paths st)
      by (apply Forall_forall; reflexivity).
    reflexivity. }
  rewrite Hrun. clear Hrun.
  assert (Hstems : Forall (fun p => path_name p = ".csv"
                                    \/ path_name p = path_stem p ++ ".csv") paths).
  { apply Forall_forall. intros p Hp. subst paths.
    rewrite (sorted_Permutation path_le) in Hp. unfold glob_csv in Hp.
    apply list_elem_of_fmap in Hp as (n & -> & Hn).
    apply list_elem_of_filter in Hn as [Hn _]. apply bool_decide_unpack in Hn.
    destruct Hn as [k Hk]. simpl. subst n.
    destruct k as [|c k]; [now left|].
    right. now rewrite path_stem_csv. }
  destruct (dotted_or_not stems) as [Hall|Hex].
  - set (g := fun file : str => str_lower (nth 1 (str_rsplit1 DOT file) [])).
    assert (Hg : forall file, str_contains DOT file = true ->
                 exists a b, file = a ++ "." ++ b /\ str_contains DOT b = false /\
                             g file = str_lower b /\ f file st = (Ok (g file), st)).
    { intros file H. destruct (str_rsplit1_dot file H) as (a & b & E & Hf & Hb).
      exists a, b. subst f g. simpl. rewrite E. auto. }
    rewrite (comprehension_ok f g stems st).
    + split; [reflexivity|]. split; [exact Hstems|]. left. split; [exact Hall|].
      exists (zip (map g stems) stems). split; [reflexivity|].
      rewrite zip_map_self, map_map. simpl. split; [apply map_id|].
      apply Forall_map. eapply Forall_impl; [exact Hall|]. simpl. intros file H.
      destruct (Hg file H) as (a & b & Hf & Hb & Hgf & _). now exists a, b.
    + eapply Forall_impl; [exact Hall|]. simpl. intros file H.
      now destruct (Hg file H) as (a & b & _ & _ & _ & Hrun).
  - rewrite (comprehension_raises f (IndexError "list index out of range") stems st).
    + split; [reflexivity|]. split; [exact Hstems|]. right. now split.
    + apply Forall_forall. intros file _.
      destruct (str_contains DOT file) eqn:E.
      * left. destruct (proj1 (short_name_run file st) E) as (a & b & _ & _ & Hrun).
        now exists (str_lower b).
      * right. exact (proj2 (short_name_run file st) E).
    + eapply Exists_impl; [exact Hex|]. simpl. intros file E.
      exact (proj2 (short_name_run file st) E).
Qed.

(** [re.split(r"[./]+", s)] on a text that starts with a part free of dots
    and slashes. *)
Lemma re_split_runs_part (w : str) : forall cur in_run rest,
  w <> [] \/ in_run = false ->
  Forall (fun c => c <> DOT /\ c <> SLASH) w ->
  re_split_runs cur in_run (w ++ rest) = re_split_runs (rev w ++ cur) false rest.
Proof.
  induction w as [|c w IH]; intros cur in_run rest Hne Hw.
  - destruct Hne as [Hne | ->]; [congruence | reflexivity].
  - apply Forall_cons in Hw as [[Hd Hs] Hw]. simpl.
    apply N.eqb_neq in Hd, Hs. rewrite Hd, Hs. simpl.
    rewrite (IH (c :: cur) false rest); [|now right | exact Hw].
    now rewrite <- app_assoc.
Qed.

Lemma re_split_runs_piece (w : str) (sep : code) (in_run : bool) (rest : str) :
  plain_part w -> sep = DOT \/ sep = SLASH ->
  re_split_runs [] in_run (w ++ sep :: rest) = w :: re_split_runs [] true rest.
Proof.
  intros [Hne Hw] Hsep. rewrite re_split_runs_part; [|now left|exact Hw].
  simpl. rewrite app_nil_r, rev_involutive.
  now destruct Hsep as [-> | ->].
Qed.

(** The third piece of a key two levels below the root is the name of the
    file; a key at the root has two pieces. *)
Lemma re_split_two_levels_down key name :
  two_levels_down key name -> re_split_dot_slash key !! 2 = Some name.
Proof.
  intros (dir & sub & rest & -> & Hd & Hs & Hn). unfold re_split_dot_slash.
  simpl.
  rewrite (re_split_runs_piece dir SLASH false), (re_split_runs_piece sub SLASH true),
    (re_split_runs_piece name DOT true); auto.
Qed.

Lemma re_split_at_root key : at_root key -> re_split_dot_slash key !! 2 = None.
Proof.
  intros (name & ext & -> & Hn & [Hne He]). unfold re_split_dot_slash.
  simpl. rewrite (re_split_runs_piece name DOT false); auto.
  rewrite <- (app_nil_r ext), re_split_runs_part; [reflexivity | now left | exact He].
Qed.

(** X5. [s3DataWrangler.get_filenames] on keys that all lie two levels below
    the root of the bucket, as [data/clean/name.csv]: it returns, for each
    key in the order of the listing (not the ascending order in which
    [__call__] reads them), the name of the file paired with the key, and
    changes nothing. *)
Theorem s3_get_filenames_two_levels_down (self : s3DataWrangler)
    (names : list str) (st : state) :
  Forall2 two_levels_down (file_keys self) names ->
  s3DataWrangler_get_filenames self st = (Ok (zip names (file_keys self)), st).
Proof.
  intros H. unfold s3DataWrangler_get_filenames.
  assert (Hc : comprehension (fun file => list_getitem (re_split_dot_slash file) 2)
                 (file_keys self) st = (Ok names, st)).
  { induction H as [|key name keys names Hk _ IH]; simpl; [reflexivity|].
    unfold bind. unfold list_getitem at 1. rewrite (re_split_two_levels_down _ _ Hk).
    unfold ret at 1. unfold bind. now rewrite IH. }
  unfold bind. now rewrite Hc.
Qed.

Lemma s3_get_filenames_two_levels_down_witness :
  let self := mkS3 "bucket" "data/clean/" None
                ["data/clean/b.csv"; "data/clean/a.v2.json"] in
  Forall2 two_levels_down (file_keys self) ["b"; "a"] /\
  s3DataWrangler_get_filenames self (state_with sample_table)
    = (Ok [("b", "data/clean/b.csv"); ("a", "data/clean/a.v2.json")],
       state_with sample_table).
Proof.
  intros self.
  assert (H : Forall2 two_levels_down (file_keys self) ["b"; "a"]).
  { assert (Hp : forall s : str, s <> [] ->
                 forallb (fun c => negb (c =? DOT)%N && negb (c =? SLASH)%N) s = true ->
                 plain_part s).
    { intros s Hne Hs. split; [exact Hne|]. apply Forall_forall. intros c Hc.
      apply list_elem_of_In in Hc. rewrite forallb_forall in Hs. specialize (Hs c Hc).
      apply andb_true_iff in Hs as [H1 H2]. apply negb_true_iff in H1, H2.
      now apply N.eqb_neq in H1, H2. }
    change (file_keys self) with ["data/clean/b.csv"; "data/clean/a.v2.json"].
    repeat constructor.
    - exists "data", "clean", "csv". split; [reflexivity|].
      repeat split; apply Hp; (discriminate || reflexivity).
    - exists "data", "clean", "v2.json". split; [reflexivity|].
      repeat split; apply Hp; (discriminate || reflexivity). }
  split; [exact H|].
  exact (s3_get_filenames_two_levels_down self ["b"; "a"] (state_with sample_table) H).
Defined.

(** X6. [s3DataWrangler.get_filenames] raises [IndexError], and changes
    nothing, as soon as one key of the wrangler lies at the root of the
    bucket, as [a.csv]. *)
Theorem s3_get_filenames_at_root (self : s3DataWrangler) (st : state) :
  Exists at_root (file_keys self) ->
  s3DataWrangler_get_filenames self st = (Raise (IndexError "list index out of range"), st).
Proof.
  intros H. unfold s3DataWrangler_get_filenames. unfold bind.
  rewrite (comprehension_raises _ (IndexError "list index out of range") (file_keys self) st).
  - reflexivity.
  - apply Forall_forall. intros key _. unfold list_getitem.
    destruct (re_split_dot_slash key !! 2) as [x|]; [left; now exists x | now right].
  - eapply Exists_impl; [exact H|]. simpl. intros key Hk.
    unfold list_getitem. now rewrite (re_split_at_root key Hk).
Qed.

Lemma s3_get_filenames_at_root_witness :
  let self := mkS3 "bucket" "" None ["data/clean/b.csv"; "a.csv"] in
  Exists at_root (file_keys self) /\
  s3DataWrangler_get_filenames self (state_with sample_table)
    = (Raise (IndexError "list index out of range"), state_with sample_table).
Proof.
  intros self.
  assert (H : Exists at_root (file_keys self)).
  { change (file_keys self) with ["data/clean/b.csv"; "a.csv"].
    apply Exists_cons_tl, Exists_cons_hd. exists "a", "csv". split; [reflexivity|].
    split; (split; [discriminate|]); repeat constructor; discriminate. }
  split; [exact H|].
  exact (s3_get_filenames_at_root self (state_with sample_table) H).
Defined.

(** *** The constructor of the S3 wrangler *)

Lemma fold_left_append {A} (l : list A) : forall acc,
  fold_left (fun keys key => keys ++ [key]) l acc = acc ++ l.
Proof.
  induction l as [|x l IH]; intros acc; simpl; [now rewrite app_nil_r|].
  now rewrite IH, <- app_assoc.
Qed.

(** X16. [s3DataWrangler.__init__] lists the bucket once, under the prefix.
    With the default prefix [None] the client refuses the request and the
    constructor raises; when the listing fails, its exception leaves the
    constructor; otherwise the wrangler holds the bucket, the prefix, the
    types, and of the listed keys exactly those that hold a dot, in the
    order of the listing.  When no listed key holds a dot the wrangler has
    no file key: [__call__] returns the empty dictionary and
    [get_filenames] the empty list, and both change nothing. *)
Theorem s3_init_file_keys {U : Unicode}
    (str_accepts : list value -> bool)
    (read_csv : source -> option (list (str * dtype)) -> result DataFrame)
    (read_json read_parquet : source -> result DataFrame)
    (list_objects_v2 : str -> str -> result (list str))
    (s3_get_object : str -> str -> result bytes)
    (bucket : str) (dt : option (list (str * dtype))) :
  (exists e, s3DataWrangler_init list_objects_v2 bucket None dt = Raise e) /\
  forall pre,
    match list_objects_v2 bucket pre with
    | Raise e => s3DataWrangler_init list_objects_v2 bucket (Some pre) dt = Raise e
    | Ok listing =>
        exists self,
          s3DataWrangler_init list_objects_v2 bucket (Some pre) dt = Ok self /\
          bucket_name self = bucket /\ prefix self = pre /\ s3_dtypes self = dt /\
          file_keys self = filter (fun key => str_contains DOT key) listing /\
          (forall key, key ∈ file_keys self <-> key ∈ listing /\ DOT ∈ key) /\
          (Forall (fun key => DOT ∉ key) listing ->
           forall st,
             s3DataWrangler_call str_accepts read_csv read_json read_parquet s3_get_object
               self st = (Ok [], st) /\
             s3DataWrangler_get_filenames self st = (Ok [], st))
    end.
Proof.
  split; [now eexists|]. intros pre. unfold s3DataWrangler_init.
  destruct (list_objects_v2 bucket pre) as [listing|e]; [|reflexivity].
  eexists. split; [reflexivity|]. simpl. rewrite fold_left_append. simpl.
  assert (Hnone : Forall (fun key : str => DOT ∉ key) listing ->
                  filter (fun key => str_contains DOT key) listing = []).
  { induction 1 as [|x l Hx _ IH]; [reflexivity|].
    rewrite filter_cons_False; [exact IH|].
    intros Hd. apply bool_decide_unpack in Hd. contradiction. }
  do 4 (split; [reflexivity|]). split.
  - intros key. rewrite list_elem_of_filter. unfold str_contains. split.
    + intros [Hd Hk]. apply bool_decide_unpack in Hd. now split.
    + intros [Hk Hd]. split; [now apply bool_decide_pack | exact Hk].
  - intros Hall st. unfold s3DataWrangler_call, s3DataWrangler_get_filenames. simpl.
    rewrite (Hnone Hall). split; reflexivity.
Qed.

(** At a bucket that lists a folder and two files. *)
Example s3_init_example :
  s3DataWrangler_init
    (fun _ _ => Ok ["data/clean/"; "data/clean/b.csv"; "data/clean/a.json"])
    "bucket" (Some "data/clean/") None
  = Ok (mkS3 "bucket" "data/clean/" None ["data/clean/b.csv"; "data/clean/a.json"]).
Proof. reflexivity. Qed.

(** ** The schema generator *)

Lemma set_property_schema_with required props feature prop :
  set_property (schema_with required props) feature prop
  = schema_with required (dict_setitem feature prop props).
Proof. reflexivity. Qed.

Lemma build_schema_loop required fs props :
  exists props',
    fold_left (fun schema feature => set_property schema feature number_type)
              fs (schema_with required props) = schema_with required props' /\
    forall name, dict_get name props'
      = if bool_decide (name ∈ fs) then Some number_type else dict_get name props.
Proof.
  revert props. induction fs as [|f fs IH]; intros props; simpl.
  - exists props. split; [reflexivity|]. intros name. reflexivity.
  - rewrite set_property_schema_with.
    destruct (IH (dict_setitem f number_type props)) as (props' & -> & Hget).
    exists props'. split; [reflexivity|]. intros name. rewrite Hget.
    rewrite dict_get_setitem.
    destruct (decide (name ∈ fs)) as [Hin|Hin].
    + rewrite !bool_decide_eq_true_2; [reflexivity | now right | exact Hin].
    + rewrite (bool_decide_eq_false_2 _ Hin).
      destruct (decide (f = name)) as [->|Hne].
      * rewrite bool_decide_eq_true_2; [reflexivity | now left].
      * rewrite bool_decide_eq_false_2; [reflexivity|].
        intros H. apply elem_of_cons in H as [->|H]; [now elim Hne | now elim Hin].
Qed.

Lemma dict_get_remove {V} (p path : str) (fs : list (str * V)) :
  p <> path ->
  dict_get p (filter (fun f => negb (bool_decide (fst f = path))) fs) = dict_get p fs.
Proof.
  intros Hne. induction fs as [|[k v] fs IH]; [reflexivity|].
  destruct (decide (k = path)) as [->|Hk].
  - rewrite filter_cons_False by (simpl; rewrite bool_decide_eq_true_2; auto).
    simpl. destruct (decide (path = p)) as [->|_]; [contradiction | exact IH].
  - rewrite filter_cons_True by (simpl; rewrite bool_decide_eq_false_2; auto).
    simpl. now rewrite IH.
Qed.

(** C8. For every ordered column list the schema generator builds an object
    of type ["object"] whose [required] array is the column list in order
    and whose [properties] map each listed name, and no other, to
    [{"type": "number"}]; the rows and the types of the feature matrix play
    no part; and where the file can be opened this object, dumped, is what
    [__call__] writes.  For the columns [age], [income]:
    [required == ["age","income"]] and both properties have type
    ["number"]. *)
Theorem schema_generator_builds_schema (json_dumps : json -> str)
    (open_w : str -> result unit) (X : DataFrame) (path : str) (st : state) :
  let self := SchemaGenerator_init X path in
  let schema := build_schema self in
  dict_get (LStr "type") schema = Some (JString "object")
  /\ dict_get (LStr "required") schema = Some (JArray (map json_of_label (labels X)))
  /\ (exists props,
        dict_get (LStr "properties") schema = Some (JObject props) /\
        forall name, dict_get name props
          = if bool_decide (name ∈ labels X) then Some number_type else None)
  /\ (forall rows', build_schema (SchemaGenerator_init (mkDataFrame (columns X) rows') path)
                    = schema)
  /\ (open_w path = Ok tt ->
      dict_get path (files (snd (SchemaGenerator_call json_dumps open_w self st)))
        = Some (json_dumps (JObject schema)))
  /\ (let doc := build_schema (mkSchemaGenerator [LStr "age"; LStr "income"] path) in
      dict_get (LStr "required") doc = Some (JArray [JString "age"; JString "income"]) /\
      exists props,
        dict_get (LStr "properties") doc = Some (JObject props) /\
        dict_get (LStr "age") props = Some (JObject [(LStr "type", JString "number")]) /\
        dict_get (LStr "income") props = Some (JObject [(LStr "type", JString "number")])).
Proof.
  intros self schema. subst schema self. unfold build_schema, SchemaGenerator_init. simpl.
  destruct (build_schema_loop (labels X) (labels X) []) as (props & Hfold & Hget).
  change number_type with (JObject [(LStr "type", JString "number")]) in Hfold.
  unfold schema_with in Hfold at 1. rewrite Hfold.
  split; [reflexivity|]. split; [reflexivity|]. split; [|split; [|split]].
  - exists props. split; [reflexivity|]. intros name. rewrite Hget.
    now destruct (bool_decide (name ∈ labels X)).
  - intros rows'.
    change (labels {| columns := columns X; rows := rows' |}) with (labels X).
    exact Hfold.
  - intros Hopen.
    unfold SchemaGenerator_call, build_schema, bind, write_file, external, print. simpl.
    rewrite Hfold, Hopen. simpl. unfold bind. simpl.
    destruct (decide (path = path)); [reflexivity | contradiction].
  - simpl. split; [reflexivity|]. eexists. repeat split; reflexivity.
Qed.

(** ** The schema generator: the whole document and the effects *)

Lemma dict_setitem_number (f : label) acc :
  dict_setitem f number_type (map (fun k => (k, number_type)) acc)
  = map (fun k => (k, number_type))
        (if bool_decide (f ∈ acc) then acc else (acc ++ [f])%list).
Proof.
  induction acc as [|k acc IH]; simpl; [reflexivity|].
  destruct (decide (k = f)) as [->|Hne].
  - now rewrite bool_decide_eq_true_2 by now left.
  - rewrite IH. destruct (decide (f ∈ acc)) as [Hin|Hin].
    + rewrite !bool_decide_eq_true_2; [reflexivity | now right | exact Hin].
    + rewrite !bool_decide_eq_false_2; [reflexivity | | exact Hin].
      intros H. apply elem_of_cons in H as [?|?]; congruence.
Qed.

Lemma build_schema_fold required fs : forall acc,
  fold_left (fun schema feature => set_property schema feature number_type) fs
    (schema_with required (map (fun k => (k, number_type)) acc))
  = schema_with required (map (fun k => (k, number_type)) (keys_after fs acc)).
Proof.
  induction fs as [|f fs IH]; intros acc; simpl; [reflexivity|].
  rewrite set_property_schema_with, dict_setitem_number. apply IH.
Qed.

Lemma keys_after_elem {K} `{EqDecision K} (ks : list K) :
  forall acc x, x ∈ keys_after ks acc <-> x ∈ acc \/ x ∈ ks.
Proof.
  induction ks as [|k ks IH]; intros acc x; unfold keys_after in *; simpl.
  - split; [now left | intros [H|H]; [exact H | now apply elem_of_nil in H]].
  - rewrite IH. destruct (decide (k ∈ acc)) as [Hin|Hin].
    + rewrite (bool_decide_eq_true_2 _ Hin). rewrite elem_of_cons.
      split; [tauto|]. intros [H|[->|H]]; tauto.
    + rewrite (bool_decide_eq_false_2 _ Hin), elem_of_app, list_elem_of_singleton, elem_of_cons.
      tauto.
Qed.

Lemma keys_after_NoDup_acc {K} `{EqDecision K} (ks : list K) :
  forall acc, NoDup acc -> NoDup (keys_after ks acc).
Proof.
  induction ks as [|k ks IH]; intros acc Hnd; unfold keys_after in *; simpl; [exact Hnd|].
  apply IH. destruct (decide (k ∈ acc)) as [Hin|Hin].
  - now rewrite (bool_decide_eq_true_2 _ Hin).
  - rewrite (bool_decide_eq_false_2 _ Hin). apply NoDup_app. split; [exact Hnd|].
    split; [|repeat constructor; apply not_elem_of_nil].
    intros x Hx H. apply list_elem_of_singleton in H. congruence.
Qed.

(** X13. The document [SchemaGenerator.__call__] builds, in full: the five
    entries [$schema], [title], [type], [properties], [required] in this
    order, where [properties] has one entry [{"type": "number"}] for each
    column name, at the place of its first occurrence in the column list (a
    name listed twice has one property), and [required] is the list as it
    is. *)
Theorem schema_document (self : SchemaGenerator) :
  build_schema self
  = [ (LStr "$schema", JString "http://json-schema.org/draft-07/schema#");
      (LStr "title", JString "Generated schema for Root");
      (LStr "type", JString "object");
      (LStr "properties",
       JObject (map (fun name => (name, JObject [(LStr "type", JString "number")]))
                    (first_seen (features self))));
      (LStr "required", JArray (map json_of_label (features self))) ]
  /\ NoDup (first_seen (features self))
  /\ Forall (fun name => name ∈ features self) (first_seen (features self))
  /\ Forall (fun name => name ∈ first_seen (features self)) (features self).
Proof.
  split; [|split; [|split]].
  - unfold build_schema. exact (build_schema_fold (features self) (features self) []).
  - apply keys_after_NoDup_acc. constructor.
  - apply Forall_forall. intros name H. unfold first_seen in H.
    apply keys_after_elem in H as [H|H]; [now apply elem_of_nil in H | exact H].
  - apply Forall_forall. intros name H. unfold first_seen.
    apply keys_after_elem. now right.
Qed.



(** Where the path cannot be written to. *)
Example schema_call_unwritable :
  let self := mkSchemaGenerator [LStr "age"] "/schema.json" in
  let st := {| heap := ∅; stdout := []; files := [] |} in
  SchemaGenerator_call (fun _ => "{...}") (fun _ => Raise (LibraryError "Permission denied"))
    self st
  = (Raise (LibraryError "Permission denied"), st).
Proof. reflexivity. Qed.
